(** * Proctoring pipeline: violation parser, frame throttle, session gating and
  the edge rate limiter.

  The development follows three source files:
  - [lib/multimodalLiveClient.ts]  (class [MultimodalLiveClient]),
  - [lib/contexts/LiveAPIContext.tsx] (the [LiveAPIProvider] handlers) and
    [components/VideoProctor.tsx] ([captureFrame]),
  - [middleware.ts] (the per-address rate limiter).

  JavaScript strings are sequences of UTF-16 code units, modelled as
  [list N].  Times are [Date.now()] readings in milliseconds, modelled as
  [Z] and carried by the events that read the clock. *)

From Stdlib Require Import ZArith NArith QArith List String Ascii Lia Bool.
From stdpp Require Import gmap strings list fin_maps pretty.

Local Open Scope N_scope.

(* ===================================================================== *)
(** ** JavaScript strings                                                 *)
(* ===================================================================== *)

Module Js.

(** A string literal of the source, as code units. *)
Definition lit (s : string) : list N :=
  map N_of_ascii (list_ascii_of_string s).

Definition LF : N := 0x0A.

(** The class [\s] of a regular expression without the [u] flag, which is
    also the set removed by [String.prototype.trim]: WhiteSpace and
    LineTerminator of ECMAScript. *)
Definition is_space (c : N) : bool :=
  (c =? 0x09) || (c =? 0x0A) || (c =? 0x0B) || (c =? 0x0C) || (c =? 0x0D)
  || (c =? 0x20) || (c =? 0xA0) || (c =? 0x1680)
  || ((0x2000 <=? c) && (c <=? 0x200A))
  || (c =? 0x2028) || (c =? 0x2029) || (c =? 0x202F) || (c =? 0x205F)
  || (c =? 0x3000) || (c =? 0xFEFF).

Fixpoint trimStart (s : list N) : list N :=
  match s with
  | c :: s' => if is_space c then trimStart s' else s
  | [] => []
  end.

Definition trimEnd (s : list N) : list N := rev (trimStart (rev s)).

(** [s.trim()] *)
Definition trim (s : list N) : list N := trimEnd (trimStart s).

(** [s.startsWith(p)], returning what follows the prefix. *)
Fixpoint strip_prefix (p s : list N) : option (list N) :=
  match p, s with
  | [], _ => Some s
  | a :: p', b :: s' => if a =? b then strip_prefix p' s' else None
  | _ :: _, [] => None
  end.

Definition startsWith (s p : list N) : bool :=
  match strip_prefix p s with Some _ => true | None => false end.

(** [s.slice(s.indexOf(',') + 1)]: the text after the first comma, the
    whole string when there is none ([indexOf] gives -1, [slice(0)]). *)
Fixpoint after_comma_aux (s : list N) : option (list N) :=
  match s with
  | [] => None
  | c :: s' => if c =? 0x2C then Some s' else after_comma_aux s'
  end.

Definition after_comma (s : list N) : list N :=
  match after_comma_aux s with Some r => r | None => s end.

(** [lines.join('\n')] *)
Fixpoint join_lines (ls : list (list N)) : list N :=
  match ls with
  | [] => []
  | [l] => l
  | l :: ls' => l ++ LF :: join_lines ls'
  end.

End Js.

(* ===================================================================== *)
(** ** The violation parser: [/PROCTORING_VIOLATION:\s*([^\n]+)/g]         *)
(* ===================================================================== *)

Module Parser.
Import Js.

Definition marker : list N := lit "PROCTORING_VIOLATION:".

(** [[^\n]+], greedy: the longest run of code units other than LF, which
    must not be empty.  Nothing follows it in the pattern, so it never
    gives anything back. *)
Fixpoint span_line (s : list N) : list N * list N :=
  match s with
  | [] => ([], [])
  | c :: s' =>
      if c =? LF then ([], s)
      else let '(l, r) := span_line s' in (c :: l, r)
  end.

Definition capture_line (s : list N) : option (list N * list N) :=
  match span_line s with
  | ([], _) => None
  | (cap, rest) => Some (cap, rest)
  end.

(** [\s*([^\n]+)] with the backtracking of the engine: [\s*] is greedy, so
    one more blank is tried first, and only when the rest of the pattern
    fails after it does the group start at this code unit. *)
Fixpoint spaces_then_capture (s : list N) : option (list N * list N) :=
  match s with
  | [] => None
  | c :: s' =>
      if is_space c then
        match spaces_then_capture s' with
        | Some r => Some r
        | None => capture_line s
        end
      else capture_line s
  end.

(** The whole pattern anchored at the head of [s]: group 1 and the text
    after the match. *)
Definition match_at (s : list N) : option (list N * list N) :=
  match strip_prefix marker s with
  | Some r => spaces_then_capture r
  | None => None
  end.

(** [violationRegex.exec(text)] with the [g] flag.  [s] is the text from
    [lastIndex] on; the result is group 1 of the leftmost match and the
    text from the new [lastIndex] on, [None] for [null]. *)
Fixpoint exec (s : list N) : option (list N * list N) :=
  match match_at s with
  | Some r => Some r
  | None => match s with [] => None | _ :: s' => exec s' end
  end.

(** The [while ((match = violationRegex.exec(text)) !== null)] loop,
    collecting [match[1]].  Every match is at least as long as the marker,
    so [fuel] above the length of the text is never used up
    (see [exec_loop_fuel]). *)
Fixpoint exec_loop (fuel : nat) (s : list N) : list (list N) :=
  match fuel with
  | O => []
  | S f =>
      match exec s with
      | Some (cap, rest) => cap :: exec_loop f rest
      | None => []
      end
  end.

Definition captures (text : list N) : list (list N) :=
  exec_loop (S (length text)) text.

Record ViolationEvent := {
  type : list N;
  timestamp : Z;          (* the instant that [new Date().toISOString()] renders *)
  confidence : Q;
  details : option (list N)
}.

(** [extractViolations(text)]; [now] is the clock during the call. *)
Definition extractViolations (now : Z) (text : list N) : list ViolationEvent :=
  map (fun cap => {| type := trim cap;
                     timestamp := now;
                     confidence := 9 # 10;
                     details := Some text |})
      (captures text).

End Parser.

(* ===================================================================== *)
(** ** [MultimodalLiveClient]                                             *)
(* ===================================================================== *)

Module Client.
Import Js Parser.

(** Values of type [any] handed to [sendConfig]. *)
#[local] Unset Elimination Schemes.
Inductive Json :=
| JNull
| JBool (b : bool)
| JNum (q : Q)
| JStr (s : list N)
| JArr (items : list Json)
| JObj (fields : list (list N * Json)).
#[local] Set Elimination Schemes.

Record VideoFrame := {
  imageData : list N;
  frameTimestamp : Z;     (* field [timestamp] of the source *)
  width : Z;
  height : Z;
  quality : Q
}.

(** The body of the POST of [analyzeFrame]. *)
Record GeminiRequest := {
  mime_type : list N;
  data : list N;
  temperature : Q;
  topP : Z;
  topK : Z;
  maxOutputTokens : Z;
  safetyCategory : list N;
  safetyThreshold : list N
}.

Record FetchCall := {
  method : list N;
  path : list N;
  authorization : option (list N);
  body : option GeminiRequest
}.

(** The reply of the model as [processViolations] reads it:
    [response.candidates?.[0]?.content?.parts], then [part.text]. *)
Record Part := { text : option (list N) }.
Record Content := { parts : option (list Part) }.
Record Candidate := { content : option Content }.
Record GeminiResponse := { candidates : option (list Candidate) }.

(** How a [fetch] promise settles, and how [response.json()] does. *)
Inductive FetchResult :=
| Rejected (message : list N)
| Responded (ok : bool) (statusText : list N).

Inductive JsonResult :=
| JsonThrows (message : list N)
| JsonValue (v : GeminiResponse).

(** Event names and what [emit] is called with. *)
Inductive EventName := open | close | error | config | violation.

Inductive Signal :=
| SOpen
| SClose
| SError (msg : list N)
| SConfig (cfg : Json)
| SViolation (v : ViolationEvent).

Definition name_of (sg : Signal) : EventName :=
  match sg with
  | SOpen => open
  | SClose => close
  | SError _ => error
  | SConfig _ => config
  | SViolation _ => violation
  end.

Definition EventName_eqb (a b : EventName) : bool :=
  match a, b with
  | open, open | close, close | error, error
  | config, config | violation, violation => true
  | _, _ => false
  end.

Inductive Level := info | warn | err.

(** An asynchronous function of the client suspended in an [await]. *)
Inductive Awaiting :=
| AwaitFetch (frame : VideoFrame)    (* [analyzeFrame] at [await fetch(...)] *)
| AwaitJson (frame : VideoFrame).    (* [analyzeFrame] at [await response.json()] *)

(** The fields of the object, followed by what it has done to its
    surroundings: calls of listeners, [fetch] calls, logger lines, and the
    continuations that wait for the network. *)
Record State := {
  url : list N;
  apiKey : list N;
  connected : bool;
  lastAnalysisTime : Z;
  analysisInterval : Z;
  confidenceThreshold : Q;
  frameQueue : list VideoFrame;
  processingFrames : bool;
  listeners : list (EventName * nat);     (* [on(name, listener)], in order *)
  emitted : list Signal;                  (* every [emit], oldest first *)
  delivered : list (nat * Signal);        (* listener calls, oldest first *)
  fetched : list FetchCall;               (* every [fetch], oldest first *)
  healthChecks : nat;                     (* [connect] calls awaiting their [fetch] *)
  analyses : list Awaiting;               (* [analyzeFrame] calls in flight *)
  logged : list (Level * list N)
}.

(** [new MultimodalLiveClient(url, apiKey)] *)
Definition new (url apiKey : list N) : State :=
  {| url := url; apiKey := apiKey;
     connected := false;
     lastAnalysisTime := 0%Z;
     analysisInterval := 2000%Z;
     confidenceThreshold := 7 # 10;
     frameQueue := [];
     processingFrames := false;
     listeners := []; emitted := []; delivered := []; fetched := [];
     healthChecks := 0%nat; analyses := []; logged := [] |}.

Definition set_connected (b : bool) (s : State) : State :=
  {| url := url s; apiKey := apiKey s; connected := b;
     lastAnalysisTime := lastAnalysisTime s;
     analysisInterval := analysisInterval s;
     confidenceThreshold := confidenceThreshold s;
     frameQueue := frameQueue s; processingFrames := processingFrames s;
     listeners := listeners s; emitted := emitted s;
     delivered := delivered s; fetched := fetched s;
     healthChecks := healthChecks s; analyses := analyses s;
     logged := logged s |}.

Definition set_lastAnalysisTime (t : Z) (s : State) : State :=
  {| url := url s; apiKey := apiKey s; connected := connected s;
     lastAnalysisTime := t;
     analysisInterval := analysisInterval s;
     confidenceThreshold := confidenceThreshold s;
     frameQueue := frameQueue s; processingFrames := processingFrames s;
     listeners := listeners s; emitted := emitted s;
     delivered := delivered s; fetched := fetched s;
     healthChecks := healthChecks s; analyses := analyses s;
     logged := logged s |}.

Definition set_frameQueue (q : list VideoFrame) (s : State) : State :=
  {| url := url s; apiKey := apiKey s; connected := connected s;
     lastAnalysisTime := lastAnalysisTime s;
     analysisInterval := analysisInterval s;
     confidenceThreshold := confidenceThreshold s;
     frameQueue := q; processingFrames := processingFrames s;
     listeners := listeners s; emitted := emitted s;
     delivered := delivered s; fetched := fetched s;
     healthChecks := healthChecks s; analyses := analyses s;
     logged := logged s |}.

Definition set_processingFrames (b : bool) (s : State) : State :=
  {| url := url s; apiKey := apiKey s; connected := connected s;
     lastAnalysisTime := lastAnalysisTime s;
     analysisInterval := analysisInterval s;
     confidenceThreshold := confidenceThreshold s;
     frameQueue := frameQueue s; processingFrames := b;
     listeners := listeners s; emitted := emitted s;
     delivered := delivered s; fetched := fetched s;
     healthChecks := healthChecks s; analyses := analyses s;
     logged := logged s |}.

Definition set_listeners (l : list (EventName * nat)) (s : State) : State :=
  {| url := url s; apiKey := apiKey s; connected := connected s;
     lastAnalysisTime := lastAnalysisTime s;
     analysisInterval := analysisInterval s;
     confidenceThreshold := confidenceThreshold s;
     frameQueue := frameQueue s; processingFrames := processingFrames s;
     listeners := l; emitted := emitted s;
     delivered := delivered s; fetched := fetched s;
     healthChecks := healthChecks s; analyses := analyses s;
     logged := logged s |}.

Definition set_signals (e : list Signal) (d : list (nat * Signal)) (s : State) : State :=
  {| url := url s; apiKey := apiKey s; connected := connected s;
     lastAnalysisTime := lastAnalysisTime s;
     analysisInterval := analysisInterval s;
     confidenceThreshold := confidenceThreshold s;
     frameQueue := frameQueue s; processingFrames := processingFrames s;
     listeners := listeners s; emitted := e;
     delivered := d; fetched := fetched s;
     healthChecks := healthChecks s; analyses := analyses s;
     logged := logged s |}.

Definition set_fetched (f : list FetchCall) (s : State) : State :=
  {| url := url s; apiKey := apiKey s; connected := connected s;
     lastAnalysisTime := lastAnalysisTime s;
     analysisInterval := analysisInterval s;
     confidenceThreshold := confidenceThreshold s;
     frameQueue := frameQueue s; processingFrames := processingFrames s;
     listeners := listeners s; emitted := emitted s;
     delivered := delivered s; fetched := f;
     healthChecks := healthChecks s; analyses := analyses s;
     logged := logged s |}.

Definition set_healthChecks (n : nat) (s : State) : State :=
  {| url := url s; apiKey := apiKey s; connected := connected s;
     lastAnalysisTime := lastAnalysisTime s;
     analysisInterval := analysisInterval s;
     confidenceThreshold := confidenceThreshold s;
     frameQueue := frameQueue s; processingFrames := processingFrames s;
     listeners := listeners s; emitted := emitted s;
     delivered := delivered s; fetched := fetched s;
     healthChecks := n; analyses := analyses s;
     logged := logged s |}.

Definition set_analyses (a : list Awaiting) (s : State) : State :=
  {| url := url s; apiKey := apiKey s; connected := connected s;
     lastAnalysisTime := lastAnalysisTime s;
     analysisInterval := analysisInterval s;
     confidenceThreshold := confidenceThreshold s;
     frameQueue := frameQueue s; processingFrames := processingFrames s;
     listeners := listeners s; emitted := emitted s;
     delivered := delivered s; fetched := fetched s;
     healthChecks := healthChecks s; analyses := a;
     logged := logged s |}.

Definition set_logged (l : list (Level * list N)) (s : State) : State :=
  {| url := url s; apiKey := apiKey s; connected := connected s;
     lastAnalysisTime := lastAnalysisTime s;
     analysisInterval := analysisInterval s;
     confidenceThreshold := confidenceThreshold s;
     frameQueue := frameQueue s; processingFrames := processingFrames s;
     listeners := listeners s; emitted := emitted s;
     delivered := delivered s; fetched := fetched s;
     healthChecks := healthChecks s; analyses := analyses s;
     logged := l |}.


(** *** Logger and event emitter *)

Definition log (lv : Level) (msg : list N) (s : State) : State :=
  set_logged (logged s ++ [(lv, msg)]) s.

(** [this.on(name, listener)]; listeners are told apart by a number. *)
Definition on (name : EventName) (listener : nat) (s : State) : State :=
  set_listeners (listeners s ++ [(name, listener)]) s.

Definition removeAllListeners (s : State) : State := set_listeners [] s.

Definition subscribers (name : EventName) (s : State) : list nat :=
  map snd (filter (fun l => EventName_eqb (fst l) name = true) (listeners s)).

(** [this.emit(name, payload)]: every listener registered for the name is
    called once, in registration order. *)
Definition emit (sg : Signal) (s : State) : State :=
  set_signals (emitted s ++ [sg])
              (delivered s ++ map (fun l => (l, sg)) (subscribers (name_of sg) s))
              s.

(** *** Connection *)

Definition healthCheck : FetchCall :=
  {| method := lit "GET"; path := lit "/api/gemini";
     authorization := None; body := None |}.

(** [connect()] up to [await fetch('/api/gemini', {method: 'GET'})]. *)
Definition connect (s : State) : State :=
  set_healthChecks (S (healthChecks s)) (set_fetched (fetched s ++ [healthCheck]) s).

(** [connect()] from the settled [fetch] on.  The [catch] clause logs,
    emits ["error"] and throws again to the caller. *)
Definition connect_resume (r : FetchResult) (s : State) : State :=
  match healthChecks s with
  | O => s
  | S n =>
      let s := set_healthChecks n s in
      match r with
      | Responded true _ =>
          let s := set_connected true s in
          let s := emit SOpen s in
          log info (lit "Connected to Gemini API") s
      | Responded false _ =>
          let s := log err (lit "Connection error:") s in
          emit (SError (lit "Failed to connect to Gemini API")) s
      | Rejected m =>
          let s := log err (lit "Connection error:") s in
          emit (SError m) s
      end
  end.

Definition disconnect (s : State) : State :=
  emit SClose (set_connected false s).

Definition isConnected (s : State) : bool := connected s.

Definition sendConfig (cfg : Json) (s : State) : State :=
  emit (SConfig cfg) (log info (lit "Sending configuration:") s).

(** *** Violations *)

(** [part.text] is used when truthy: a string that is not empty. *)
Definition part_text (p : Part) : option (list N) :=
  match text p with
  | Some [] => None
  | t => t
  end.

(** [response.candidates?.[0]?.content?.parts], [[]] when the chain is
    undefined (the [if] fails and nothing is done). *)
Definition response_parts (r : GeminiResponse) : list Part :=
  match candidates r with
  | Some (c :: _) =>
      match content c with
      | Some ct => match parts ct with Some ps => ps | None => [] end
      | None => []
      end
  | _ => []
  end.

(** The inner loop of [processViolations] over the events of one part. *)
Fixpoint emit_violations (vs : list ViolationEvent) (s : State) : State :=
  match vs with
  | [] => s
  | v :: vs' =>
      if Qle_bool (confidenceThreshold s) (confidence v)
      then emit_violations vs' (emit (SViolation v) s)
      else emit_violations vs' s
  end.

Fixpoint process_parts (now : Z) (ps : list Part) (s : State) : State :=
  match ps with
  | [] => s
  | p :: ps' =>
      match part_text p with
      | Some t => process_parts now ps' (emit_violations (extractViolations now t) s)
      | None => process_parts now ps' s
      end
  end.

Definition processViolations (now : Z) (r : GeminiResponse) (s : State) : State :=
  process_parts now (response_parts r) s.

(** *** Frame queue *)

(** [shouldAnalyzeFrame()] *)
Definition shouldAnalyzeFrame (now : Z) (s : State) : bool * State :=
  if (analysisInterval s <=? now - lastAnalysisTime s)%Z
  then (true, set_lastAnalysisTime now s)
  else (false, s).

Definition analysisRequest (frame : VideoFrame) : GeminiRequest :=
  {| mime_type := lit "image/jpeg";
     data := imageData frame;
     temperature := 1 # 10;
     topP := 1; topK := 32; maxOutputTokens := 256;
     safetyCategory := lit "HARM_CATEGORY_DANGEROUS_CONTENT";
     safetyThreshold := lit "BLOCK_LOW_AND_ABOVE" |}.

(** [analyzeFrame(frame)] up to [await fetch('/api/gemini', {method: 'POST', ...})]:
    the request is out and the function is suspended. *)
Definition analyzeFrame (frame : VideoFrame) (s : State) : State :=
  let call := {| method := lit "POST"; path := lit "/api/gemini";
                 authorization := Some (lit "Bearer " ++ apiKey s);
                 body := Some (analysisRequest frame) |} in
  set_analyses (analyses s ++ [AwaitFetch frame]) (set_fetched (fetched s ++ [call]) s).

(** The [catch] clause of [analyzeFrame]. *)
Definition analyzeFrame_catch (msg : list N) (s : State) : State :=
  emit (SError msg) (log err (lit "Frame analysis error:") s).

Definition is_empty {A} (l : list A) : bool :=
  match l with [] => true | _ => false end.

(** The [finally] clause of [processFrameQueue]; [again] is the call of
    [processFrameQueue] in it. *)
Definition finally (again : State -> State) (s : State) : State :=
  let s := set_processingFrames false s in
  if is_empty (frameQueue s) then s else again s.

(** [processFrameQueue()], run until it returns or is suspended in
    [analyzeFrame].  [depth] bounds the calls nested through [finally];
    one level is all that is ever entered ([processFrameQueue_depth]). *)
Fixpoint processFrameQueue (depth : nat) (now : Z) (s : State) : State :=
  match depth with
  | O => s
  | S d =>
      if processingFrames s || is_empty (frameQueue s) then s
      else
        let s := set_processingFrames true s in
        let frame := last (frameQueue s) in        (* [this.frameQueue.pop()] *)
        let s := set_frameQueue [] s in
        match frame with
        | Some f =>
            let '(go, s) := shouldAnalyzeFrame now s in
            if go then analyzeFrame f s
            else finally (processFrameQueue d now) s
        | None => finally (processFrameQueue d now) s
        end
  end.

Definition sendVideoFrame (frameData : list N) (now : Z) (s : State) : State :=
  let frame := {| imageData := after_comma frameData;
                  frameTimestamp := now;
                  width := 640; height := 480; quality := 8 # 10 |} in
  let s := set_frameQueue (frameQueue s ++ [frame]) s in
  if negb (processingFrames s) then processFrameQueue 2 now s else s.

(** [analyzeFrame] from the settled [fetch] on, and then the rest of the
    [processFrameQueue] that awaited it. *)
Definition fetch_resume (r : FetchResult) (now : Z) (s : State) : State :=
  match analyses s with
  | AwaitFetch f :: rest =>
      match r with
      | Rejected m =>
          finally (processFrameQueue 2 now)
                  (analyzeFrame_catch m (set_analyses rest s))
      | Responded false statusText =>
          finally (processFrameQueue 2 now)
                  (analyzeFrame_catch (lit "API request failed: " ++ statusText)
                                      (set_analyses rest s))
      | Responded true _ => set_analyses (AwaitJson f :: rest) s
      end
  | _ => s
  end.

(** [analyzeFrame] from the settled [response.json()] on. *)
Definition json_resume (r : JsonResult) (now : Z) (s : State) : State :=
  match analyses s with
  | AwaitJson f :: rest =>
      match r with
      | JsonThrows m =>
          finally (processFrameQueue 2 now)
                  (analyzeFrame_catch m (set_analyses rest s))
      | JsonValue v =>
          finally (processFrameQueue 2 now)
                  (processViolations now v (set_analyses rest s))
      end
  | _ => s
  end.

(** *** The client as a transition system *)

Inductive Event :=
| EOn (name : EventName) (listener : nat)
| ERemoveAllListeners
| EConnect
| EHealthSettled (r : FetchResult)
| EDisconnect
| ESendConfig (cfg : Json)
| ESendVideoFrame (frameData : list N) (now : Z)
| EFetchSettled (r : FetchResult) (now : Z)
| EJsonSettled (r : JsonResult) (now : Z).

Definition step (s : State) (e : Event) : State :=
  match e with
  | EOn name l => on name l s
  | ERemoveAllListeners => removeAllListeners s
  | EConnect => connect s
  | EHealthSettled r => connect_resume r s
  | EDisconnect => disconnect s
  | ESendConfig cfg => sendConfig cfg s
  | ESendVideoFrame fd now => sendVideoFrame fd now s
  | EFetchSettled r now => fetch_resume r now s
  | EJsonSettled r now => json_resume r now s
  end.

Definition run (evs : list Event) (s : State) : State := fold_left step evs s.

Definition is_submission (e : Event) : Prop :=
  match e with ESendVideoFrame _ _ => True | _ => False end.

Definition is_settlement (e : Event) : Prop :=
  match e with EFetchSettled _ _ | EJsonSettled _ _ => True | _ => False end.

(** The remote-model calls made so far. *)
Definition analysisCalls (s : State) : list FetchCall :=
  filter (fun c => is_Some (body c)) (fetched s).

(** *** Vocabulary of the statements *)

(** No [processFrameQueue] is under way. *)
Definition idle (s : State) : Prop :=
  processingFrames s = false /\ analyses s = [] /\ frameQueue s = [].

(** One [processFrameQueue] is suspended in its [analyzeFrame]. *)
Definition busy (s : State) : Prop :=
  processingFrames s = true /\ exists a, analyses s = [a].

Definition settled (s : State) : Prop := idle s \/ busy s.

(** The frame that [sendVideoFrame] builds. *)
Definition frame_of (frameData : list N) (now : Z) : VideoFrame :=
  {| imageData := after_comma frameData;
     frameTimestamp := now;
     width := 640; height := 480; quality := 8 # 10 |}.

(** The gate of [shouldAnalyzeFrame] at time [now]. *)
Definition due (now : Z) (s : State) : bool :=
  (analysisInterval s <=? now - lastAnalysisTime s)%Z.

(** The texts that [processViolations] hands to the parser. *)
Definition response_texts (r : GeminiResponse) : list (list N) :=
  omap part_text (response_parts r).

(** The events parsed from a reply, in the order they are produced. *)
Definition produced (now : Z) (r : GeminiResponse) : list ViolationEvent :=
  concat (map (extractViolations now) (response_texts r)).

Definition passes (s : State) (v : ViolationEvent) : bool :=
  Qle_bool (confidenceThreshold s) (confidence v).

(** The listener calls caused by emitting each of [sgs] in turn. *)
Definition deliveries (subs : list nat) (sgs : list Signal) : list (nat * Signal) :=
  concat (map (fun sg => map (fun l => (l, sg)) subs) sgs).

(** The frames of the submissions among [evs], oldest first. *)
Definition frames_of (evs : list Event) : list VideoFrame :=
  flat_map (fun e => match e with
                     | ESendVideoFrame fd now => [frame_of fd now]
                     | _ => []
                     end) evs.

(** [e] ends the analysis in flight in [s]: its [fetch] fails or answers
    with an error status, or the body of the answer has been read. *)
Definition completes (s : State) (e : Event) : Prop :=
  match e, analyses s with
  | EFetchSettled (Rejected _) _, AwaitFetch _ :: _ => True
  | EFetchSettled (Responded false _) _, AwaitFetch _ :: _ => True
  | EJsonSettled _ _, AwaitJson _ :: _ => True
  | _, _ => False
  end.

(** The clock reading an event carries. *)
Definition time_of (e : Event) : Z :=
  match e with
  | ESendVideoFrame _ now | EFetchSettled _ now | EJsonSettled _ now => now
  | _ => 0%Z
  end.

(** A client whose states are those reached from the constructor. *)
Definition reachable (s : State) : Prop :=
  exists url apiKey evs, s = run evs (new url apiKey).

(** *** Vocabulary of further statements *)

(** The connection as the signals tell it: the last of ["open"] and
    ["close"], closed when there was neither. *)
Definition link_after (up : bool) (sg : Signal) : bool :=
  match sg with
  | SOpen => true
  | SClose => false
  | _ => up
  end.

Definition link (sgs : list Signal) : bool := fold_left link_after sgs false.

(** The POST that [analyzeFrame] makes for [frame] with the key [key]. *)
Definition analysisCall (key : list N) (frame : VideoFrame) : FetchCall :=
  {| method := lit "POST"; path := lit "/api/gemini";
     authorization := Some (lit "Bearer " ++ key);
     body := Some (analysisRequest frame) |}.

(** The error that an event makes [analyzeFrame] catch, if any. *)
Definition failure_of (e : Event) : option (list N) :=
  match e with
  | EFetchSettled (Rejected m) _ => Some m
  | EFetchSettled (Responded false statusText) _ =>
      Some (lit "API request failed: " ++ statusText)
  | EJsonSettled (JsonThrows m) _ => Some m
  | _ => None
  end.

Definition no_comma (s : list N) : bool := forallb (fun c => negb (c =? 0x2C)) s.

(** The frames submitted by [evs], as a property of a frame. *)
Definition submitted (evs : list Event) (f : VideoFrame) : Prop :=
  exists fd now, In (ESendVideoFrame fd now) evs /\ f = frame_of fd now.

(** The frame an analysis in flight is about, the frames the client holds
    (queued or under analysis), and the frame an event brings. *)
Definition awaited (a : Awaiting) : VideoFrame :=
  match a with AwaitFetch f | AwaitJson f => f end.

Definition held (s : State) : list VideoFrame :=
  frameQueue s ++ map awaited (analyses s).

Definition offered (e : Event) : list VideoFrame :=
  match e with
  | ESendVideoFrame fd now => [frame_of fd now]
  | _ => []
  end.

(** The listener calls that emitting [out] in turn causes in [s]. *)
Definition calls_of (s : State) (out : list Signal) : list (nat * Signal) :=
  concat (map (fun sg => map (fun l => (l, sg)) (subscribers (name_of sg) s)) out).

(** Events that leave the listeners of the provider alone: no
    [removeAllListeners], and new listeners numbered above [top]. *)
Definition keeps_listeners (top : nat) (e : Event) : Prop :=
  match e with
  | ERemoveAllListeners => False
  | EOn _ l => (top < l)%nat
  | _ => True
  end.

(** The signals a listener was called with, and the signals of a name. *)
Definition calls_to (l : nat) (calls : list (nat * Signal)) : list Signal :=
  map snd (List.filter (fun c => (fst c =? l)%nat) calls).

Definition named (n : EventName) (sgs : list Signal) : list Signal :=
  List.filter (fun sg => EventName_eqb (name_of sg) n) sgs.

(** The registrations of the listener [l]. *)
Definition registrations (l : nat) (ls : list (EventName * nat)) : list (EventName * nat) :=
  List.filter (fun p => (snd p =? l)%nat) ls.

(** Events that neither remove the listeners nor register [l] again. *)
Definition spares (l : nat) (e : Event) : Prop :=
  match e with
  | ERemoveAllListeners => False
  | EOn _ l' => l' <> l
  | _ => True
  end.

End Client.

(* ===================================================================== *)
(** ** [LiveAPIProvider] handlers and [VideoProctor.captureFrame]          *)
(* ===================================================================== *)

Module Provider.
Import Js.

(** The [client] state of the component ([null] until the effect that
    builds it has run) and the lines the handlers write to the logger. *)
Record State := {
  client : option Client.State;
  logged : list (Client.Level * list N)
}.

(** The [disconnect] handler. *)
Definition disconnect (p : State) : State :=
  match client p with
  | Some c =>
      if Client.isConnected c
      then {| client := Some (Client.disconnect c); logged := logged p |}
      else p
  | None => p
  end.

(** The [sendConfig] handler. *)
Definition sendConfig (cfg : Client.Json) (p : State) : State :=
  let refuse :=
    {| client := client p;
       logged := logged p ++ [(Client.warn, lit "Cannot send config: client not connected")] |} in
  match client p with
  | Some c =>
      if Client.isConnected c
      then {| client := Some (Client.sendConfig cfg c); logged := logged p |}
      else refuse
  | None => refuse
  end.

(** The session is Connected when the provider holds a client that is. *)
Definition session_connected (p : State) : bool :=
  match client p with
  | Some c => Client.isConnected c
  | None => false
  end.

(** *** The effect that builds the client *)

(** The listeners the effect registers, as numbers. *)
Definition openHandler : nat := 0.
Definition closeHandler : nat := 1.
Definition errorHandler : nat := 2.

(** The body of the effect.  Without a key ([undefined] or the empty
    string) it sets the error and builds nothing; otherwise it builds the
    client and registers its listeners, the one for ["violation"] only when
    [onViolation] is given. *)
Definition mount (apiUrl : list N) (apiKey : option (list N))
           (onViolation : option nat) : option Client.State :=
  match apiKey with
  | None | Some [] => None
  | Some key =>
      let c := Client.new apiUrl key in
      let c := Client.on Client.open openHandler c in
      let c := Client.on Client.close closeHandler c in
      let c := Client.on Client.error errorHandler c in
      Some match onViolation with
           | Some l => Client.on Client.violation l c
           | None => c
           end
  end.

(** The cleanup the effect returns. *)
Definition cleanup (c : Client.State) : Client.State :=
  let c := Client.removeAllListeners c in
  if Client.isConnected c then Client.disconnect c else c.

(** What one listener call does to the [connected] state of the component:
    the ["open"] listener calls [setConnected(true)], the ["close"]
    listener [setConnected(false)]. *)
Definition setConnected (up : bool) (call : nat * Client.Signal) : bool :=
  if (fst call =? openHandler)%nat then true
  else if (fst call =? closeHandler)%nat then false
  else up.

(** The [connected] state after the listener calls [calls], [false] at
    first. *)
Definition connectedState (calls : list (nat * Client.Signal)) : bool :=
  fold_left setConnected calls false.

(** The listeners of the provider are there, each under its own event. *)
Definition wired (ls : list (Client.EventName * nat)) : Prop :=
  In (Client.open, openHandler) ls /\ In (Client.close, closeHandler) ls
  /\ (forall name, In (name, openHandler) ls -> name = Client.open)
  /\ (forall name, In (name, closeHandler) ls -> name = Client.close).

End Provider.

Module VideoProctor.

(** [captureFrame()].  [video] tells whether [videoRef.current] is set,
    [connected] is the flag read from the context, and [captured] is what
    [captureVideoFrame] returned ([None] for [null]); an empty string is
    falsy and not sent either. *)
Definition captureFrame (video : bool) (client : option Client.State)
           (connected : bool) (captured : option (list N)) (now : Z)
  : option Client.State :=
  match client with
  | Some c =>
      if negb video || negb connected then client
      else match captured with
           | Some (u :: fd) => Some (Client.sendVideoFrame (u :: fd) now c)
           | _ => client
           end
  | None => client
  end.

End VideoProctor.

(* ===================================================================== *)
(** ** [middleware.ts]: the rate limiter                                   *)
(* ===================================================================== *)

Module RateLimit.
Import Js.
Local Open Scope Z_scope.

Definition windowMs : Z := 60 * 1000.
Definition max : Z := 100.

Record Entry := { count : Z; resetTime : Z }.

Record Request := {
  pathname : list N;          (* [request.nextUrl.pathname] *)
  ip : option (list N)        (* [request.ip] *)
}.

(** The JSON body of the rejection. *)
Record Body := { error : list N; retryAfter : Z }.

Record Response := {
  status : Z;
  headers : gmap (list N) (list N);
  body : option Body
}.

(** [n.toString()] for an integer. *)
Definition toString (n : Z) : list N := lit (pretty n).

(** [Math.ceil(a / 1000)] for an integer [a]. *)
Definition ceil_div_1000 (a : Z) : Z := - ((- a) / 1000).

Definition set_header (name value : list N) (r : Response) : Response :=
  {| status := status r; headers := <[name := value]> (headers r); body := body r |}.

(** [NextResponse.next()] with the security headers set on it. *)
Definition secured : Response :=
  let r := {| status := 200; headers := ∅; body := None |} in
  let r := set_header (lit "X-DNS-Prefetch-Control") (lit "on") r in
  let r := set_header (lit "Strict-Transport-Security")
                      (lit "max-age=31536000; includeSubDomains") r in
  let r := set_header (lit "X-Frame-Options") (lit "SAMEORIGIN") r in
  let r := set_header (lit "X-Content-Type-Options") (lit "nosniff") r in
  let r := set_header (lit "Referrer-Policy") (lit "origin-when-cross-origin") r in
  let r := set_header (lit "Permissions-Policy")
                      (lit "camera=(self), microphone=(self), geolocation=()") r in
  set_header (lit "Content-Security-Policy")
    (lit "default-src 'self'; script-src 'self' 'unsafe-inline' 'unsafe-eval'; style-src 'self' 'unsafe-inline'; img-src 'self' blob: data:; media-src 'self' blob:; connect-src 'self' wss://generativelanguage.googleapis.com https://generativelanguage.googleapis.com; frame-ancestors 'none'; form-action 'self'; base-uri 'self'")
    r.

Definition tooMany (data : Entry) (now : Z) : Response :=
  {| status := 429;
     headers :=
       <[lit "Retry-After" := toString (ceil_div_1000 (resetTime data - now))]>
         (<[lit "Content-Type" := lit "application/json"]> ∅);
     body := Some {| error := lit "Too many requests";
                     retryAfter := ceil_div_1000 (resetTime data - now) |} |}.

(** [request.ip ?? '127.0.0.1'] *)
Definition address (req : Request) : list N :=
  match ip req with Some a => a | None => lit "127.0.0.1" end.

(** The bookkeeping of one request under ['/api/']: either the rejection,
    or the table after the request has been counted. *)
Definition account (a : list N) (now : Z) (m : gmap (list N) Entry)
  : Response + gmap (list N) Entry :=
  match m !! a with
  | None => inr (<[a := {| count := 1; resetTime := now + windowMs |}]> m)
  | Some data =>
      if resetTime data <? now
      then inr (<[a := {| count := 1; resetTime := now + windowMs |}]> m)
      else if max <=? count data
      then inl (tooMany data now)
      else inr (<[a := {| count := count data + 1; resetTime := resetTime data |}]> m)
  end.

Definition serverTiming (r : Response) (dur : Z) : Response :=
  set_header (lit "Server-Timing") (lit "total;dur=" ++ toString dur) r.

(** [middleware(request)] on the table [ipRequestMap]; [now] is the clock
    and [dur] the difference of the two readings of the server timing. *)
Definition middleware (req : Request) (now dur : Z) (m : gmap (list N) Entry)
  : Response * gmap (list N) Entry :=
  if startsWith (pathname req) (lit "/api/") then
    let a := address req in
    match account a now m with
    | inl rejection => (rejection, m)
    | inr m' =>
        match m' !! a with
        | Some rateLimitData =>
            let r := set_header (lit "X-RateLimit-Limit") (toString max) secured in
            let r := set_header (lit "X-RateLimit-Remaining")
                                (toString (max - count rateLimitData)) r in
            let r := set_header (lit "X-RateLimit-Reset")
                                (toString (ceil_div_1000 (resetTime rateLimitData))) r in
            (serverTiming r dur, m')
        | None => (serverTiming secured dur, m')    (* not reached: [a] was just set *)
        end
    end
  else (serverTiming secured dur, m).

(** The body of the [setInterval] callback: expired entries are deleted. *)
Definition sweep (now : Z) (m : gmap (list N) Entry) : gmap (list N) Entry :=
  filter (fun kv => ¬ (resetTime kv.2 < now)) m.

(** What happens to the table over the life of the process. *)
Inductive Event :=
| Arrives (req : Request) (now dur : Z)
| Sweeps (now : Z).

Definition step (m : gmap (list N) Entry) (e : Event) : gmap (list N) Entry :=
  match e with
  | Arrives req now dur => snd (middleware req now dur m)
  | Sweeps now => sweep now m
  end.

Definition run (evs : list Event) : gmap (list N) Entry := fold_left step evs ∅.

(** Requests served one after the other, with their responses. *)
Fixpoint serve (rs : list (Request * Z)) (m : gmap (list N) Entry)
  : list Response * gmap (list N) Entry :=
  match rs with
  | [] => ([], m)
  | (req, now) :: rs' =>
      let '(r, m1) := middleware req now 0 m in
      let '(out, m2) := serve rs' m1 in
      (r :: out, m2)
  end.

Definition has_header (name : list N) (r : Response) : Prop :=
  is_Some (headers r !! name).

(** *** Vocabulary of the statements *)

Definition under_api (req : Request) : bool := startsWith (pathname req) (lit "/api/").

(** The request went through to the route ([NextResponse.next()]). *)
Definition allowed (r : Response) : Prop := status r = 200.

(** The request was refused with the rejection built for [data]. *)
Definition rejected (r : Response) : Prop := status r = 429.

Definition fresh (now : Z) : Entry := {| count := 1; resetTime := now + windowMs |}.

(** Every entry of the table is within its quota. *)
Definition within_quota (m : gmap (list N) Entry) : Prop :=
  forall a e, m !! a = Some e -> 1 <= count e <= max.

(** The requests [rs] all come under ['/api/'] from the address [a] and
    arrive between [lo] and [hi]. *)
Definition from_address (a : list N) (lo hi : Z) (rs : list (Request * Z)) : Prop :=
  Forall (fun rt => under_api rt.1 = true /\ address rt.1 = a /\ lo <= rt.2 <= hi) rs.

(** *** Vocabulary of further statements *)

(** The response handed on for a request counted in the entry [e]. *)
Definition pass_through (e : Entry) (dur : Z) : Response :=
  serverTiming
    (set_header (lit "X-RateLimit-Reset") (toString (ceil_div_1000 (resetTime e)))
       (set_header (lit "X-RateLimit-Remaining") (toString (max - count e))
          (set_header (lit "X-RateLimit-Limit") (toString max) secured)))
    dur.

Definition securityHeaders : list (list N) :=
  [ lit "X-DNS-Prefetch-Control"; lit "Strict-Transport-Security";
    lit "X-Frame-Options"; lit "X-Content-Type-Options"; lit "Referrer-Policy";
    lit "Permissions-Policy"; lit "Content-Security-Policy" ].

Definition rateLimitHeaders : list (list N) :=
  [ lit "X-RateLimit-Limit"; lit "X-RateLimit-Remaining"; lit "X-RateLimit-Reset" ].

(** The clock reading of an event. *)
Definition event_time (e : Event) : Z :=
  match e with
  | Arrives _ now _ => now
  | Sweeps now => now
  end.

(** The readings of [evs] never go back, starting from [t]. *)
Fixpoint clock_from (t : Z) (evs : list Event) : Prop :=
  match evs with
  | [] => True
  | e :: evs' => t <= event_time e /\ clock_from (event_time e) evs'
  end.

(** The last reading of [evs], [t] when there is none. *)
Fixpoint last_time (t : Z) (evs : list Event) : Z :=
  match evs with
  | [] => t
  | e :: evs' => last_time (event_time e) evs'
  end.

(** No window of the table ends later than a full window after [t]. *)
Definition windows_before (t : Z) (m : gmap (list N) Entry) : Prop :=
  forall a e, m !! a = Some e -> resetTime e <= t + windowMs.

End RateLimit.

(* ===================================================================== *)
(** ** Texts made of marker lines                                         *)
(* ===================================================================== *)

Module Lines.
Import Js Parser.

Definition no_LF (s : list N) : bool := forallb (fun c => negb (c =? LF)) s.
Definition blank (s : list N) : bool := forallb is_space s.
Definition inline_blank (s : list N) : bool := blank s && no_LF s.

(** Does the marker occur anywhere in [s]? *)
Fixpoint contains_marker (s : list N) : bool :=
  startsWith s marker
  || match s with [] => false | _ :: s' => contains_marker s' end.

(** A line of a reply: a marker line [PROCTORING_VIOLATION: <category>],
    possibly indented, or a line without the marker. *)
Inductive line :=
| Marked (indent sep category : list N)
| Plain (s : list N).

Definition render (l : line) : list N :=
  match l with
  | Marked indent sep category => indent ++ marker ++ sep ++ category
  | Plain s => s
  end.

(** A marker line is well formed when what surrounds the marker is blank
    and the category is on the line and not blank itself. *)
Definition well_formed (l : line) : bool :=
  match l with
  | Marked indent sep category =>
      inline_blank indent && inline_blank sep
      && no_LF category && negb (blank category)
  | Plain s => no_LF s && negb (contains_marker s)
  end.

Fixpoint categories (ls : list line) : list (list N) :=
  match ls with
  | [] => []
  | Marked _ _ category :: ls' => category :: categories ls'
  | Plain _ :: ls' => categories ls'
  end.

Definition text_of (ls : list line) : list N := join_lines (map render ls).

(** What can follow a line: the end of the text, or LF and more text. *)
Definition line_end (t : list N) : Prop := t = [] \/ exists t', t = LF :: t'.

(** What follows the first line of [l :: ls] in its text. *)
Definition after_line (ls : list line) : list N :=
  match ls with
  | [] => []
  | _ :: _ => LF :: text_of ls
  end.

(** *** Vocabulary of further statements *)

(** The number of places of [s] at which the marker starts. *)
Fixpoint occurrences (s : list N) : nat :=
  (if startsWith s marker then 1 else 0)
  + match s with [] => 0 | _ :: s' => occurrences s' end.

(** [s] consists of line feeds only. *)
Definition only_LF (s : list N) : bool := forallb (fun c => c =? LF) s.

End Lines.

(* ===================================================================== *)
(** ** [InterviewFeedback]: grouping and naming of violations             *)
(* ===================================================================== *)

Module Feedback.
Import Js Parser.

(** [s.includes(needle)] *)
Fixpoint includes (s needle : list N) : bool :=
  startsWith s needle
  || match s with [] => false | _ :: s' => includes s' needle end.

(** The names that an object literal inherits from [Object.prototype].
    Read from [{}], each gives a function, [__proto__] the prototype
    itself: a value that is truthy and has no [push]. *)
Definition inherited : list (list N) :=
  [ lit "constructor"; lit "__defineGetter__"; lit "__defineSetter__";
    lit "hasOwnProperty"; lit "__lookupGetter__"; lit "__lookupSetter__";
    lit "isPrototypeOf"; lit "propertyIsEnumerable"; lit "toString";
    lit "valueOf"; lit "__proto__"; lit "toLocaleString" ].

(** One turn of [violations.forEach]: [grouped[type]] is made an empty
    array when it is falsy, and the violation is pushed to it.  [None] is
    the TypeError of [push] on an inherited value. *)
Definition add_violation (grouped : gmap (list N) (list ViolationEvent))
           (v : ViolationEvent) : option (gmap (list N) (list ViolationEvent)) :=
  match grouped !! type v with
  | Some group => Some (<[type v := group ++ [v]]> grouped)
  | None =>
      if bool_decide (type v ∈ inherited) then None
      else Some (<[type v := [v]]> grouped)
  end.

Fixpoint group_from (grouped : gmap (list N) (list ViolationEvent))
         (vs : list ViolationEvent) : option (gmap (list N) (list ViolationEvent)) :=
  match vs with
  | [] => Some grouped
  | v :: vs' =>
      match add_violation grouped v with
      | Some grouped' => group_from grouped' vs'
      | None => None
      end
  end.

(** The body of the effect that groups the violations by type. *)
Definition groupViolations (vs : list ViolationEvent)
  : option (gmap (list N) (list ViolationEvent)) :=
  group_from ∅ vs.

Definition getViolationName (type : list N) : list N :=
  if includes type (lit "Looking Away") then lit "Looking Away"
  else if includes type (lit "Multiple Faces") then lit "Multiple Persons Detected"
  else if includes type (lit "Low Engagement") then lit "Low Engagement"
  else if includes type (lit "Suspicious Movement") then lit "Suspicious Activity"
  else if includes type (lit "Unauthorized Device") then lit "Unauthorized Device"
  else type.

(** *** Vocabulary of the statements *)

(** The violations of type [t] among [vs], in their order. *)
Definition of_type (t : list N) (vs : list ViolationEvent) : list ViolationEvent :=
  List.filter (fun v => bool_decide (type v = t)) vs.

(** The entry of an object for a group: absent when the group is empty. *)
Definition entry (group : list ViolationEvent) : option (list ViolationEvent) :=
  match group with [] => None | _ => Some group end.

Definition displayNames : list (list N) :=
  [ lit "Looking Away"; lit "Multiple Persons Detected"; lit "Low Engagement";
    lit "Suspicious Activity"; lit "Unauthorized Device" ].

End Feedback.

(* ===================================================================== *)
(** ** [app/api/gemini/route.ts]: the route behind [/api/gemini]           *)
(* ===================================================================== *)

Module Route.
Import Js.

(** What a [throw] or a rejected promise carries: an [Error] with its
    message, or some other value. *)
Inductive Thrown := AnError (message : list N) | NotAnError.

Inductive Details :=
| DStatus (status : Z) (statusText : list N)   (* [{status, statusText}] *)
| DMessage (message : list N)                  (* [error.message] *)
| DError (message : list N)                    (* the [Error] itself *)
| DOther                                       (* the value thrown *)
| DNone.

Record GeminiError := {
  error : list N;
  message : Client.Json;
  details : Details
}.

Inductive Reply :=
| Cors
| Failure (status : Z) (e : GeminiError)
| Data (data : Client.Json) (executionTime : Z)
| Healthy.

Definition status_of (r : Reply) : Z :=
  match r with
  | Failure status _ => status
  | Cors | Data _ _ | Healthy => 200
  end.

(** [response.ok] *)
Definition ok (status : Z) : bool := (200 <=? status)%Z && (status <=? 299)%Z.

(** The request that [POST] sends on to the model. *)
Record Forwarded := {
  contents : option Client.Json;      (* [rawBody.contents] *)
  temperature : Q;
  topP : Z;
  topK : Z;
  maxOutputTokens : Z;
  safetyCategory : list N;
  safetyThreshold : list N;
  authorization : list N
}.

(** How the [fetch] to the model settles.  An answer has its status and
    status text; [text] is what [response.text()] gives, [parsed] the
    fields [error] and [message] of [JSON.parse] of that text ([None] when
    parsing or reading the fields throws), and [data] what
    [response.json()] gives. *)
Inductive Upstream :=
| UpRejected (t : Thrown)
| UpAnswered (status : Z) (statusText : list N)
             (text : Thrown + list N)
             (parsed : option (option Client.Json * option Client.Json))
             (data : Thrown + Client.Json).

(** The health request of [GET]: rejected, or answered with a status. *)
Inductive HealthUpstream :=
| HealthRejected (t : Thrown)
| HealthAnswered (status : Z).

(** Truthiness of a JSON value. *)
Definition truthy (j : Client.Json) : bool :=
  match j with
  | Client.JNull => false
  | Client.JBool b => b
  | Client.JNum q => negb (Qeq_bool q 0)
  | Client.JStr s => match s with [] => false | _ => true end
  | Client.JArr _ | Client.JObj _ => true
  end.

(** [validateApiKey()]: the key, or the message of the error thrown. *)
Definition validateApiKey (env : option (list N)) : list N + list N :=
  match env with
  | Some k =>
      match trim k with
      | [] => inr (lit "GEMINI_API_KEY is not configured")
      | key => inl key
      end
  | None => inr (lit "GEMINI_API_KEY is not configured")
  end.

(** The statuses the [Response] constructor accepts with a body. *)
Definition acceptable (status : Z) : bool :=
  (200 <=? status)%Z && (status <=? 599)%Z
  && negb ((status =? 204)%Z || (status =? 205)%Z || (status =? 304)%Z).

(** [errorResponse(error, status)]: the reply, or the error of the
    constructor, whose message is [refusal]; the error is logged first. *)
Definition errorResponse (refusal : list N) (e : GeminiError) (status : Z)
  : (Reply + Thrown) * list GeminiError :=
  (if acceptable status then inl (Failure status e) else inr (AnError refusal), [e]).

(** The [catch] clause of [POST]. *)
Definition caught (t : Thrown) : Reply * list GeminiError :=
  let e :=
    match t with
    | AnError m =>
        if Feedback.includes m (lit "API key")
        then {| error := lit "Configuration Error";
                message := Client.JStr (lit "API key is not properly configured");
                details := DMessage m |}
        else {| error := lit "API Error";
                message := Client.JStr m;
                details := DError m |}
    | NotAnError =>
        {| error := lit "Unknown Error";
           message := Client.JStr (lit "An unexpected error occurred");
           details := DOther |}
    end in
  (Failure 500 e, [e]).

(** [errorJson.error || errorJson.message || errorText] *)
Definition errorMessage (errorText : list N)
           (parsed : option (option Client.Json * option Client.Json)) : Client.Json :=
  let or_else (field : option Client.Json) (rest : Client.Json) :=
    match field with
    | Some j => if truthy j then j else rest
    | None => rest
    end in
  match parsed with
  | Some (e, m) => or_else e (or_else m (Client.JStr errorText))
  | None => Client.JStr errorText
  end.

Record Outcome := {
  reply : Reply;
  forwarded : option Forwarded;       (* the [fetch] to the model, if made *)
  logged : list GeminiError           (* [logger.error] of [errorResponse] *)
}.

(** [POST(request)].  [body] is [await request.json()] followed by the
    reading of [rawBody.contents]; [elapsed] is the difference of the two
    clock readings. *)
Definition POST (method : list N) (env : option (list N))
           (body : Thrown + option Client.Json) (up : Upstream)
           (elapsed : Z) (refusal : list N) : Outcome :=
  let catch fw before t :=
    {| reply := fst (caught t); forwarded := fw;
       logged := before ++ snd (caught t) |} in
  if bool_decide (method = lit "OPTIONS")
  then {| reply := Cors; forwarded := None; logged := [] |}
  else
    match validateApiKey env with
    | inr m => catch None [] (AnError m)
    | inl apiKey =>
        match body with
        | inl t => catch None [] t
        | inr c =>
            let fw := Some {| contents := c;
                              temperature := 1 # 10;
                              topP := 1; topK := 32; maxOutputTokens := 256;
                              safetyCategory := lit "HARM_CATEGORY_DANGEROUS_CONTENT";
                              safetyThreshold := lit "BLOCK_LOW_AND_ABOVE";
                              authorization := lit "Bearer " ++ apiKey |} in
            match up with
            | UpRejected t => catch fw [] t
            | UpAnswered status statusText text parsed data =>
                if ok status then
                  match data with
                  | inl t => catch fw [] t
                  | inr d => {| reply := Data d elapsed; forwarded := fw; logged := [] |}
                  end
                else
                  match text with
                  | inl t => catch fw [] t
                  | inr errorText =>
                      let e := {| error := lit "Gemini API error";
                                  message := errorMessage errorText parsed;
                                  details := DStatus status statusText |} in
                      match errorResponse refusal e status with
                      | (inl r, l) => {| reply := r; forwarded := fw; logged := l |}
                      | (inr t, l) => catch fw l t
                      end
                  end
            end
        end
    end.

Record HealthOutcome := {
  health : Reply;
  asked : option (list N);            (* the [Authorization] sent, if any *)
  complaints : list GeminiError       (* [logger.error] of [errorResponse] *)
}.

(** [GET()], the health check. *)
Definition GET (env : option (list N)) (up : HealthUpstream) : HealthOutcome :=
  let fail asked m :=
    let e := {| error := lit "Health Check Failed";
                message := Client.JStr m;
                details := DNone |} in
    {| health := Failure 503 e; asked := asked; complaints := [e] |} in
  match validateApiKey env with
  | inr m => fail None m
  | inl apiKey =>
      let sent := Some (lit "Bearer " ++ apiKey) in
      match up with
      | HealthRejected (AnError m) => fail sent m
      | HealthRejected NotAnError => fail sent (lit "Unknown error")
      | HealthAnswered status =>
          if ok status
          then {| health := Healthy; asked := sent; complaints := [] |}
          else fail sent (lit "Gemini API health check failed")
      end
  end.

(** *** Vocabulary of the statements *)

(** The key is there: set, and not blank. *)
Definition configured (env : option (list N)) : bool :=
  match env with Some k => negb (Lines.blank k) | None => false end.

(** The health check of [connect] as it travels: through [middleware]
    first, whose rejection is the answer when it rejects, and on to [GET]
    when it returns [NextResponse.next()].  The result is [response.ok] as
    the client sees it, with the table after the request. *)
Definition health_round_trip (req : RateLimit.Request) (now dur : Z)
           (table : gmap (list N) RateLimit.Entry)
           (env : option (list N)) (up : HealthUpstream)
  : bool * gmap (list N) RateLimit.Entry :=
  let '(r, table') := RateLimit.middleware req now dur table in
  if (RateLimit.status r =? 429)%Z
  then (ok (RateLimit.status r), table')
  else (ok (status_of (health (GET env up))), table').

End Route.

(* ===================================================================== *)
(** ** Sample inputs                                                      *)
(* ===================================================================== *)

Module Examples.
Import Js Lines.

(** A reply with two marker lines, the second one indented as in the
    test suite, and a line of other text between them. *)
Definition reply : list line :=
  [ Marked [] (lit " ") (lit "Looking Away");
    Plain (lit "Candidate otherwise attentive.");
    Marked (lit "                     ") (lit " ") (lit "Multiple Faces Detected  ") ].

Definition quiet : list N := lit "No violations in this frame.".

Definition client0 : Client.State :=
  Client.new (lit "https://test-api.example.com") (lit "test-api-key").

Definition frame1 : list N := lit "data:image/jpeg;base64,AAAA".
Definition frame2 : list N := lit "data:image/jpeg;base64,BBBB".
Definition frame3 : list N := lit "data:image/jpeg;base64,CCCC".

Definition lookingAway : Client.GeminiResponse :=
  {| Client.candidates :=
       Some [ {| Client.content :=
                   Some {| Client.parts :=
                             Some [ {| Client.text :=
                                         Some (lit "PROCTORING_VIOLATION: Looking Away") |} ] |} |} ] |}.

Definition strictness : Client.Json :=
  Client.JObj [ (lit "strictness", Client.JStr (lit "high"));
                (lit "frameRate", Client.JNum (1 # 1)) ].

(** One analysis in flight and three frames submitted behind it. *)
Definition first : list Client.Event := [ Client.ESendVideoFrame frame1 5000 ].
Definition burst : list Client.Event :=
  [ Client.ESendVideoFrame frame1 5100;
    Client.ESendVideoFrame frame2 5200;
    Client.ESendVideoFrame frame3 5300 ].

Definition apiRequest : RateLimit.Request :=
  {| RateLimit.pathname := lit "/api/gemini"; RateLimit.ip := Some (lit "203.0.113.7") |}.

(** Two requests without an address, to different routes. *)
Definition anonymous1 : RateLimit.Request :=
  {| RateLimit.pathname := lit "/api/gemini"; RateLimit.ip := None |}.
Definition anonymous2 : RateLimit.Request :=
  {| RateLimit.pathname := lit "/api/health"; RateLimit.ip := None |}.

(** The table after a hundred requests of [apiRequest] at time 0. *)
Definition full_table : gmap (list N) RateLimit.Entry :=
  RateLimit.run (repeat (RateLimit.Arrives apiRequest 0 0) 100).

(** The 101st request, one second into the window. *)
Definition refusal : RateLimit.Response :=
  (RateLimit.middleware apiRequest 1000 0 full_table).1.

(** Ninety-nine more requests of [apiRequest] half a minute in, and
    ninety-nine requests without an address. *)
Definition ninetyNine : list (RateLimit.Request * Z) := repeat (apiRequest, 30000%Z) 99.
Definition ninetyNineAnonymous : list (RateLimit.Request * Z) := repeat (anonymous2, 10%Z) 99.

Definition theViolation : Parser.ViolationEvent :=
  {| Parser.type := lit "Looking Away";
     Parser.timestamp := 0;
     Parser.confidence := 9 # 10;
     Parser.details := Some (lit "PROCTORING_VIOLATION: Looking Away") |}.

(** A client with one listener of ["violation"], one with a listener of
    ["close"]. *)
Definition watched : Client.State := Client.on Client.violation 1 client0.
Definition closing : Client.State := Client.on Client.close 7 client0.

(** A client that was never connected, with one listener of ["config"]:
    the client of the test 'sends configuration successfully'. *)
Definition configuring : Client.State := Client.on Client.config 7 client0.

(** The first frame is being analysed; the same with the burst queued. *)
Definition inFlight : Client.State := Client.run first client0.
Definition queued : Client.State := Client.run (first ++ burst) client0.

Definition answered : Client.Event :=
  Client.EFetchSettled (Client.Responded true (lit "OK")) 5400.
Definition failed : Client.Event :=
  Client.EFetchSettled (Client.Rejected (lit "Network error")) 7500.

(** The first analysis has failed after 100 ms, and a second frame comes
    half a second after the first. *)
Definition afterFailure : Client.State :=
  Client.run [ Client.ESendVideoFrame frame1 5000;
               Client.EFetchSettled (Client.Rejected (lit "Network error")) 5100 ]
             client0.
Definition tooSoon : Client.State := Client.sendVideoFrame frame2 5500 afterFailure.

(** A frame handed to a client that was never connected, and to one whose
    [connect] has not returned. *)
Definition neverConnected : Client.State := Client.sendVideoFrame frame1 5000 client0.
Definition connecting : Client.State :=
  Client.sendVideoFrame frame1 5000 (Client.connect client0).

End Examples.

(* ===================================================================== *)
(** * Properties of the parser                                            *)
(* ===================================================================== *)

Module ParserFacts.
Import Js Parser Lines.

Lemma strip_prefix_app p r : strip_prefix p (p ++ r) = Some r.
Proof.
  induction p as [|a p IH]; simpl; [reflexivity|].
  now rewrite N.eqb_refl.
Qed.

Lemma strip_prefix_length p s r :
  strip_prefix p s = Some r -> length s = (length p + length r)%nat.
Proof.
  revert s; induction p as [|a p IH]; intros [|b s]; simpl; try congruence.
  - intros [= <-]; reflexivity.
  - intros [= <-]; reflexivity.
  - destruct (a =? b); [|congruence]. intros H. now rewrite (IH _ H).
Qed.

(** A prefix without LF that matches across the end of a line matches
    inside the line. *)
Lemma strip_prefix_line p s t r :
  no_LF p = true ->
  strip_prefix p (s ++ LF :: t) = Some r ->
  exists r', strip_prefix p s = Some r'.
Proof.
  revert s r; induction p as [|a p IH]; intros s r Hp.
  - simpl. eauto.
  - cbn [no_LF forallb] in Hp. apply andb_prop in Hp as [Ha Hp].
    destruct s as [|b s]; cbn [strip_prefix app].
    + destruct (a =? LF); [discriminate Ha | congruence].
    + destruct (a =? b); [|congruence]. apply IH; assumption.
Qed.

Lemma span_line_app s : fst (span_line s) ++ snd (span_line s) = s.
Proof.
  induction s as [|c s IH]; simpl; [reflexivity|].
  destruct (c =? LF); [reflexivity|].
  destruct (span_line s) as [l r]; simpl in *. now rewrite IH.
Qed.

Lemma capture_line_app s cap rest :
  capture_line s = Some (cap, rest) -> s = cap ++ rest /\ cap <> [].
Proof.
  unfold capture_line. pose proof (span_line_app s) as H.
  destruct (span_line s) as [[|c l] r]; [congruence|].
  intros [= <- <-]. split; [now rewrite <- H | congruence].
Qed.

Lemma spaces_then_capture_length s cap rest :
  spaces_then_capture s = Some (cap, rest) -> (length rest < length s)%nat.
Proof.
  revert cap rest; induction s as [|c s IH]; intros cap rest; simpl; [congruence|].
  assert (Hc : capture_line (c :: s) = Some (cap, rest) ->
               (length rest < S (length s))%nat).
  { intros H. apply capture_line_app in H as [H Hne].
    destruct cap as [|x cap]; [congruence|].
    apply (f_equal (@length N)) in H. simpl in H. rewrite length_app in H. lia. }
  destruct (is_space c); [|exact Hc].
  destruct (spaces_then_capture s) as [[cap' rest']|] eqn:E; [|exact Hc].
  intros [= -> ->]. specialize (IH _ _ eq_refl). lia.
Qed.

Lemma match_at_length s cap rest :
  match_at s = Some (cap, rest) -> (length rest < length s)%nat.
Proof.
  unfold match_at. destruct (strip_prefix marker s) as [r|] eqn:E; [|congruence].
  intros H. apply spaces_then_capture_length in H.
  apply strip_prefix_length in E. lia.
Qed.

Lemma exec_length s cap rest :
  exec s = Some (cap, rest) -> (length rest < length s)%nat.
Proof.
  induction s as [|c s IH]; cbn [exec].
  - destruct (match_at []) as [[? ?]|] eqn:E; [|congruence].
    intros [= -> ->]. now apply match_at_length in E.
  - destruct (match_at (c :: s)) as [[? ?]|] eqn:E.
    + intros [= -> ->]. now apply match_at_length in E.
    + intros H. specialize (IH H). simpl. lia.
Qed.

(** The loop never runs out of fuel. *)
Lemma exec_loop_fuel n m s :
  (length s < n)%nat -> (length s < m)%nat -> exec_loop n s = exec_loop m s.
Proof.
  revert m s; induction n as [|n IH]; intros [|m] s Hn Hm; try lia.
  simpl. destruct (exec s) as [[cap rest]|] eqn:E; [|reflexivity].
  apply exec_length in E. f_equal. apply IH; lia.
Qed.

(** The loop, one iteration at a time. *)
Lemma captures_unfold s :
  captures s =
  match exec s with
  | Some (cap, rest) => cap :: captures rest
  | None => []
  end.
Proof.
  unfold captures.
  change (exec_loop (S (length s)) s)
    with (match exec s with
          | Some (cap, rest) => cap :: exec_loop (length s) rest
          | None => []
          end).
  destruct (exec s) as [[cap rest]|] eqn:E; [|reflexivity].
  f_equal. apply exec_length in E. apply exec_loop_fuel; lia.
Qed.

Lemma exec_unfold s :
  exec s =
  match match_at s with
  | Some r => Some r
  | None => match s with [] => None | _ :: s' => exec s' end
  end.
Proof. destruct s; reflexivity. Qed.

Lemma not_space_not_LF c : is_space c = false -> (c =? LF) = false.
Proof.
  intros H. destruct (c =? LF) eqn:E; [|reflexivity].
  apply N.eqb_eq in E. subst c. discriminate H.
Qed.

(** The marker starts with [P], which is not blank. *)
Lemma match_at_blank c s : is_space c = true -> match_at (c :: s) = None.
Proof.
  intros H. unfold match_at.
  change marker with (0x50 :: lit "ROCTORING_VIOLATION:").
  cbn [strip_prefix]. destruct (0x50 =? c) eqn:E; [|reflexivity].
  apply N.eqb_eq in E. subst c. discriminate H.
Qed.

Lemma exec_skip_blank b x : blank b = true -> exec (b ++ x) = exec x.
Proof.
  induction b as [|c b IH]; intros H; [reflexivity|].
  cbn [blank forallb] in H. apply andb_prop in H as [Hc Hb].
  cbn [app]. rewrite exec_unfold, match_at_blank by assumption. now apply IH.
Qed.

Lemma captures_LF x : captures (LF :: x) = captures x.
Proof.
  rewrite captures_unfold, (captures_unfold x).
  change (LF :: x) with ([LF] ++ x).
  now rewrite (exec_skip_blank [LF] x).
Qed.

Lemma span_line_noLF c t :
  no_LF c = true -> line_end t -> span_line (c ++ t) = (c, t).
Proof.
  intros Hc Ht. induction c as [|a c IH].
  - destruct Ht as [-> | [t' ->]]; reflexivity.
  - cbn [no_LF forallb] in Hc. apply andb_prop in Hc as [Ha Hc].
    cbn [app span_line]. destruct (a =? LF); [discriminate Ha|].
    now rewrite (IH Hc).
Qed.

Lemma trimStart_split c : exists b, blank b = true /\ c = b ++ trimStart c.
Proof.
  induction c as [|a c [b [Hb Hc]]].
  - exists []. split; reflexivity.
  - cbn [trimStart]. destruct (is_space a) eqn:E.
    + exists (a :: b). cbn [blank forallb]. rewrite E. split; [exact Hb|].
      cbn [app]. now rewrite <- Hc.
    + exists []. split; reflexivity.
Qed.

Lemma trimStart_head c :
  blank c = false -> exists x y, trimStart c = x :: y /\ is_space x = false.
Proof.
  induction c as [|a c IH]; [discriminate|].
  cbn [blank forallb trimStart]. destruct (is_space a) eqn:E.
  - exact IH.
  - intros _. now exists a, c.
Qed.

Lemma trimStart_no_LF c : no_LF c = true -> no_LF (trimStart c) = true.
Proof.
  induction c as [|a c IH]; [reflexivity|].
  intros H. cbn [trimStart]. destruct (is_space a); [|exact H].
  cbn [no_LF forallb] in H. apply andb_prop in H as [_ H]. now apply IH.
Qed.

Lemma trimStart_idem c : trimStart (trimStart c) = trimStart c.
Proof.
  induction c as [|a c IH]; [reflexivity|].
  cbn [trimStart]. destruct (is_space a) eqn:E; [exact IH|].
  cbn [trimStart]. now rewrite E.
Qed.

Lemma trim_trimStart c : trim (trimStart c) = trim c.
Proof. unfold trim. now rewrite trimStart_idem. Qed.

(** [\s*] runs over the blanks and the group takes the rest of the line. *)
Lemma spaces_then_capture_blank b x y :
  blank b = true -> is_space x = false ->
  spaces_then_capture (b ++ x :: y) = capture_line (x :: y)
  /\ capture_line (x :: y) <> None.
Proof.
  intros Hb Hx.
  assert (Hcap : capture_line (x :: y) <> None).
  { unfold capture_line. cbn [span_line]. rewrite (not_space_not_LF _ Hx).
    destruct (span_line y); discriminate. }
  split; [|exact Hcap].
  induction b as [|c b IH].
  - cbn [app spaces_then_capture]. now rewrite Hx.
  - cbn [blank forallb] in Hb. apply andb_prop in Hb as [Hc Hb].
    cbn [app spaces_then_capture]. rewrite Hc, (IH Hb).
    destruct (capture_line (x :: y)); [reflexivity | congruence].
Qed.

Lemma spaces_then_capture_category sep category t :
  blank sep = true -> no_LF category = true -> blank category = false ->
  line_end t ->
  spaces_then_capture (sep ++ category ++ t) = Some (trimStart category, t).
Proof.
  intros Hs Hn Hb Ht.
  destruct (trimStart_split category) as [b [Hbb Hc]].
  destruct (trimStart_head category Hb) as [x [y [Hxy Hx]]].
  rewrite Hc at 1. rewrite Hxy.
  replace (sep ++ (b ++ x :: y) ++ t) with ((sep ++ b) ++ x :: (y ++ t))
    by (now rewrite <- !app_assoc).
  assert (Hsb : blank (sep ++ b) = true).
  { unfold blank in *. rewrite forallb_app. now rewrite Hs, Hbb. }
  destruct (spaces_then_capture_blank (sep ++ b) x (y ++ t) Hsb Hx) as [-> _].
  unfold capture_line.
  change (x :: y ++ t) with ((x :: y) ++ t).
  rewrite span_line_noLF; [reflexivity | | exact Ht].
  rewrite <- Hxy. now apply trimStart_no_LF.
Qed.

Lemma strip_prefix_line_end s t :
  strip_prefix marker s = None -> line_end t ->
  strip_prefix marker (s ++ t) = None.
Proof.
  intros H [-> | [t' ->]].
  - now rewrite app_nil_r.
  - destruct (strip_prefix marker (s ++ LF :: t')) as [r|] eqn:E; [|reflexivity].
    apply strip_prefix_line in E as [r' E]; [congruence | reflexivity].
Qed.

Lemma exec_plain s t :
  contains_marker s = false -> line_end t -> exec (s ++ t) = exec t.
Proof.
  intros H Ht. induction s as [|c s IH]; [reflexivity|].
  cbn [contains_marker] in H. apply orb_false_elim in H as [H1 H2].
  rewrite exec_unfold. unfold match_at.
  rewrite strip_prefix_line_end; [now apply IH | | exact Ht].
  unfold startsWith in H1.
  destruct (strip_prefix marker (c :: s)); [discriminate | reflexivity].
Qed.

Lemma exec_marked indent sep category t :
  blank indent = true -> blank sep = true ->
  no_LF category = true -> blank category = false -> line_end t ->
  exec (indent ++ marker ++ sep ++ category ++ t) = Some (trimStart category, t).
Proof.
  intros Hi Hs Hn Hb Ht.
  rewrite exec_skip_blank by exact Hi.
  rewrite exec_unfold. unfold match_at. rewrite strip_prefix_app.
  now rewrite spaces_then_capture_category.
Qed.

Lemma text_of_cons l ls : text_of (l :: ls) = render l ++ after_line ls.
Proof.
  unfold text_of. destruct ls as [|l' ls]; cbn [map join_lines after_line].
  - now rewrite app_nil_r.
  - reflexivity.
Qed.

Lemma after_line_end ls : line_end (after_line ls).
Proof. destruct ls; [now left | right; eauto]. Qed.

Lemma captures_after_line ls : captures (after_line ls) = captures (text_of ls).
Proof. destruct ls; [reflexivity | apply captures_LF]. Qed.

Lemma inline_blank_blank s : inline_blank s = true -> blank s = true.
Proof. unfold inline_blank. intros H. now apply andb_prop in H as [H _]. Qed.

(** What the loop collects from a text of well-formed lines. *)
Lemma captures_lines ls :
  forallb well_formed ls = true ->
  captures (text_of ls) = map trimStart (categories ls).
Proof.
  induction ls as [|l ls IH]; intros H; [reflexivity|].
  cbn [forallb] in H. apply andb_prop in H as [Hl Hls].
  rewrite text_of_cons, captures_unfold.
  destruct l as [indent sep category | s]; cbn [render well_formed categories map] in *.
  - apply andb_prop in Hl as [Hl Hb]. apply andb_prop in Hl as [Hl Hn].
    apply andb_prop in Hl as [Hi Hs].
    apply inline_blank_blank in Hi, Hs. apply negb_true_iff in Hb.
    rewrite <- !app_assoc.
    rewrite exec_marked by (auto using after_line_end).
    now rewrite captures_after_line, IH.
  - apply andb_prop in Hl as [Hn Hc]. apply negb_true_iff in Hc.
    rewrite exec_plain by (auto using after_line_end).
    rewrite <- captures_unfold. now rewrite captures_after_line, IH.
Qed.

Lemma exec_no_marker s : contains_marker s = false -> exec s = None.
Proof.
  intros H. rewrite <- (app_nil_r s). rewrite exec_plain; [reflexivity | | now left].
  exact H.
Qed.

(** C1 (parser multiplicity).  On a text made of well-formed lines, N of
    them marker lines, [extractViolations] returns N events, in the order
    of the lines, the type of each being the category of its line trimmed
    of blanks; on a text in which the marker does not occur it returns no
    event. *)
Theorem extractViolations_marker_lines (now : Z) (ls : list line) (text : list N) :
  forallb well_formed ls = true ->
  contains_marker text = false ->
  extractViolations now (text_of ls)
  = map (fun category => {| type := trim category;
                            timestamp := now;
                            confidence := 9 # 10;
                            details := Some (text_of ls) |})
        (categories ls)
  /\ length (extractViolations now (text_of ls)) = length (categories ls)
  /\ map type (extractViolations now (text_of ls)) = map trim (categories ls)
  /\ extractViolations now text = [].
Proof.
  intros Hls Htext.
  assert (H : extractViolations now (text_of ls)
              = map (fun category => {| type := trim category;
                                        timestamp := now;
                                        confidence := 9 # 10;
                                        details := Some (text_of ls) |})
                    (categories ls)).
  { unfold extractViolations. rewrite captures_lines by exact Hls.
    rewrite map_map. apply map_ext. intros c. now rewrite trim_trimStart. }
  split; [exact H|]. split; [|split].
  - now rewrite H, length_map.
  - rewrite H, map_map. reflexivity.
  - unfold extractViolations. rewrite captures_unfold.
    now rewrite exec_no_marker.
Qed.

Lemma extractViolations_marker_lines_witness :
  forallb well_formed Examples.reply = true
  /\ contains_marker Examples.quiet = false
  /\ map type (extractViolations 0 (text_of Examples.reply))
     = [lit "Looking Away"; lit "Multiple Faces Detected"]
  /\ extractViolations 0 Examples.quiet = [].
Proof.
  split; [reflexivity|]. split; [reflexivity|].
  pose proof (extractViolations_marker_lines 0 Examples.reply Examples.quiet
                                             eq_refl eq_refl) as (_ & _ & H & H').
  split; [exact H | exact H'].
Defined.

(** *** Further properties: every text, and ill-formed marker lines *)

Lemma strip_prefix_eq p s r : strip_prefix p s = Some r -> s = p ++ r.
Proof.
  revert s; induction p as [|a p IH]; intros [|b s]; simpl; try congruence.
  destruct (a =? b) eqn:E; [|congruence]. apply N.eqb_eq in E. subst b.
  intros H. f_equal. now apply IH.
Qed.

Lemma span_line_no_LF s : no_LF (fst (span_line s)) = true.
Proof.
  induction s as [|c s IH]; [reflexivity|].
  cbn [span_line]. destruct (c =? LF) eqn:E; [reflexivity|].
  destruct (span_line s) as [l r]. cbn [fst no_LF forallb] in *.
  now rewrite E, IH.
Qed.

Lemma capture_line_no_LF s cap rest :
  capture_line s = Some (cap, rest) -> no_LF cap = true.
Proof.
  unfold capture_line. pose proof (span_line_no_LF s) as H.
  destruct (span_line s) as [[|c l] r]; [congruence|].
  now intros [= <- <-].
Qed.

(** What a match of the pattern gives: a group that is not empty and has no
    line feed, and a rest that is a part of the text behind the match. *)
Lemma spaces_then_capture_sound s cap rest :
  spaces_then_capture s = Some (cap, rest) ->
  no_LF cap = true /\ cap <> [] /\ exists pre, s = pre ++ rest.
Proof.
  revert cap rest; induction s as [|c s IH]; intros cap rest; simpl; [congruence|].
  assert (Hc : capture_line (c :: s) = Some (cap, rest) ->
               no_LF cap = true /\ cap <> [] /\ exists pre, c :: s = pre ++ rest).
  { intros H. split; [now apply capture_line_no_LF in H|].
    apply capture_line_app in H as [H Hne]. split; [exact Hne | now exists cap]. }
  destruct (is_space c); [|exact Hc].
  destruct (spaces_then_capture s) as [[cap' rest']|] eqn:E; [|exact Hc].
  intros [= -> ->]. destruct (IH _ _ eq_refl) as (H1 & H2 & pre & H3).
  split; [exact H1|]. split; [exact H2|]. exists (c :: pre). now rewrite H3.
Qed.

Lemma exec_sound s cap rest :
  exec s = Some (cap, rest) -> no_LF cap = true /\ cap <> [].
Proof.
  induction s as [|c s IH]; cbn [exec];
    (destruct (match_at _) as [[cap' rest']|] eqn:E;
     [intros [= -> ->]; unfold match_at in E;
      destruct (strip_prefix marker _); [|discriminate];
      apply spaces_then_capture_sound in E; tauto|]).
  - discriminate.
  - exact IH.
Qed.

Lemma exec_loop_Forall (P : list N -> Prop) :
  (forall s cap rest, exec s = Some (cap, rest) -> P cap) ->
  forall n s, Forall P (exec_loop n s).
Proof.
  intros HP. induction n as [|n IH]; intros s; cbn [exec_loop]; [constructor|].
  destruct (exec s) as [[cap rest]|] eqn:E; [|constructor].
  constructor; [now apply (HP s cap rest) | apply IH].
Qed.

Lemma no_LF_app a b : no_LF (a ++ b) = no_LF a && no_LF b.
Proof. apply forallb_app. Qed.

Lemma no_LF_rev s : no_LF (rev s) = no_LF s.
Proof.
  induction s as [|c s IH]; [reflexivity|].
  cbn [rev]. rewrite no_LF_app, IH. cbn [no_LF forallb].
  now rewrite andb_true_r, andb_comm.
Qed.

Lemma trim_no_LF s : no_LF s = true -> no_LF (trim s) = true.
Proof.
  intros H. unfold trim, trimEnd. rewrite no_LF_rev.
  apply trimStart_no_LF. rewrite no_LF_rev. now apply trimStart_no_LF.
Qed.

Lemma trimStart_snoc l c :
  is_space c = false -> exists l', trimStart (l ++ [c]) = l' ++ [c].
Proof.
  intros Hc. induction l as [|a l IH]; cbn [app trimStart].
  - rewrite Hc. now exists [].
  - destruct (is_space a); [exact IH | now exists (a :: l)].
Qed.

Lemma trimStart_fixed c s : is_space c = false -> trimStart (c :: s) = c :: s.
Proof. intros H. cbn [trimStart]. now rewrite H. Qed.

(** [trim] leaves nothing to trim. *)
Lemma trim_idem s : trim (trim s) = trim s.
Proof.
  unfold trim.
  assert (H : trimStart (trimEnd (trimStart s)) = trimEnd (trimStart s)).
  { destruct (trimStart s) as [|c x] eqn:Hx; [reflexivity|].
    assert (Hc : is_space c = false).
    { destruct (is_space c) eqn:E; [|reflexivity].
      pose proof (trimStart_idem s) as Hi. rewrite Hx in Hi.
      cbn [trimStart] in Hi. rewrite E in Hi.
      pose proof (trimStart_split x) as [b [_ Hb]].
      apply (f_equal (@length N)) in Hi. apply (f_equal (@length N)) in Hb.
      rewrite length_app in Hb. cbn [length] in Hi. lia. }
    unfold trimEnd. cbn [rev].
    destruct (trimStart_snoc (rev x) c Hc) as [l' ->].
    rewrite rev_app_distr. cbn [rev app]. now apply trimStart_fixed. }
  rewrite H. unfold trimEnd. now rewrite rev_involutive, trimStart_idem.
Qed.

(** X4 (every text).  Whatever the text, the type of every event returned
    by [extractViolations] is on one line and has no blank at either end,
    its confidence is 0.9, its details are the whole text, and its
    timestamp is the time of the call. *)
Theorem extractViolations_events (now : Z) (text : list N) :
  Forall (fun v => no_LF (type v) = true
                   /\ trim (type v) = type v
                   /\ confidence v = 9 # 10
                   /\ details v = Some text
                   /\ timestamp v = now)
         (extractViolations now text).
Proof.
  unfold extractViolations, captures. apply Forall_map.
  apply (Forall_impl (fun cap => no_LF cap = true)).
  - apply exec_loop_Forall. intros s cap rest H. now apply exec_sound in H.
  - intros cap H. cbn. repeat split.
    + now apply trim_no_LF.
    + apply trim_idem.
Qed.

Lemma occurrences_app pre s : (occurrences s <= occurrences (pre ++ s))%nat.
Proof.
  induction pre as [|c pre IH]; [reflexivity|].
  cbn [app occurrences]. lia.
Qed.

Lemma match_at_occurrence s cap rest :
  match_at s = Some (cap, rest) -> (S (occurrences rest) <= occurrences s)%nat.
Proof.
  unfold match_at. destruct (strip_prefix marker s) as [r|] eqn:E; [|discriminate].
  intros H. apply spaces_then_capture_sound in H as (_ & _ & pre & ->).
  assert (Hs : startsWith s marker = true) by (unfold startsWith; now rewrite E).
  apply strip_prefix_eq in E.
  change marker with (0x50 :: lit "ROCTORING_VIOLATION:") in E. cbn [app] in E.
  subst s. cbn [occurrences]. rewrite Hs.
  rewrite app_assoc. pose proof (occurrences_app (lit "ROCTORING_VIOLATION:" ++ pre) rest).
  lia.
Qed.

Lemma exec_occurrence s cap rest :
  exec s = Some (cap, rest) -> (S (occurrences rest) <= occurrences s)%nat.
Proof.
  induction s as [|c s IH]; cbn [exec].
  - destruct (match_at []) as [[? ?]|] eqn:E; [|discriminate].
    intros [= -> ->]. now apply match_at_occurrence in E.
  - destruct (match_at (c :: s)) as [[? ?]|] eqn:E.
    + intros [= -> ->]. now apply match_at_occurrence in E.
    + intros H. specialize (IH H). cbn [occurrences]. lia.
Qed.

Lemma exec_loop_occurrences n s : (length (exec_loop n s) <= occurrences s)%nat.
Proof.
  revert s; induction n as [|n IH]; intros s; cbn [exec_loop]; [cbn; lia|].
  destruct (exec s) as [[cap rest]|] eqn:E; [|cbn; lia].
  apply exec_occurrence in E. specialize (IH rest). cbn [length]. lia.
Qed.

(** X5 (no more events than markers).  Whatever the text, there are at most
    as many events as there are places where the marker occurs in it. *)
Theorem extractViolations_bounded (now : Z) (text : list N) :
  (length (extractViolations now text) <= occurrences text)%nat.
Proof.
  unfold extractViolations, captures. rewrite length_map.
  apply exec_loop_occurrences.
Qed.

(** A text without [P] has no match. *)
Lemma exec_no_P s : forallb (fun c => negb (c =? 0x50)) s = true -> exec s = None.
Proof.
  induction s as [|c s IH]; intros H; [reflexivity|].
  cbn [forallb] in H. apply andb_prop in H as [Hc Hs].
  rewrite exec_unfold. unfold match_at.
  change marker with (0x50 :: lit "ROCTORING_VIOLATION:").
  cbn [strip_prefix]. rewrite N.eqb_sym.
  destruct (c =? 0x50); [discriminate Hc | now apply IH].
Qed.

Lemma blank_no_P s : blank s = true -> forallb (fun c => negb (c =? 0x50)) s = true.
Proof.
  induction s as [|c s IH]; [reflexivity|].
  cbn [blank forallb]. intros H. apply andb_prop in H as [Hc Hs].
  rewrite (IH Hs), andb_true_r.
  destruct (c =? 0x50) eqn:E; [|reflexivity].
  apply N.eqb_eq in E. subst c. discriminate Hc.
Qed.

Lemma blank_app a b : blank (a ++ b) = blank a && blank b.
Proof. apply forallb_app. Qed.

(** X6 (blank category).  A marker line whose category is blank gives no
    event of its own: the blanks that [\s*] runs over include the line feed
    and the indentation of the next line, so the next line is taken as the
    category.  When the next line is a marker line the two give one event,
    whose type starts with the marker. *)
Theorem blank_category_takes_next_line
        (now : Z) (indent sep indent2 sep2 category : list N) (ls : list line) :
  blank indent = true -> blank sep = true ->
  forallb well_formed (Marked indent2 sep2 category :: ls) = true ->
  map type (extractViolations now
              (indent ++ marker ++ sep ++ LF
                 :: text_of (Marked indent2 sep2 category :: ls)))
  = trim (marker ++ sep2 ++ category) :: map trim (categories ls).
Proof.
  intros Hi Hs Hwf. cbn [forallb well_formed] in Hwf.
  apply andb_prop in Hwf as [Hl Hls].
  apply andb_prop in Hl as [Hl Hb]. apply andb_prop in Hl as [Hl Hn].
  apply andb_prop in Hl as [Hi2 Hs2].
  unfold inline_blank in Hi2, Hs2.
  apply andb_prop in Hi2 as [Hi2 _]. apply andb_prop in Hs2 as [_ Hs2].
  unfold extractViolations. rewrite map_map. cbn [type].
  rewrite text_of_cons. cbn [render].
  replace (indent ++ marker ++ sep ++ LF
             :: (indent2 ++ marker ++ sep2 ++ category) ++ after_line ls)
    with (indent ++ marker ++ (sep ++ LF :: indent2)
                 ++ (marker ++ sep2 ++ category) ++ after_line ls)
    by (now rewrite <- !app_assoc).
  rewrite captures_unfold.
  rewrite exec_marked; [| exact Hi | | | | apply after_line_end].
  - change (trimStart (marker ++ sep2 ++ category)) with (marker ++ sep2 ++ category).
    rewrite captures_after_line, captures_lines by exact Hls.
    cbn [map]. f_equal. rewrite map_map. apply map_ext. intros c.
    apply trim_trimStart.
  - unfold blank in *. rewrite forallb_app, Hs. cbn [forallb].
    rewrite Hi2. reflexivity.
  - rewrite !no_LF_app, Hs2, Hn. reflexivity.
  - reflexivity.
Qed.

Lemma blank_category_takes_next_line_witness :
  blank [] = true /\ blank (lit " ") = true
  /\ forallb well_formed [Marked [] (lit " ") (lit "Looking Away")] = true
  /\ map type (extractViolations 0
                 (lit "PROCTORING_VIOLATION: " ++ LF
                    :: lit "PROCTORING_VIOLATION: Looking Away"))
     = [lit "PROCTORING_VIOLATION: Looking Away"].
Proof.
  split; [reflexivity|]. split; [reflexivity|]. split; [reflexivity|].
  exact (blank_category_takes_next_line 0 [] (lit " ") [] (lit " ")
           (lit "Looking Away") [] eq_refl eq_refl eq_refl).
Defined.

Lemma span_line_only_LF s : only_LF s = true -> span_line s = ([], s).
Proof.
  destruct s as [|c s]; [reflexivity|].
  cbn [only_LF forallb span_line]. intros H. apply andb_prop in H as [-> _].
  reflexivity.
Qed.

Lemma only_LF_blank s : only_LF s = true -> blank s = true.
Proof.
  induction s as [|c s IH]; [reflexivity|].
  cbn [only_LF forallb]. intros H. apply andb_prop in H as [Hc Hs].
  apply N.eqb_eq in Hc. subst c. specialize (IH Hs).
  unfold blank in *. cbn [forallb]. now rewrite IH.
Qed.

(** The pattern on blanks alone: [\s*] gives back up to the last code unit
    that is not a line feed, and the group is that one blank. *)
Lemma spaces_then_capture_blanks b :
  blank b = true ->
  match spaces_then_capture b with
  | None => only_LF b = true
  | Some (cap, rest) => only_LF b = false /\ blank cap = true /\ only_LF rest = true
  end.
Proof.
  induction b as [|c b IH]; intros H; [reflexivity|].
  cbn [blank forallb] in H. apply andb_prop in H as [Hc Hb].
  specialize (IH Hb). cbn [spaces_then_capture]. rewrite Hc.
  destruct (spaces_then_capture b) as [[cap rest]|].
  - destruct IH as (H1 & H2 & H3). cbn [only_LF forallb].
    unfold only_LF in H1. rewrite H1, andb_false_r. now repeat split.
  - unfold capture_line. cbn [span_line only_LF forallb].
    destruct (c =? LF); [exact IH|].
    rewrite (span_line_only_LF b IH). cbn [andb]. repeat split.
    + cbn [blank forallb]. now rewrite Hc.
    + exact IH.
Qed.

Lemma trimStart_blank s : blank s = true -> trimStart s = [].
Proof.
  induction s as [|c s IH]; [reflexivity|].
  cbn [blank forallb trimStart]. intros H. apply andb_prop in H as [-> Hs].
  now apply IH.
Qed.

(** X7 (marker at the end).  When only blanks follow the marker up to the
    end of the text, there is one event and its type is the empty string,
    unless the blanks are all line feeds (or there are none), in which case
    there is no event. *)
Theorem marker_then_blanks (now : Z) (indent b : list N) :
  blank indent = true -> blank b = true ->
  map type (extractViolations now (indent ++ marker ++ b))
  = if only_LF b then [] else [[]].
Proof.
  intros Hi Hb. unfold extractViolations. rewrite map_map. cbn [type].
  rewrite captures_unfold, exec_skip_blank by exact Hi.
  rewrite exec_unfold. unfold match_at. rewrite strip_prefix_app.
  pose proof (spaces_then_capture_blanks b Hb) as H.
  destruct (spaces_then_capture b) as [[cap rest]|].
  - destruct H as (-> & H2 & H3).
    rewrite captures_unfold, exec_no_P by now apply blank_no_P, only_LF_blank.
    cbn [map]. unfold trim. now rewrite (trimStart_blank cap H2).
  - rewrite H.
    change (marker ++ b) with (0x50 :: (lit "ROCTORING_VIOLATION:" ++ b)).
    lazy beta iota.
    rewrite exec_no_P; [reflexivity|].
    rewrite forallb_app, (blank_no_P b Hb). reflexivity.
Qed.

Lemma marker_then_blanks_witness :
  blank (lit "  ") = true /\ blank (lit "   ") = true
  /\ map type (extractViolations 0 (lit "  PROCTORING_VIOLATION:   ")) = [[]]
  /\ map type (extractViolations 0 (lit "  PROCTORING_VIOLATION:" ++ [LF])) = [].
Proof.
  split; [reflexivity|]. split; [reflexivity|]. split.
  - exact (marker_then_blanks 0 (lit "  ") (lit "   ") eq_refl eq_refl).
  - exact (marker_then_blanks 0 (lit "  ") [LF] eq_refl eq_refl).
Defined.

End ParserFacts.

(* ===================================================================== *)
(** * Properties of the client                                            *)
(* ===================================================================== *)

Module ClientFacts.
Import Js Parser Client.

(** [emit] and [log] touch nothing but the records kept of them. *)
Lemma emit_fields sg s :
  connected (emit sg s) = connected s
  /\ lastAnalysisTime (emit sg s) = lastAnalysisTime s
  /\ analysisInterval (emit sg s) = analysisInterval s
  /\ confidenceThreshold (emit sg s) = confidenceThreshold s
  /\ frameQueue (emit sg s) = frameQueue s
  /\ processingFrames (emit sg s) = processingFrames s
  /\ listeners (emit sg s) = listeners s
  /\ fetched (emit sg s) = fetched s
  /\ analyses (emit sg s) = analyses s.
Proof. repeat split. Qed.

Lemma subscribers_emit name sg s : subscribers name (emit sg s) = subscribers name s.
Proof. reflexivity. Qed.

Lemma emit_violations_fields vs s :
  let s' := emit_violations vs s in
  connected s' = connected s
  /\ lastAnalysisTime s' = lastAnalysisTime s
  /\ analysisInterval s' = analysisInterval s
  /\ confidenceThreshold s' = confidenceThreshold s
  /\ frameQueue s' = frameQueue s
  /\ processingFrames s' = processingFrames s
  /\ listeners s' = listeners s
  /\ fetched s' = fetched s
  /\ analyses s' = analyses s.
Proof.
  revert s; induction vs as [|v vs IH]; intros s; cbn [emit_violations].
  - repeat split.
  - destruct (Qle_bool (confidenceThreshold s) (confidence v)); [|apply IH].
    specialize (IH (emit (SViolation v) s)). cbn zeta in *. exact IH.
Qed.

Lemma process_parts_fields now ps s :
  let s' := process_parts now ps s in
  connected s' = connected s
  /\ lastAnalysisTime s' = lastAnalysisTime s
  /\ analysisInterval s' = analysisInterval s
  /\ confidenceThreshold s' = confidenceThreshold s
  /\ frameQueue s' = frameQueue s
  /\ processingFrames s' = processingFrames s
  /\ listeners s' = listeners s
  /\ fetched s' = fetched s
  /\ analyses s' = analyses s.
Proof.
  revert s; induction ps as [|p ps IH]; intros s; cbn [process_parts].
  - repeat split.
  - destruct (part_text p) as [t|]; [|apply IH].
    specialize (IH (emit_violations (extractViolations now t) s)).
    pose proof (emit_violations_fields (extractViolations now t) s) as H.
    cbn zeta in *. intuition congruence.
Qed.

Lemma passes_threshold s s' v :
  confidenceThreshold s' = confidenceThreshold s -> passes s' v = passes s v.
Proof. unfold passes. now intros ->. Qed.

Lemma deliveries_app subs a b :
  deliveries subs (a ++ b) = deliveries subs a ++ deliveries subs b.
Proof. unfold deliveries. now rewrite map_app, concat_app. Qed.

Lemma emit_violations_signals vs s :
  let out := map SViolation (List.filter (passes s) vs) in
  emitted (emit_violations vs s) = emitted s ++ out
  /\ delivered (emit_violations vs s)
     = delivered s ++ deliveries (subscribers violation s) out.
Proof.
  revert s; induction vs as [|v vs IH]; intros s; cbn [emit_violations List.filter].
  - cbn. now rewrite !app_nil_r.
  - fold (passes s v). destruct (passes s v) eqn:E.
    + destruct (IH (emit (SViolation v) s)) as [He Hd]. cbn zeta.
      rewrite He, Hd. cbn [map]. unfold deliveries at 2. cbn [map concat].
      fold (deliveries (subscribers violation s)
                       (map SViolation (List.filter (passes s) vs))).
      rewrite subscribers_emit.
      replace (List.filter (passes (emit (SViolation v) s)) vs)
        with (List.filter (passes s) vs) by reflexivity.
      cbn [emit set_signals emitted delivered name_of].
      now rewrite <- !app_assoc.
    + apply IH.
Qed.

Lemma process_parts_signals now ps s :
  let out :=
    map SViolation
        (List.filter (passes s)
           (concat (map (extractViolations now) (omap part_text ps)))) in
  emitted (process_parts now ps s) = emitted s ++ out
  /\ delivered (process_parts now ps s)
     = delivered s ++ deliveries (subscribers violation s) out.
Proof.
  revert s; induction ps as [|p ps IH]; intros s; cbn [process_parts omap list_omap].
  - cbn. now rewrite !app_nil_r.
  - destruct (part_text p) as [t|]; [|apply IH].
    cbn [map concat]. cbn zeta.
    set (s1 := emit_violations (extractViolations now t) s).
    destruct (IH s1) as [He Hd].
    destruct (emit_violations_signals (extractViolations now t) s) as [He1 Hd1].
    destruct (emit_violations_fields (extractViolations now t) s)
      as (_ & _ & _ & Hth & _ & _ & Hl & _).
    fold s1 in He1, Hd1, Hth, Hl.
    assert (Hp : forall vs, List.filter (passes s1) vs = List.filter (passes s) vs).
    { intros vs. apply filter_ext. intros v. now apply passes_threshold. }
    assert (Hs : subscribers violation s1 = subscribers violation s).
    { unfold subscribers. now rewrite Hl. }
    rewrite He, Hd, He1, Hd1, Hp, Hs.
    rewrite List.filter_app, map_app, deliveries_app.
    now rewrite <- !app_assoc.
Qed.

(** C5 (confidence gating).  [processViolations] emits, in the order they
    are parsed, exactly the events of the reply whose confidence is at
    least the threshold of the client: an event below the threshold is
    emitted to no one, an event at or above it is emitted once, and each
    listener of ["violation"] is called once for each emitted event.  The
    parser gives every event the confidence 0.9. *)
Theorem processViolations_confidence_gate (now : Z) (r : GeminiResponse) (s : State) :
  let s' := processViolations now r s in
  let out := map SViolation (List.filter (passes s) (produced now r)) in
  emitted s' = emitted s ++ out
  /\ delivered s' = delivered s ++ deliveries (subscribers violation s) out
  /\ (forall v, In (SViolation v) out ->
                (confidenceThreshold s <= confidence v)%Q)
  /\ (forall v, In v (produced now r) ->
                (confidence v < confidenceThreshold s)%Q ->
                ~ In (SViolation v) out)
  /\ (forall v, In v (produced now r) -> confidence v = 9 # 10).
Proof.
  cbn zeta. unfold processViolations, produced, response_texts.
  destruct (process_parts_signals now (response_parts r) s) as [He Hd].
  split; [exact He|]. split; [exact Hd|]. split; [|split].
  - intros v Hin. apply in_map_iff in Hin as [v' [[= ->] Hin]].
    apply List.filter_In in Hin as [_ Hp]. now apply Qle_bool_iff.
  - intros v _ Hlt Hin. apply in_map_iff in Hin as [v' [[= ->] Hin]].
    apply List.filter_In in Hin as [_ Hp]. apply Qle_bool_iff in Hp.
    now apply Qlt_not_le in Hlt.
  - intros v Hin. apply in_concat in Hin as [vs [Hvs Hin]].
    apply in_map_iff in Hvs as [t [<- _]].
    unfold extractViolations in Hin. apply in_map_iff in Hin as [c [<- _]].
    reflexivity.
Qed.

(** *** The frame queue *)

(** What a call of [processFrameQueue] does when none is under way: the
    newest frame is taken, the queue is emptied, and the frame is analysed
    when due and dropped otherwise. *)
Lemma processFrameQueue_eq d now s :
  processingFrames s = false ->
  processFrameQueue (S d) now s =
  match last (frameQueue s) with
  | None => s
  | Some f =>
      if due now s
      then analyzeFrame f (set_lastAnalysisTime now
                             (set_frameQueue [] (set_processingFrames true s)))
      else set_processingFrames false
             (set_frameQueue [] (set_processingFrames true s))
  end.
Proof.
  intros Hp. cbn [processFrameQueue]. rewrite Hp. cbn [orb].
  destruct (frameQueue s) as [|f0 q] eqn:Hq; [reflexivity|].
  cbn [is_empty]. cbn [frameQueue set_processingFrames]. rewrite Hq.
  destruct (last (f0 :: q)) as [f|] eqn:Hl.
  - unfold shouldAnalyzeFrame, due.
    cbn [analysisInterval lastAnalysisTime set_frameQueue set_processingFrames].
    destruct (analysisInterval s <=? now - lastAnalysisTime s)%Z; reflexivity.
  - apply last_None in Hl. discriminate Hl.
Qed.

(** The nested call through [finally] is never entered. *)
Lemma processFrameQueue_depth d now s :
  processFrameQueue (S d) now s = processFrameQueue 1 now s.
Proof.
  destruct (processingFrames s) eqn:Hp.
  - cbn [processFrameQueue]. now rewrite Hp.
  - now rewrite !processFrameQueue_eq.
Qed.

Lemma finally_eq now s :
  finally (processFrameQueue 2 now) s =
  match last (frameQueue s) with
  | None => set_processingFrames false s
  | Some f =>
      if due now s
      then analyzeFrame f (set_lastAnalysisTime now
                             (set_frameQueue [] (set_processingFrames true s)))
      else set_processingFrames false (set_frameQueue [] s)
  end.
Proof.
  unfold finally. cbn [frameQueue set_processingFrames].
  destruct (frameQueue s) as [|f0 q] eqn:Hq; [reflexivity|].
  cbn [is_empty]. rewrite processFrameQueue_eq by reflexivity.
  cbn [frameQueue set_processingFrames]. rewrite Hq.
  destruct (last (f0 :: q)) as [f|] eqn:Hl.
  - unfold due. cbn [analysisInterval lastAnalysisTime set_processingFrames].
    destruct (analysisInterval s <=? now - lastAnalysisTime s)%Z; reflexivity.
  - apply last_None in Hl. discriminate Hl.
Qed.

Lemma sendVideoFrame_busy fd now s :
  processingFrames s = true ->
  sendVideoFrame fd now s = set_frameQueue (frameQueue s ++ [frame_of fd now]) s.
Proof. intros Hp. unfold sendVideoFrame. cbn. now rewrite Hp. Qed.

Lemma sendVideoFrame_idle fd now s :
  idle s ->
  sendVideoFrame fd now s =
  if due now s
  then analyzeFrame (frame_of fd now)
         (set_lastAnalysisTime now (set_processingFrames true s))
  else s.
Proof.
  intros (Hp & Ha & Hq). unfold sendVideoFrame.
  cbn [processingFrames set_frameQueue]. rewrite Hp. cbn [negb].
  rewrite processFrameQueue_eq by exact Hp.
  cbn [frameQueue set_frameQueue]. rewrite Hq. cbn [app last].
  unfold due. cbn [analysisInterval lastAnalysisTime set_frameQueue].
  destruct (analysisInterval s <=? now - lastAnalysisTime s)%Z.
  - destruct s; cbn in *; subst; reflexivity.
  - destruct s; cbn in *; subst; reflexivity.
Qed.

Lemma analysisCalls_analyzeFrame f s :
  analysisCalls (analyzeFrame f s)
  = analysisCalls s
      ++ [{| method := lit "POST"; path := lit "/api/gemini";
             authorization := Some (lit "Bearer " ++ apiKey s);
             body := Some (analysisRequest f) |}].
Proof.
  unfold analysisCalls, analyzeFrame. cbn [fetched set_analyses set_fetched].
  rewrite filter_app. f_equal.
Qed.

Ltac calls :=
  unfold analysisCalls;
  cbn [fetched length set_connected set_lastAnalysisTime set_frameQueue
       set_processingFrames set_listeners set_signals set_fetched
       set_healthChecks set_analyses set_logged emit log analyzeFrame_catch
       on removeAllListeners disconnect sendConfig];
  try lia.

Lemma settled_fields s s' :
  processingFrames s' = processingFrames s ->
  analyses s' = analyses s ->
  frameQueue s' = frameQueue s ->
  (idle s -> idle s') /\ (busy s -> busy s') /\ (settled s -> settled s').
Proof.
  intros Hp Ha Hq. unfold settled, idle, busy. rewrite Hp, Ha, Hq. tauto.
Qed.

Lemma analysisCalls_connect s : analysisCalls (connect s) = analysisCalls s.
Proof.
  unfold analysisCalls, connect. cbn [fetched set_healthChecks set_fetched].
  rewrite filter_app. cbn. now rewrite app_nil_r.
Qed.

Lemma connect_resume_fields r s :
  let s' := connect_resume r s in
  processingFrames s' = processingFrames s
  /\ analyses s' = analyses s
  /\ frameQueue s' = frameQueue s
  /\ fetched s' = fetched s.
Proof.
  unfold connect_resume. destruct (healthChecks s); [repeat split|].
  destruct r as [m | [|] st]; repeat split.
Qed.

Lemma processViolations_fields now v s :
  let s' := processViolations now v s in
  lastAnalysisTime s' = lastAnalysisTime s
  /\ analysisInterval s' = analysisInterval s
  /\ frameQueue s' = frameQueue s
  /\ processingFrames s' = processingFrames s
  /\ fetched s' = fetched s
  /\ analyses s' = analyses s.
Proof.
  pose proof (process_parts_fields now (response_parts v) s) as H.
  unfold processViolations. cbn zeta in *. intuition.
Qed.

(** The [finally] clause at the end of an analysis: the queue is emptied,
    and at most one analysis is started, of the newest frame, when due. *)
Lemma finally_spec now s :
  analyses s = [] ->
  let s' := finally (processFrameQueue 2 now) s in
  settled s' /\ frameQueue s' = []
  /\ ((analyses s' = [] /\ analysisCalls s' = analysisCalls s
       /\ (last (frameQueue s) = None \/ due now s = false))
      \/ (exists f, last (frameQueue s) = Some f /\ due now s = true
                    /\ analyses s' = [AwaitFetch f]
                    /\ length (analysisCalls s') = S (length (analysisCalls s)))).
Proof.
  intros Ha. cbn zeta. rewrite finally_eq.
  destruct (last (frameQueue s)) as [f|] eqn:Hl.
  - destruct (due now s) eqn:Hd.
    + split; [|split].
      * right. split; [reflexivity|]. exists (AwaitFetch f). cbn. now rewrite Ha.
      * reflexivity.
      * right. exists f. repeat split.
        -- cbn. now rewrite Ha.
        -- rewrite analysisCalls_analyzeFrame, length_app. calls.
    + split; [|split].
      * left. repeat split. exact Ha.
      * reflexivity.
      * left. repeat split; [exact Ha | now right].
  - apply last_None in Hl. split; [|split].
    + left. repeat split; assumption.
    + exact Hl.
    + left. repeat split; [exact Ha | left; reflexivity].
Qed.

(** One step of the client from a settled state. *)
Lemma step_settled s e :
  settled s ->
  settled (step s e)
  /\ (length (analysisCalls (step s e)) <= S (length (analysisCalls s)))%nat.
Proof.
  intros Hs. destruct e as [name l | | | r | | cfg | fd now | r now | r now];
    cbn [step].
  - split; [|calls]. now apply (settled_fields s (on name l s)).
  - split; [|calls]. now apply (settled_fields s (removeAllListeners s)).
  - split; [|rewrite analysisCalls_connect; lia].
    now apply (settled_fields s (connect s)).
  - destruct (connect_resume_fields r s) as (Hp & Ha & Hq & Hf). cbn zeta in *.
    split; [now apply (settled_fields s (connect_resume r s))|].
    unfold analysisCalls. rewrite Hf. lia.
  - split; [|calls]. now apply (settled_fields s (disconnect s)).
  - split; [|calls]. now apply (settled_fields s (sendConfig cfg s)).
  - destruct Hs as [Hi | Hb].
    + rewrite sendVideoFrame_idle by exact Hi. destruct Hi as (Hp & Ha & Hq).
      destruct (due now s).
      * split.
        -- right. split; [reflexivity|]. exists (AwaitFetch (frame_of fd now)).
           cbn. now rewrite Ha.
        -- rewrite analysisCalls_analyzeFrame, length_app. calls.
      * split; [left; now repeat split | lia].
    + rewrite sendVideoFrame_busy by apply Hb. split; [|calls].
      right. exact Hb.
  - unfold fetch_resume. destruct (analyses s) as [|[f|f] rest] eqn:Ha;
      [split; [exact Hs | lia] | | split; [exact Hs | lia]].
    assert (rest = []) as ->.
    { destruct Hs as [(_ & H & _) | (_ & a & H)]; congruence. }
    destruct r as [m | [|] st].
    + pose proof (finally_spec now (analyzeFrame_catch m (set_analyses [] s)) eq_refl)
        as (H1 & _ & [(_ & H2 & _) | (f' & _ & _ & _ & H2)]); cbn zeta in *.
      * split; [exact H1|]. rewrite H2. calls.
      * split; [exact H1|]. rewrite H2. calls.
    + split; [|calls]. right. split; [|exists (AwaitJson f); reflexivity].
      destruct Hs as [(_ & H & _) | (H & _)]; [congruence | exact H].
    + pose proof (finally_spec now
                    (analyzeFrame_catch (lit "API request failed: " ++ st)
                                        (set_analyses [] s)) eq_refl)
        as (H1 & _ & [(_ & H2 & _) | (f' & _ & _ & _ & H2)]); cbn zeta in *.
      * split; [exact H1|]. rewrite H2. calls.
      * split; [exact H1|]. rewrite H2. calls.
  - unfold json_resume. destruct (analyses s) as [|[f|f] rest] eqn:Ha;
      [split; [exact Hs | lia] | split; [exact Hs | lia] | ].
    assert (rest = []) as ->.
    { destruct Hs as [(_ & H & _) | (_ & a & H)]; congruence. }
    destruct r as [m | v].
    + pose proof (finally_spec now (analyzeFrame_catch m (set_analyses [] s)) eq_refl)
        as (H1 & _ & [(_ & H2 & _) | (f' & _ & _ & _ & H2)]); cbn zeta in *.
      * split; [exact H1|]. rewrite H2. calls.
      * split; [exact H1|]. rewrite H2. calls.
    + destruct (processViolations_fields now v (set_analyses [] s))
        as (_ & _ & _ & _ & Hf & Hz). cbn zeta in *.
      pose proof (finally_spec now (processViolations now v (set_analyses [] s)) Hz)
        as (H1 & _ & [(_ & H2 & _) | (f' & _ & _ & _ & H2)]); cbn zeta in *.
      * split; [exact H1|]. rewrite H2. unfold analysisCalls. rewrite Hf. calls.
      * split; [exact H1|]. rewrite H2. unfold analysisCalls. rewrite Hf. calls.
Qed.

(** *** Reachable states *)

Lemma new_idle url key : idle (new url key).
Proof. repeat split. Qed.

Lemma run_app evs1 evs2 s : run (evs1 ++ evs2) s = run evs2 (run evs1 s).
Proof. apply fold_left_app. Qed.

Lemma run_settled evs s : settled s -> settled (run evs s).
Proof.
  revert s; induction evs as [|e evs IH]; intros s Hs; [exact Hs|].
  cbn [run fold_left]. apply IH. now apply step_settled.
Qed.

Lemma reachable_settled s : reachable s -> settled s.
Proof.
  intros (url & key & evs & ->). apply run_settled. left. apply new_idle.
Qed.

Lemma settled_in_flight s : settled s -> (length (analyses s) <= 1)%nat.
Proof.
  intros [(_ & -> & _) | (_ & a & ->)]; cbn; lia.
Qed.

Lemma settled_busy s : settled s -> analyses s <> [] -> busy s.
Proof. intros [(_ & H & _) | H] Hne; [congruence | exact H]. Qed.

Lemma settled_idle s : settled s -> analyses s = [] -> idle s.
Proof.
  intros [H | (_ & a & H)] He; [exact H | congruence].
Qed.

(** Submissions made while an analysis is in flight only fill the queue. *)
Lemma run_submissions_busy subs s :
  busy s -> Forall is_submission subs ->
  busy (run subs s)
  /\ analyses (run subs s) = analyses s
  /\ fetched (run subs s) = fetched s
  /\ lastAnalysisTime (run subs s) = lastAnalysisTime s
  /\ analysisInterval (run subs s) = analysisInterval s
  /\ frameQueue (run subs s) = frameQueue s ++ frames_of subs.
Proof.
  intros Hb Hsubs. revert s Hb.
  induction Hsubs as [|e subs He _ IH]; intros s Hb.
  - cbn. rewrite app_nil_r. split; [exact Hb | repeat split].
  - destruct e; try contradiction He.
    cbn [run fold_left step]. rewrite sendVideoFrame_busy by apply Hb.
    set (s1 := set_frameQueue _ s).
    assert (Hb1 : busy s1) by exact Hb.
    destruct (IH s1 Hb1) as (H1 & H2 & H3 & H4 & H5 & H6).
    fold (run subs s1). split; [exact H1|]. repeat split; try assumption.
    rewrite H6. subst s1. cbn [frameQueue set_frameQueue frames_of flat_map].
    now rewrite <- app_assoc.
Qed.

Lemma fetch_resume_reading st now s :
  busy s ->
  busy (fetch_resume (Responded true st) now s)
  /\ fetched (fetch_resume (Responded true st) now s) = fetched s.
Proof.
  intros (Hp & a & Ha). unfold fetch_resume. rewrite Ha.
  destruct a as [f|f].
  - split; [|reflexivity]. split; [exact Hp|]. now exists (AwaitJson f).
  - split; [|reflexivity]. split; [exact Hp|]. exists (AwaitJson f). exact Ha.
Qed.

(** C3 (single flight, coalescing).  In every state the client reaches at
    most one analysis is in flight.  While one is, any number of
    submissions leaves it the only one and makes no remote call, and the
    settlement that follows makes at most one more call; the same holds
    when the answer arrives first and its body is read after further
    submissions. *)
Theorem single_analysis_in_flight
        (url key : list N) (evs subs subs' : list Event) (e : Event) :
  let s := run evs (new url key) in
  analyses s <> [] ->
  Forall is_submission subs -> Forall is_submission subs' ->
  is_settlement e ->
  (forall evs', (length (analyses (run evs' (new url key))) <= 1)%nat)
  /\ analyses (run subs s) = analyses s
  /\ fetched (run subs s) = fetched s
  /\ (length (analysisCalls (step (run subs s) e))
      <= S (length (analysisCalls s)))%nat
  /\ (length (analyses (step (run subs s) e)) <= 1)%nat
  /\ (forall st now1 j now2,
         e = EFetchSettled (Responded true st) now1 ->
         (length (analysisCalls
                    (step (run subs' (step (run subs s) e)) (EJsonSettled j now2)))
          <= S (length (analysisCalls s)))%nat).
Proof.
  cbn zeta. intros Hne Hsubs Hsubs' He.
  set (s := run evs (new url key)).
  assert (Hs : settled s) by (apply run_settled; left; apply new_idle).
  assert (Hb : busy s) by now apply settled_busy.
  destruct (run_submissions_busy subs s Hb Hsubs) as (Hb1 & Ha1 & Hf1 & _).
  assert (Hc1 : analysisCalls (run subs s) = analysisCalls s)
    by (unfold analysisCalls; now rewrite Hf1).
  destruct (step_settled (run subs s) e (or_intror Hb1)) as [Hs2 Hle].
  split; [|split; [|split; [|split; [|split]]]].
  - intros evs'. apply settled_in_flight, run_settled. left. apply new_idle.
  - exact Ha1.
  - exact Hf1.
  - now rewrite <- Hc1.
  - now apply settled_in_flight.
  - intros st now1 j now2 ->. cbn [step].
    destruct (fetch_resume_reading st now1 (run subs s) Hb1) as [Hb2 Hf2].
    destruct (run_submissions_busy subs' _ Hb2 Hsubs') as (Hb3 & _ & Hf3 & _).
    destruct (step_settled _ (EJsonSettled j now2) (or_intror Hb3)) as [_ Hle3].
    cbn [step] in Hle3.
    assert (Hc3 : analysisCalls
                    (run subs' (fetch_resume (Responded true st) now1 (run subs s)))
                  = analysisCalls s).
    { unfold analysisCalls. now rewrite Hf3, Hf2, Hf1. }
    now rewrite Hc3 in Hle3.
Qed.

(** *** What becomes of a submitted frame *)

Lemma finally_after now s x :
  analyses x = [] ->
  frameQueue x = frameQueue s ->
  lastAnalysisTime x = lastAnalysisTime s ->
  analysisInterval x = analysisInterval s ->
  let s' := finally (processFrameQueue 2 now) x in
  frameQueue s' = []
  /\ analyses s' =
     match last (frameQueue s) with
     | Some f => if due now s then [AwaitFetch f] else []
     | None => []
     end.
Proof.
  intros Ha Hq Ht Hi. cbn zeta. rewrite finally_eq, Hq.
  assert (Hd : due now x = due now s) by (unfold due; now rewrite Ht, Hi).
  rewrite Hd. destruct (last (frameQueue s)) as [f|] eqn:Hl.
  - destruct (due now s); cbn; rewrite ?Ha; now split.
  - apply last_None in Hl. cbn. rewrite Hq, Ha. now split.
Qed.

Lemma sendVideoFrame_settled fd now s :
  settled s ->
  sendVideoFrame fd now s =
  if is_empty (analyses s)
  then if due now s
       then analyzeFrame (frame_of fd now)
              (set_lastAnalysisTime now (set_processingFrames true s))
       else s
  else set_frameQueue (frameQueue s ++ [frame_of fd now]) s.
Proof.
  intros [Hi | Hb].
  - rewrite sendVideoFrame_idle by exact Hi.
    destruct Hi as (_ & -> & _). reflexivity.
  - rewrite sendVideoFrame_busy by apply Hb.
    destruct Hb as (_ & a & ->). reflexivity.
Qed.

(** C4, as the code has it.  In a state the client reaches, a frame
    submitted while an analysis is in flight is appended to the queue and
    nothing else happens; a frame submitted while none is in flight is
    analysed at once when the interval has elapsed and is dropped
    otherwise, the submission leaving the client as it was.  When the
    analysis in flight ends, the queue is emptied; of the frames in it
    only the newest is looked at, and it is analysed when the interval
    has elapsed by then and dropped otherwise. *)
Theorem submitted_frame_fate
        (url key : list N) (evs : list Event) (fd : list N) (now : Z) (e : Event) :
  let s := run evs (new url key) in
  sendVideoFrame fd now s =
  (if is_empty (analyses s)
   then if due now s
        then analyzeFrame (frame_of fd now)
               (set_lastAnalysisTime now (set_processingFrames true s))
        else s
   else set_frameQueue (frameQueue s ++ [frame_of fd now]) s)
  /\ (completes s e ->
      frameQueue (step s e) = []
      /\ analyses (step s e) =
         match last (frameQueue s) with
         | Some f => if due (time_of e) s then [AwaitFetch f] else []
         | None => []
         end).
Proof.
  cbn zeta. set (s := run evs (new url key)).
  assert (Hs : settled s) by (apply run_settled; left; apply new_idle).
  split; [now apply sendVideoFrame_settled|].
  unfold completes. intros Hc.
  destruct e as [| | | | | | | r t | r t]; try contradiction Hc.
  - destruct (analyses s) as [|[f|f] rest] eqn:Ha;
      try (destruct r as [? | [|] ?]; contradiction Hc).
    assert (rest = []) as ->.
    { destruct Hs as [(_ & H & _) | (_ & a & H)]; congruence. }
    cbn [step time_of]. unfold fetch_resume. rewrite Ha.
    destruct r as [m | [|] st]; [|contradiction Hc|];
      now apply finally_after.
  - destruct (analyses s) as [|[f|f] rest] eqn:Ha; try contradiction Hc.
    assert (rest = []) as ->.
    { destruct Hs as [(_ & H & _) | (_ & a & H)]; congruence. }
    cbn [step time_of]. unfold json_resume. rewrite Ha.
    destruct r as [m | v]; [now apply finally_after|].
    destruct (processViolations_fields t v (set_analyses [] s))
      as (Ht & Hi & Hq & _ & _ & Hz). cbn zeta in *.
    now apply finally_after.
Qed.

(** *** Connection state *)

Lemma sendVideoFrame_connected b fd now s :
  sendVideoFrame fd now (set_connected b s)
  = set_connected b (sendVideoFrame fd now s).
Proof.
  unfold sendVideoFrame. cbn [processingFrames set_frameQueue set_connected].
  destruct (processingFrames s) eqn:Hp; cbn [negb]; [reflexivity|].
  rewrite !processFrameQueue_eq by exact Hp.
  cbn [frameQueue set_frameQueue set_connected].
  destruct (last (frameQueue s ++ _)); [|reflexivity].
  unfold due. cbn [analysisInterval lastAnalysisTime set_frameQueue set_connected].
  destruct (analysisInterval s <=? now - lastAnalysisTime s)%Z; reflexivity.
Qed.

(** C8, as the code has it.  [sendVideoFrame] does not read the connection
    flag: what it does with a frame is the same whether the client is
    connected or not.  The gate is in the caller: [captureFrame] hands a
    captured frame to the client only when the context says connected. *)
Theorem frames_gated_by_caller
        (b video : bool) (fd : list N) (u : N) (now : Z) (s : State)
        (captured : option (list N)) :
  sendVideoFrame fd now (set_connected b s)
  = set_connected b (sendVideoFrame fd now s)
  /\ VideoProctor.captureFrame video (Some s) false captured now = Some s
  /\ VideoProctor.captureFrame true (Some s) true (Some (u :: fd)) now
     = Some (sendVideoFrame (u :: fd) now s).
Proof.
  split; [apply sendVideoFrame_connected|]. split.
  - unfold VideoProctor.captureFrame. now rewrite orb_true_r.
  - reflexivity.
Qed.

(** C9, as the code has it.  [disconnect] clears the flag and emits
    ["close"] every time it is called, also on a client that is already
    disconnected: the flag is then unchanged but one more ["close"] goes to
    every listener.  The handler of the provider calls it only on a
    connected client, so through the provider a second disconnect does
    nothing. *)
Theorem disconnect_always_closes (s : State) (p : Provider.State) :
  connected (disconnect s) = false
  /\ emitted (disconnect s) = emitted s ++ [SClose]
  /\ delivered (disconnect s)
     = delivered s ++ map (fun l => (l, SClose)) (subscribers close s)
  /\ connected (disconnect (disconnect s)) = false
  /\ emitted (disconnect (disconnect s)) = emitted s ++ [SClose; SClose]
  /\ (if Provider.session_connected p
      then exists c, Provider.client p = Some c
                     /\ Provider.disconnect p
                        = {| Provider.client := Some (disconnect c);
                             Provider.logged := Provider.logged p |}
      else Provider.disconnect p = p)
  /\ Provider.disconnect (Provider.disconnect p) = Provider.disconnect p.
Proof.
  repeat split.
  - cbn. now rewrite <- app_assoc.
  - unfold Provider.session_connected, Provider.disconnect.
    destruct (Provider.client p) as [c|]; [|reflexivity].
    destruct (isConnected c); [now exists c | reflexivity].
  - unfold Provider.disconnect.
    destruct (Provider.client p) as [c|] eqn:Hc; [|now rewrite Hc].
    destruct (isConnected c) eqn:Hi; cbn; [reflexivity | now rewrite Hc, Hi].
Qed.

(** C7, as the code has it.  [sendConfig] of the client does not read the
    connection flag: on every client, connected or not, it writes its line
    to the logger and emits one ["config"] with the payload as given, each
    listener of ["config"] is called once with it, and nothing is queued or
    sent to the model.  The gate is in the handler of the provider: on a
    session that is not connected it changes nothing in the client, so no
    ["config"] is emitted or delivered, and writes one warning to the
    logger; on a connected session it calls the client, and no warning is
    written. *)
Theorem sendConfig_session_gate (cfg : Json) (b : bool) (s : State)
        (p : Provider.State) :
  sendConfig cfg (set_connected b s) = set_connected b (sendConfig cfg s)
  /\ emitted (sendConfig cfg s) = emitted s ++ [SConfig cfg]
  /\ delivered (sendConfig cfg s)
     = delivered s ++ map (fun l => (l, SConfig cfg)) (subscribers config s)
  /\ logged (sendConfig cfg s) = logged s ++ [(info, lit "Sending configuration:")]
  /\ connected (sendConfig cfg s) = connected s
  /\ frameQueue (sendConfig cfg s) = frameQueue s
  /\ fetched (sendConfig cfg s) = fetched s
  /\ analyses (sendConfig cfg s) = analyses s
  /\ let p' := Provider.sendConfig cfg p in
     if Provider.session_connected p
     then exists c c',
         Provider.client p = Some c /\ Provider.client p' = Some c'
         /\ emitted c' = emitted c ++ [SConfig cfg]
         /\ delivered c'
            = delivered c ++ map (fun l => (l, SConfig cfg)) (subscribers config c)
         /\ connected c' = true
         /\ Provider.logged p' = Provider.logged p
     else Provider.client p' = Provider.client p
          /\ Provider.logged p'
             = Provider.logged p
                 ++ [(warn, lit "Cannot send config: client not connected")].
Proof.
  repeat match goal with |- _ /\ _ => split end; try reflexivity.
  cbn zeta. unfold Provider.session_connected, Provider.sendConfig.
  destruct (Provider.client p) as [c|]; [|now split].
  destruct (isConnected c) eqn:Hc; [|now split].
  exists c, (sendConfig cfg c). repeat split. exact Hc.
Qed.

(** *** The statements at sample inputs *)

Lemma processViolations_confidence_gate_witness :
  In Examples.theViolation (produced 0 Examples.lookingAway)
  /\ emitted (processViolations 0 Examples.lookingAway Examples.watched)
     = [SViolation Examples.theViolation]
  /\ delivered (processViolations 0 Examples.lookingAway Examples.watched)
     = [(1%nat, SViolation Examples.theViolation)]
  /\ (confidenceThreshold Examples.watched <= confidence Examples.theViolation)%Q.
Proof.
  pose proof (processViolations_confidence_gate
                0 Examples.lookingAway Examples.watched)
    as (He & Hd & Hok & _ & _).
  split; [left; reflexivity|]. split; [exact He|]. split; [exact Hd|].
  apply Hok. left. reflexivity.
Defined.

Lemma single_analysis_in_flight_witness :
  analyses Examples.inFlight <> []
  /\ Forall is_submission Examples.burst
  /\ is_settlement Examples.answered
  /\ analyses (run Examples.burst Examples.inFlight) = analyses Examples.inFlight
  /\ (length (analysisCalls (step (run Examples.burst Examples.inFlight)
                                  Examples.answered)) <= 2)%nat
  /\ (length (analysisCalls
                (step (run Examples.burst
                           (step (run Examples.burst Examples.inFlight)
                                 Examples.answered))
                      (EJsonSettled (JsonValue Examples.lookingAway) 9000)))
      <= 2)%nat.
Proof.
  assert (H1 : analyses (run Examples.first Examples.client0) <> [])
    by discriminate.
  assert (H2 : Forall is_submission Examples.burst)
    by (repeat constructor).
  split; [exact H1|]. split; [exact H2|]. split; [exact I|].
  pose proof (single_analysis_in_flight
                (lit "https://test-api.example.com") (lit "test-api-key")
                Examples.first Examples.burst Examples.burst
                Examples.answered H1 H2 H2 I) as (_ & Ha & _ & Hc & _ & Hj).
  split; [exact Ha|]. split; [exact Hc|].
  exact (Hj (lit "OK") 5400%Z (JsonValue Examples.lookingAway) 9000%Z eq_refl).
Defined.

Lemma submitted_frame_fate_witness :
  completes Examples.queued Examples.failed
  /\ frameQueue (step Examples.queued Examples.failed) = []
  /\ analyses (step Examples.queued Examples.failed)
     = [AwaitFetch (frame_of Examples.frame3 5300)].
Proof.
  split; [exact I|].
  exact (proj2 (submitted_frame_fate
                  (lit "https://test-api.example.com") (lit "test-api-key")
                  (Examples.first ++ Examples.burst) Examples.frame1 0
                  Examples.failed) I).
Defined.

(** C4 as stated fails: a frame submitted while no analysis is in flight
    and before the interval has elapsed is not kept in the queue, and the
    next submission that is due sends its own frame only. *)
Lemma frame_not_retained_counterexample :
  analyses Examples.afterFailure = []
  /\ due 5500 Examples.afterFailure = false
  /\ last (frameQueue Examples.tooSoon) <> Some (frame_of Examples.frame2 5500)
  /\ frameQueue Examples.tooSoon = []
  /\ analysisCalls Examples.tooSoon = analysisCalls Examples.afterFailure
  /\ due 8000 Examples.tooSoon = true
  /\ map (fun c => data <$> body c)
         (analysisCalls (sendVideoFrame Examples.frame3 8000 Examples.tooSoon))
     = [Some (lit "AAAA"); Some (lit "CCCC")].
Proof.
  vm_compute. repeat split. discriminate.
Qed.

(** C8 as stated fails: a client that was never connected, or whose
    [connect] is still waiting, sends the frame to the model. *)
Lemma disconnected_frame_counterexample :
  isConnected Examples.client0 = false
  /\ analyses Examples.neverConnected = [AwaitFetch (frame_of Examples.frame1 5000)]
  /\ length (analysisCalls Examples.neverConnected) = 1%nat
  /\ isConnected (connect Examples.client0) = false
  /\ healthChecks (connect Examples.client0) = 1%nat
  /\ analyses Examples.connecting = [AwaitFetch (frame_of Examples.frame1 5000)]
  /\ length (analysisCalls Examples.connecting) = 1%nat.
Proof.
  vm_compute. repeat split.
Qed.

(** C9 as stated fails: [disconnect] on a client that is not connected
    emits ["close"] and calls the listener. *)
Lemma disconnect_signal_counterexample :
  isConnected Examples.closing = false
  /\ disconnect Examples.closing <> Examples.closing
  /\ emitted Examples.closing = []
  /\ emitted (disconnect Examples.closing) = [SClose]
  /\ delivered Examples.closing = []
  /\ delivered (disconnect Examples.closing) = [(7%nat, SClose)].
Proof.
  vm_compute. repeat split. discriminate.
Qed.

(** C7 as stated fails: [sendConfig] on a client that was never connected
    emits ["config"] and calls the listener with the payload; the logger
    gets the line of [sendConfig] and no warning. *)
Lemma sendConfig_unconnected_counterexample :
  isConnected Examples.configuring = false
  /\ emitted Examples.configuring = []
  /\ delivered Examples.configuring = []
  /\ emitted (sendConfig Examples.strictness Examples.configuring)
     = [SConfig Examples.strictness]
  /\ delivered (sendConfig Examples.strictness Examples.configuring)
     = [(7%nat, SConfig Examples.strictness)]
  /\ logged (sendConfig Examples.strictness Examples.configuring)
     = [(info, lit "Sending configuration:")].
Proof.
  vm_compute. repeat split.
Qed.

(** *** Further properties of the client *)

(** Running the queue is silent: it emits nothing and touches neither the
    connection nor the configuration. *)
Lemma finally_quiet now x :
  let s' := finally (processFrameQueue 2 now) x in
  emitted s' = emitted x /\ delivered s' = delivered x
  /\ connected s' = connected x /\ listeners s' = listeners x
  /\ apiKey s' = apiKey x /\ analysisInterval s' = analysisInterval x
  /\ healthChecks s' = healthChecks x.
Proof.
  cbn zeta. rewrite finally_eq.
  destruct (last (frameQueue x)); [destruct (due now x)|]; repeat split.
Qed.

Lemma sendVideoFrame_quiet fd now s :
  let s' := sendVideoFrame fd now s in
  emitted s' = emitted s /\ delivered s' = delivered s
  /\ connected s' = connected s /\ listeners s' = listeners s
  /\ apiKey s' = apiKey s /\ analysisInterval s' = analysisInterval s
  /\ healthChecks s' = healthChecks s.
Proof.
  cbn zeta. unfold sendVideoFrame. cbn [processingFrames set_frameQueue].
  destruct (processingFrames s) eqn:Hp; cbn [negb]; [repeat split|].
  rewrite processFrameQueue_eq by exact Hp.
  destruct (last _); [destruct (due now _)|]; repeat split.
Qed.

Lemma processViolations_quiet now v s :
  let s' := processViolations now v s in
  connected s' = connected s /\ listeners s' = listeners s.
Proof.
  pose proof (process_parts_fields now (response_parts v) s) as H.
  unfold processViolations. cbn zeta in *. intuition.
Qed.

(** The connection flag moves at two places only. *)
Lemma step_connected s e :
  connected (step s e) =
  match e with
  | EHealthSettled (Responded true _) =>
      match healthChecks s with O => connected s | S _ => true end
  | EDisconnect => false
  | _ => connected s
  end.
Proof.
  destruct e as [name l | | | r | | cfg | fd now | r now | r now]; cbn [step];
    try reflexivity.
  - unfold connect_resume. destruct (healthChecks s); [now destruct r as [|[|]]|].
    destruct r as [m | [|] st]; reflexivity.
  - apply sendVideoFrame_quiet.
  - unfold fetch_resume. destruct (analyses s) as [|[f|f] rest]; try reflexivity.
    destruct r as [m | [|] st]; [| reflexivity |];
      now rewrite (proj1 (proj2 (proj2 (finally_quiet now _)))).
  - unfold json_resume. destruct (analyses s) as [|[f|f] rest]; try reflexivity.
    destruct r as [m | v]; rewrite (proj1 (proj2 (proj2 (finally_quiet now _)))).
    + reflexivity.
    + now rewrite (proj1 (processViolations_quiet now v _)).
Qed.

(** X8 (connection flag).  The flag is cleared by [disconnect] alone and
    set by a successful health check alone: a failed health check, a failed
    analysis or any other event leaves a connected client connected and a
    disconnected one disconnected. *)
Theorem connection_flag_changes (s : State) (e : Event) :
  (connected s = true -> e <> EDisconnect -> connected (step s e) = true)
  /\ (connected s = false -> connected (step s e) = true ->
      exists statusText, e = EHealthSettled (Responded true statusText)
                         /\ healthChecks s <> 0%nat)
  /\ connected (step s EDisconnect) = false.
Proof.
  rewrite !step_connected. split; [|split; [|reflexivity]].
  - intros Hc Hne. destruct e as [| | | [m | [|] st] | | | | |]; try exact Hc.
    + now destruct (healthChecks s).
    + contradiction.
  - intros Hc H. destruct e as [| | | [m | [|] st] | | | | |]; try congruence.
    exists st. split; [reflexivity|]. destruct (healthChecks s); congruence.
Qed.

Lemma connection_flag_changes_witness :
  connected (step (connect Examples.client0) (EHealthSettled (Responded true (lit "OK"))))
  = true
  /\ connected
       (step (step (connect Examples.client0)
                   (EHealthSettled (Responded true (lit "OK"))))
             (EHealthSettled (Rejected (lit "Network error")))) = true.
Proof.
  assert (H : connected (step (connect Examples.client0)
                              (EHealthSettled (Responded true (lit "OK")))) = true)
    by reflexivity.
  split; [exact H|].
  apply (proj1 (connection_flag_changes _ (EHealthSettled (Rejected (lit "Network error")))));
    [exact H | discriminate].
Defined.

(** [processViolations] changes the records of the signals and nothing
    else. *)
Lemma emit_violations_only vs s :
  emit_violations vs s
  = set_signals (emitted (emit_violations vs s)) (delivered (emit_violations vs s)) s.
Proof.
  revert s; induction vs as [|v vs IH]; intros s; cbn [emit_violations].
  - now destruct s.
  - destruct (Qle_bool (confidenceThreshold s) (confidence v)); [|apply IH].
    rewrite (IH (emit (SViolation v) s)) at 1. reflexivity.
Qed.

Lemma processViolations_only now v s :
  processViolations now v s
  = set_signals (emitted (processViolations now v s))
                (delivered (processViolations now v s)) s.
Proof.
  unfold processViolations. generalize (response_parts v) as ps.
  intros ps. revert s; induction ps as [|p ps IH]; intros s; cbn [process_parts].
  - now destruct s.
  - destruct (part_text p) as [t|]; [|apply IH].
    rewrite (IH (emit_violations (extractViolations now t) s)) at 1.
    rewrite (emit_violations_only (extractViolations now t) s) at 3.
    reflexivity.
Qed.

Lemma analysisCalls_snoc s s' f key :
  fetched s' = fetched s ++ [analysisCall key f] ->
  analysisCalls s' = analysisCalls s ++ [analysisCall key f].
Proof.
  intros H. unfold analysisCalls. rewrite H, filter_app. reflexivity.
Qed.

Lemma analysisCalls_same s s' :
  fetched s' = fetched s -> analysisCalls s' = analysisCalls s.
Proof. intros H. unfold analysisCalls. now rewrite H. Qed.

(** The [finally] clause once more, with the call it may make. *)
Lemma finally_calls now x :
  analyses x = [] ->
  let s' := finally (processFrameQueue 2 now) x in
  frameQueue s' = []
  /\ ((analyses s' = [] /\ fetched s' = fetched x
       /\ lastAnalysisTime s' = lastAnalysisTime x)
      \/ (exists f, In f (frameQueue x) /\ due now x = true
                    /\ analyses s' = [AwaitFetch f]
                    /\ fetched s' = fetched x ++ [analysisCall (apiKey x) f]
                    /\ lastAnalysisTime s' = now)).
Proof.
  intros Ha. cbn zeta. rewrite finally_eq.
  destruct (last (frameQueue x)) as [f|] eqn:Hl.
  - destruct (due now x) eqn:Hd.
    + split; [reflexivity|]. right. exists f.
      split; [apply list_elem_of_In, last_Some_elem_of, Hl|].
      split; [reflexivity|]. cbn. rewrite Ha. now repeat split.
    + split; [reflexivity|]. left. now repeat split.
  - apply last_None in Hl. split; [exact Hl|]. left. now repeat split.
Qed.

(** One step from a settled state: where the frames held afterwards come
    from, and the one way in which a call is made. *)
Lemma step_trace s e :
  settled s ->
  incl (held (step s e)) (held s ++ offered e)
  /\ ((analysisCalls (step s e) = analysisCalls s
       /\ lastAnalysisTime (step s e) = lastAnalysisTime s)
      \/ (exists f, In f (held s ++ offered e)
                    /\ due (time_of e) s = true
                    /\ lastAnalysisTime (step s e) = time_of e
                    /\ analysisCalls (step s e)
                       = analysisCalls s ++ [analysisCall (apiKey s) f])).
Proof.
  intros Hs.
  assert (Hsame : forall s', held s' = held s ->
                             analysisCalls s' = analysisCalls s ->
                             lastAnalysisTime s' = lastAnalysisTime s ->
                             incl (held s') (held s ++ offered e)
                             /\ ((analysisCalls s' = analysisCalls s
                                  /\ lastAnalysisTime s' = lastAnalysisTime s)
                                 \/ (exists f, In f (held s ++ offered e)
                                       /\ due (time_of e) s = true
                                       /\ lastAnalysisTime s' = time_of e
                                       /\ analysisCalls s'
                                          = analysisCalls s ++ [analysisCall (apiKey s) f]))).
  { intros s' Hh Hf Ht. split; [rewrite Hh; now apply incl_appl|].
    left. split; [exact Hf | exact Ht]. }
  assert (Hfin : forall x now,
             time_of e = now ->
             analyses x = [] -> frameQueue x = frameQueue s ->
             fetched x = fetched s -> lastAnalysisTime x = lastAnalysisTime s ->
             analysisInterval x = analysisInterval s -> apiKey x = apiKey s ->
             incl (held (finally (processFrameQueue 2 now) x)) (held s ++ offered e)
             /\ ((analysisCalls (finally (processFrameQueue 2 now) x) = analysisCalls s
                  /\ lastAnalysisTime (finally (processFrameQueue 2 now) x)
                     = lastAnalysisTime s)
                 \/ (exists f, In f (held s ++ offered e)
                       /\ due (time_of e) s = true
                       /\ lastAnalysisTime (finally (processFrameQueue 2 now) x)
                          = time_of e
                       /\ analysisCalls (finally (processFrameQueue 2 now) x)
                          = analysisCalls s ++ [analysisCall (apiKey s) f]))).
  { intros x now Hnow Ha Hq Hf Ht Hi Hk.
    destruct (finally_calls now x Ha) as [Hq' [(Ha' & Hf' & Ht') | (f & Hin & Hd & Ha' & Hf' & Ht')]];
      cbn zeta in *.
    - split; [unfold held; rewrite Hq', Ha'; intros y []|].
      left. split; [apply analysisCalls_same; congruence | congruence].
    - assert (Hin' : In f (held s ++ offered e)).
      { apply in_or_app. left. unfold held. apply in_or_app. left. congruence. }
      split.
      + unfold held at 1. rewrite Hq', Ha'. cbn. intros y [<- | []]. exact Hin'.
      + right. exists f. split; [exact Hin'|]. split.
        * unfold due in *. rewrite Hnow. congruence.
        * split; [congruence|]. rewrite <- Hk.
          rewrite (analysisCalls_snoc x _ f (apiKey x) Hf').
          f_equal. now apply analysisCalls_same. }
  destruct e as [name l | | | r | | cfg | fd now | r now | r now]; cbn [step].
  - now apply Hsame.
  - now apply Hsame.
  - apply Hsame; try reflexivity. apply analysisCalls_connect.
  - apply Hsame; unfold connect_resume; destruct (healthChecks s);
      try reflexivity; destruct r as [m | [|] st]; reflexivity.
  - now apply Hsame.
  - now apply Hsame.
  - rewrite sendVideoFrame_settled by exact Hs.
    destruct (analyses s) as [|a rest] eqn:Ha; cbn [is_empty].
    + destruct (settled_idle s Hs Ha) as (Hp & _ & Hq).
      destruct (due now s) eqn:Hd; [|now apply Hsame].
      assert (Hin : In (frame_of fd now) (held s ++ offered (ESendVideoFrame fd now)))
        by (apply in_or_app; right; now left).
      split.
      * unfold held at 1. cbn. rewrite Hq, Ha. cbn. intros y [<- | []]. exact Hin.
      * right. exists (frame_of fd now). split; [exact Hin|].
        split; [exact Hd|]. split; [reflexivity|].
        apply analysisCalls_snoc. reflexivity.
    + split.
      * unfold held. cbn [frameQueue analyses set_frameQueue offered].
        intros y Hy. rewrite !in_app_iff in *. cbn [In]. tauto.
      * left. split; reflexivity.
  - unfold fetch_resume. destruct (analyses s) as [|[f|f] rest] eqn:Ha;
      [now apply Hsame | | now apply Hsame].
    assert (rest = []) as ->.
    { destruct Hs as [(_ & H & _) | (_ & a & H)]; congruence. }
    destruct r as [m | [|] st].
    + now apply Hfin.
    + apply Hsame; try reflexivity. unfold held. cbn. now rewrite Ha.
    + now apply Hfin.
  - unfold json_resume. destruct (analyses s) as [|[f|f] rest] eqn:Ha;
      [now apply Hsame | now apply Hsame |].
    assert (rest = []) as ->.
    { destruct Hs as [(_ & H & _) | (_ & a & H)]; congruence. }
    destruct r as [m | v]; [now apply Hfin|].
    rewrite processViolations_only. now apply Hfin.
Qed.

(** Nothing assigns the configuration of a client. *)
Lemma step_constants s e :
  url (step s e) = url s /\ apiKey (step s e) = apiKey s
  /\ analysisInterval (step s e) = analysisInterval s
  /\ confidenceThreshold (step s e) = confidenceThreshold s.
Proof.
  assert (Hfin : forall now x,
             url (finally (processFrameQueue 2 now) x) = url x
             /\ apiKey (finally (processFrameQueue 2 now) x) = apiKey x
             /\ analysisInterval (finally (processFrameQueue 2 now) x)
                = analysisInterval x
             /\ confidenceThreshold (finally (processFrameQueue 2 now) x)
                = confidenceThreshold x).
  { intros now x. rewrite finally_eq.
    destruct (last (frameQueue x)); [destruct (due now x)|]; now repeat split. }
  destruct e as [name l | | | r | | cfg | fd now | r now | r now]; cbn [step];
    try (now repeat split).
  - unfold connect_resume. destruct (healthChecks s); [now repeat split|].
    destruct r as [m | [|] st]; now repeat split.
  - unfold sendVideoFrame. cbn [processingFrames set_frameQueue].
    destruct (processingFrames s) eqn:Hp; cbn [negb]; [now repeat split|].
    rewrite processFrameQueue_eq by exact Hp.
    destruct (last _); [destruct (due now _)|]; now repeat split.
  - unfold fetch_resume. destruct (analyses s) as [|[f|f] rest]; try (now repeat split).
    destruct r as [m | [|] st];
      [exact (Hfin _ _) | now repeat split | exact (Hfin _ _)].
  - unfold json_resume. destruct (analyses s) as [|[f|f] rest]; try (now repeat split).
    destruct r as [m | v]; [exact (Hfin _ _)|].
    rewrite processViolations_only. exact (Hfin _ _).
Qed.

Lemma run_constants evs s :
  url (run evs s) = url s /\ apiKey (run evs s) = apiKey s
  /\ analysisInterval (run evs s) = analysisInterval s
  /\ confidenceThreshold (run evs s) = confidenceThreshold s.
Proof.
  revert s; induction evs as [|e evs IH]; intros s; [now repeat split|].
  cbn [run fold_left]. fold (run evs (step s e)).
  destruct (IH (step s e)) as (H1 & H2 & H3 & H4).
  destruct (step_constants s e) as (G1 & G2 & G3 & G4).
  repeat split; congruence.
Qed.

(** X9 (flags and queue).  In every state the client reaches,
    [processingFrames] is set exactly when one analysis is in flight, the
    queue is empty whenever none is, and the interval, the threshold and
    the key are those of the constructor: 2000 ms, 0.7 and the key given. *)
Theorem client_invariant (url key : list N) (evs : list Event) :
  let s := run evs (new url key) in
  (processingFrames s = true <-> exists a, analyses s = [a])
  /\ (processingFrames s = false <-> analyses s = [])
  /\ (analyses s = [] -> frameQueue s = [])
  /\ analysisInterval s = 2000%Z
  /\ confidenceThreshold s = 7 # 10
  /\ apiKey s = key.
Proof.
  cbn zeta.
  assert (Hs : settled (run evs (new url key)))
    by (apply run_settled; left; apply new_idle).
  destruct (run_constants evs (new url key)) as (_ & Hk & Hi & Ht).
  split; [|split; [|split; [|split; [|split]]]]; try assumption.
  - destruct Hs as [(Hp & Ha & _) | (Hp & a & Ha)].
    + split; [congruence | intros [a Ha']; congruence].
    + split; [now exists a | intros _; exact Hp].
  - destruct Hs as [(Hp & Ha & _) | (Hp & a & Ha)].
    + now split.
    + split; congruence.
  - intros Ha. now destruct (settled_idle _ Hs Ha) as (_ & _ & Hq).
Qed.

Lemma client_invariant_witness :
  processingFrames Examples.queued = true
  /\ (exists a, analyses Examples.queued = [a])
  /\ analyses Examples.afterFailure = []
  /\ frameQueue Examples.afterFailure = [].
Proof.
  unfold Examples.queued, Examples.afterFailure, Examples.client0.
  destruct (client_invariant (lit "https://test-api.example.com") (lit "test-api-key")
                             (Examples.first ++ Examples.burst))
    as (H1 & _).
  destruct (client_invariant (lit "https://test-api.example.com") (lit "test-api-key")
              [ ESendVideoFrame Examples.frame1 5000;
                EFetchSettled (Rejected (lit "Network error")) 5100 ])
    as (_ & H2 & H3 & _).
  split; [now vm_compute|]. split; [apply H1; now vm_compute|].
  assert (Ha : analyses (run [ ESendVideoFrame Examples.frame1 5000;
                               EFetchSettled (Rejected (lit "Network error")) 5100 ]
                             (new (lit "https://test-api.example.com")
                                  (lit "test-api-key"))) = [])
    by (apply H2; now vm_compute).
  split; [exact Ha | exact (H3 Ha)].
Defined.

(** X10 (cadence).  A step of a client makes at most one remote-model call,
    and makes it only when at least 2000 ms have passed since the time it
    recorded for the previous one; it then records the time of the step.
    A step that makes no call leaves the recorded time as it is. *)
Theorem analysis_cadence (url key : list N) (evs : list Event) (e : Event) :
  let s := run evs (new url key) in
  (analysisCalls (step s e) = analysisCalls s
   /\ lastAnalysisTime (step s e) = lastAnalysisTime s)
  \/ (exists f, (2000 <= time_of e - lastAnalysisTime s)%Z
                /\ lastAnalysisTime (step s e) = time_of e
                /\ analysisCalls (step s e) = analysisCalls s ++ [analysisCall key f]).
Proof.
  cbn zeta.
  assert (Hs : settled (run evs (new url key)))
    by (apply run_settled; left; apply new_idle).
  destruct (run_constants evs (new url key)) as (_ & Hk & Hi & _).
  destruct (step_trace _ e Hs) as [_ [H | (f & _ & Hd & Ht & Hc)]]; [now left|].
  right. exists f. unfold due in Hd. rewrite Hi in Hd. cbn in Hd.
  apply Z.leb_le in Hd. rewrite Hk in Hc. now repeat split.
Qed.

(** X11 (no frame from nowhere).  Every remote-model call a client has made
    is the POST of [analyzeFrame], with the key of the client, for a frame
    that some [sendVideoFrame] of the run handed in. *)
Theorem calls_are_submitted_frames (url key : list N) (evs : list Event) :
  Forall (fun c => exists f, submitted evs f /\ c = analysisCall key f)
         (analysisCalls (run evs (new url key))).
Proof.
  assert (H : Forall (submitted evs) (held (run evs (new url key)))
              /\ Forall (fun c => exists f, submitted evs f /\ c = analysisCall key f)
                        (analysisCalls (run evs (new url key)))); [|apply H].
  induction evs as [|e evs IH] using rev_ind.
  - split; constructor.
  - rewrite run_app. cbn [run fold_left]. fold (run evs (new url key)).
    set (s := run evs (new url key)) in *.
    assert (Hs : settled s) by (apply run_settled; left; apply new_idle).
    assert (Hk : apiKey s = key) by apply (run_constants evs (new url key)).
    assert (Hmono : forall f, submitted evs f -> submitted (evs ++ [e]) f).
    { intros f (fd & now & Hin & ->). exists fd, now.
      split; [apply in_or_app; now left | reflexivity]. }
    assert (Hheld : forall f, In f (held s ++ offered e) -> submitted (evs ++ [e]) f).
    { intros f Hin. apply in_app_or in Hin as [Hin | Hin].
      - apply Hmono. destruct IH as [IH _]. rewrite Forall_forall in IH.
        apply IH, list_elem_of_In, Hin.
      - destruct e; try contradiction Hin. destruct Hin as [<- | []].
        eexists _, _. split; [apply in_or_app; right; now left | reflexivity]. }
    destruct (step_trace s e Hs) as [Hincl Hcalls]. split.
    + apply Forall_forall. intros f Hf. apply Hheld, Hincl, list_elem_of_In, Hf.
    + destruct IH as [_ IH].
      assert (IH' : Forall (fun c => exists f, submitted (evs ++ [e]) f
                                               /\ c = analysisCall key f)
                           (analysisCalls s)).
      { eapply Forall_impl; [exact IH|]. intros c (f & Hf & ->). eauto. }
      destruct Hcalls as [[-> _] | (f & Hin & _ & _ & ->)]; [exact IH'|].
      apply Forall_app. split; [exact IH'|]. constructor; [|constructor].
      exists f. split; [now apply Hheld | now rewrite Hk].
Qed.

(** X12 (failed analysis).  When the analysis in flight fails (the [fetch]
    is rejected, the answer has an error status, or its body cannot be
    read) the client emits one ["error"] with the message, calls each
    listener of ["error"] once, and leaves the connection flag as it is. *)
Theorem failed_analysis_is_one_error (s : State) (e : Event) (m : list N) :
  completes s e -> failure_of e = Some m ->
  emitted (step s e) = emitted s ++ [SError m]
  /\ delivered (step s e)
     = delivered s ++ map (fun l => (l, SError m)) (subscribers error s)
  /\ connected (step s e) = connected s.
Proof.
  unfold completes. intros Hc Hm.
  assert (Hcatch : forall t msg rest,
             let s' := finally (processFrameQueue 2 t)
                               (analyzeFrame_catch msg (set_analyses rest s)) in
             emitted s' = emitted s ++ [SError msg]
             /\ delivered s'
                = delivered s ++ map (fun l => (l, SError msg)) (subscribers error s)
             /\ connected s' = connected s).
  { intros t msg rest. cbn zeta.
    destruct (finally_quiet t (analyzeFrame_catch msg (set_analyses rest s)))
      as (-> & -> & -> & _). repeat split. }
  destruct e as [| | | | | | | r t | r t]; try discriminate Hm; cbn [step].
  - unfold fetch_resume.
    destruct (analyses s) as [|[f|f] rest];
      try (destruct r as [? | [|] ?]; contradiction Hc).
    destruct r as [m' | [|] st]; [| contradiction Hc |];
      cbn [failure_of] in Hm; injection Hm as <-; apply Hcatch.
  - unfold json_resume.
    destruct (analyses s) as [|[f|f] rest]; try contradiction Hc.
    destruct r as [m' | v]; [|discriminate Hm].
    cbn [failure_of] in Hm. injection Hm as <-. apply Hcatch.
Qed.

Lemma failed_analysis_is_one_error_witness :
  completes Examples.queued Examples.failed
  /\ failure_of Examples.failed = Some (lit "Network error")
  /\ emitted (step Examples.queued Examples.failed) = [SError (lit "Network error")]
  /\ connected (step Examples.queued Examples.failed) = false.
Proof.
  split; [exact I|]. split; [reflexivity|].
  destruct (failed_analysis_is_one_error Examples.queued Examples.failed
                                         (lit "Network error") I eq_refl)
    as (H1 & _ & H3).
  split; [exact H1 | exact H3].
Defined.

Lemma after_comma_aux_none s : no_comma s = true -> after_comma_aux s = None.
Proof.
  induction s as [|c s IH]; [reflexivity|].
  cbn [no_comma forallb after_comma_aux]. intros H. apply andb_prop in H as [Hc Hs].
  destruct (c =? 0x2C); [discriminate Hc | now apply IH].
Qed.

Lemma after_comma_aux_first p d :
  no_comma p = true -> after_comma_aux (p ++ 0x2C :: d) = Some d.
Proof.
  induction p as [|c p IH]; [reflexivity|].
  cbn [no_comma forallb app after_comma_aux]. intros H.
  apply andb_prop in H as [Hc Hp].
  destruct (c =? 0x2C); [discriminate Hc | now apply IH].
Qed.

(** X13 (data URL).  Of a data URL [prefix,payload] the client sends the
    payload, that is what follows the first comma; a string without a comma
    is sent whole.  The call made for a frame that is analysed at once
    carries exactly that text as its image data. *)
Theorem frame_payload (prefix payload fd : list N) (now : Z) (s : State) :
  no_comma prefix = true -> no_comma fd = true -> idle s -> due now s = true ->
  after_comma (prefix ++ 0x2C :: payload) = payload
  /\ after_comma fd = fd
  /\ analysisCalls (sendVideoFrame (prefix ++ 0x2C :: payload) now s)
     = analysisCalls s
         ++ [analysisCall (apiKey s)
               {| imageData := payload; frameTimestamp := now;
                  width := 640; height := 480; quality := 8 # 10 |}]
  /\ data <$> body (analysisCall (apiKey s) (frame_of (prefix ++ 0x2C :: payload) now))
     = Some payload.
Proof.
  intros Hp Hfd Hi Hd.
  assert (H1 : after_comma (prefix ++ 0x2C :: payload) = payload)
    by (unfold after_comma; now rewrite after_comma_aux_first).
  split; [exact H1|]. split.
  { unfold after_comma. now rewrite after_comma_aux_none. }
  split.
  - rewrite sendVideoFrame_idle, Hd by exact Hi.
    rewrite analysisCalls_analyzeFrame. unfold frame_of. rewrite H1. reflexivity.
  - cbn. now rewrite H1.
Qed.

Lemma frame_payload_witness :
  no_comma (lit "data:image/jpeg;base64") = true
  /\ no_comma (lit "AAAA") = true
  /\ idle Examples.client0 /\ due 5000 Examples.client0 = true
  /\ after_comma Examples.frame1 = lit "AAAA"
  /\ data <$> body (analysisCall (lit "test-api-key") (frame_of Examples.frame1 5000))
     = Some (lit "AAAA").
Proof.
  assert (Hi : idle Examples.client0) by (repeat split).
  destruct (frame_payload (lit "data:image/jpeg;base64") (lit "AAAA") (lit "AAAA")
                          5000 Examples.client0 eq_refl eq_refl Hi eq_refl)
    as (H1 & _ & _ & H4).
  split; [reflexivity|]. split; [reflexivity|]. split; [exact Hi|].
  split; [reflexivity|]. split; [exact H1 | exact H4].
Defined.

Lemma link_app a b : link (a ++ b) = fold_left link_after b (link a).
Proof. unfold link. apply fold_left_app. Qed.

Lemma link_after_violations vs up :
  fold_left link_after (map SViolation vs) up = up.
Proof. revert up; induction vs as [|v vs IH]; intros up; [reflexivity | apply IH]. Qed.

(** What a step emits, and what that does to the flag. *)
Lemma step_link s e :
  exists out, emitted (step s e) = emitted s ++ out
              /\ connected (step s e) = fold_left link_after out (connected s).
Proof.
  assert (Hfin : forall now x out,
             emitted x = emitted s ++ out ->
             connected x = fold_left link_after out (connected s) ->
             exists out', emitted (finally (processFrameQueue 2 now) x)
                          = emitted s ++ out'
                          /\ connected (finally (processFrameQueue 2 now) x)
                             = fold_left link_after out' (connected s)).
  { intros now x out He Hc. exists out.
    destruct (finally_quiet now x) as (-> & _ & -> & _). now split. }
  destruct e as [name l | | | r | | cfg | fd now | r now | r now]; cbn [step].
  - exists []. now rewrite app_nil_r.
  - exists []. now rewrite app_nil_r.
  - exists []. now rewrite app_nil_r.
  - unfold connect_resume. destruct (healthChecks s);
      [exists []; now rewrite app_nil_r|].
    destruct r as [m | [|] st].
    + now exists [SError m].
    + now exists [SOpen].
    + now exists [SError (lit "Failed to connect to Gemini API")].
  - now exists [SClose].
  - now exists [SConfig cfg].
  - exists []. destruct (sendVideoFrame_quiet fd now s) as (-> & _ & -> & _).
    now rewrite app_nil_r.
  - unfold fetch_resume. destruct (analyses s) as [|[f|f] rest];
      try (exists []; now rewrite app_nil_r).
    destruct r as [m | [|] st].
    + now apply (Hfin now _ [SError m]).
    + exists []. now rewrite app_nil_r.
    + now apply (Hfin now _ [SError (lit "API request failed: " ++ st)]).
  - unfold json_resume. destruct (analyses s) as [|[f|f] rest];
      try (exists []; now rewrite app_nil_r).
    destruct r as [m | v]; [now apply (Hfin now _ [SError m])|].
    destruct (process_parts_signals now (response_parts v) (set_analyses rest s))
      as [He _].
    destruct (processViolations_quiet now v (set_analyses rest s)) as [Hc _].
    cbn zeta in He, Hc. unfold processViolations in *.
    eapply Hfin; [exact He|]. now rewrite link_after_violations.
Qed.

(** X14 (flag and signals).  In every state the client reaches, the
    connection flag is what the signals say: it is set exactly when the
    last ["open"] or ["close"] emitted so far is an ["open"]. *)
Theorem flag_follows_signals (url key : list N) (evs : list Event) :
  connected (run evs (new url key)) = link (emitted (run evs (new url key))).
Proof.
  assert (H : forall s, connected s = link (emitted s) ->
                        connected (run evs s) = link (emitted (run evs s))).
  { induction evs as [|e evs IH]; intros s Hs; [exact Hs|].
    cbn [run fold_left]. apply IH.
    destruct (step_link s e) as (out & -> & ->). now rewrite link_app, Hs. }
  apply H. reflexivity.
Qed.

(** *** The provider and its listeners *)

Lemma calls_of_nil s : calls_of s [] = [].
Proof. reflexivity. Qed.

Lemma calls_of_violations s vs :
  calls_of s (map SViolation vs)
  = deliveries (subscribers violation s) (map SViolation vs).
Proof.
  unfold calls_of, deliveries. f_equal. rewrite !map_map. reflexivity.
Qed.

(** What a step emits and whom it calls. *)
Lemma step_signals s e :
  exists out,
    emitted (step s e) = emitted s ++ out
    /\ delivered (step s e) = delivered s ++ calls_of s out
    /\ connected (step s e) = fold_left link_after out (connected s).
Proof.
  assert (Hnil : forall s', emitted s' = emitted s -> delivered s' = delivered s ->
                            connected s' = connected s ->
                            exists out, emitted s' = emitted s ++ out
                                        /\ delivered s' = delivered s ++ calls_of s out
                                        /\ connected s'
                                           = fold_left link_after out (connected s)).
  { intros s' He Hd Hc. exists []. now rewrite calls_of_nil, !app_nil_r. }
  assert (Hone : forall s' sg, emitted s' = emitted s ++ [sg] ->
                               delivered s'
                               = delivered s
                                   ++ map (fun l => (l, sg)) (subscribers (name_of sg) s) ->
                               connected s' = link_after (connected s) sg ->
                               exists out, emitted s' = emitted s ++ out
                                           /\ delivered s' = delivered s ++ calls_of s out
                                           /\ connected s'
                                              = fold_left link_after out (connected s)).
  { intros s' sg He Hd Hc. exists [sg]. unfold calls_of. cbn [map concat].
    now rewrite app_nil_r. }
  assert (Hfin : forall now x,
             (exists out, emitted x = emitted s ++ out
                          /\ delivered x = delivered s ++ calls_of s out
                          /\ connected x = fold_left link_after out (connected s)) ->
             exists out, emitted (finally (processFrameQueue 2 now) x) = emitted s ++ out
                         /\ delivered (finally (processFrameQueue 2 now) x)
                            = delivered s ++ calls_of s out
                         /\ connected (finally (processFrameQueue 2 now) x)
                            = fold_left link_after out (connected s)).
  { intros now x (out & He & Hd & Hc). exists out.
    destruct (finally_quiet now x) as (-> & -> & -> & _). now repeat split. }
  destruct e as [name l | | | r | | cfg | fd now | r now | r now]; cbn [step].
  - now apply Hnil.
  - now apply Hnil.
  - now apply Hnil.
  - unfold connect_resume. destruct (healthChecks s); [now apply Hnil|].
    destruct r as [m | [|] st].
    + now apply (Hone _ (SError m)).
    + now apply (Hone _ SOpen).
    + now apply (Hone _ (SError (lit "Failed to connect to Gemini API"))).
  - now apply (Hone _ SClose).
  - now apply (Hone _ (SConfig cfg)).
  - destruct (sendVideoFrame_quiet fd now s) as (He & Hd & Hc & _).
    now apply Hnil.
  - unfold fetch_resume. destruct (analyses s) as [|[f|f] rest];
      try (now apply Hnil).
    destruct r as [m | [|] st].
    + apply Hfin. now apply (Hone _ (SError m)).
    + now apply Hnil.
    + apply Hfin. now apply (Hone _ (SError (lit "API request failed: " ++ st))).
  - unfold json_resume. destruct (analyses s) as [|[f|f] rest];
      try (now apply Hnil).
    destruct r as [m | v]; apply Hfin; [now apply (Hone _ (SError m))|].
    destruct (process_parts_signals now (response_parts v) (set_analyses rest s))
      as [He Hd].
    destruct (processViolations_quiet now v (set_analyses rest s)) as [Hc _].
    cbn zeta in He, Hd, Hc. unfold processViolations in *.
    eexists. split; [exact He|]. split.
    + rewrite Hd, calls_of_violations. reflexivity.
    + now rewrite link_after_violations.
Qed.

Lemma step_listeners s e :
  listeners (step s e) =
  match e with
  | EOn name l => listeners s ++ [(name, l)]
  | ERemoveAllListeners => []
  | _ => listeners s
  end.
Proof.
  destruct e as [name l | | | r | | cfg | fd now | r now | r now]; cbn [step];
    try reflexivity.
  - unfold connect_resume. destruct (healthChecks s); [reflexivity|].
    destruct r as [m | [|] st]; reflexivity.
  - apply sendVideoFrame_quiet.
  - unfold fetch_resume. destruct (analyses s) as [|[f|f] rest]; try reflexivity.
    destruct r as [m | [|] st]; [| reflexivity |];
      now rewrite (proj1 (proj2 (proj2 (proj2 (finally_quiet now _))))).
  - unfold json_resume. destruct (analyses s) as [|[f|f] rest]; try reflexivity.
    destruct r as [m | v];
      rewrite (proj1 (proj2 (proj2 (proj2 (finally_quiet now _))))); [reflexivity|].
    now rewrite (proj2 (processViolations_quiet now v _)).
Qed.

Lemma subscribers_In name l s :
  In l (subscribers name s) <-> In (name, l) (listeners s).
Proof.
  unfold subscribers. rewrite in_map_iff. split.
  - intros ([n l'] & <- & Hin). apply list_elem_of_In, list_elem_of_filter in Hin.
    destruct Hin as [Hn Hin]. cbn in Hn. apply list_elem_of_In in Hin.
    destruct n, name; try discriminate Hn; exact Hin.
  - intros Hin. exists (name, l). split; [reflexivity|].
    apply list_elem_of_In, list_elem_of_filter. split; [|now apply list_elem_of_In].
    cbn. now destruct name.
Qed.

Lemma setConnected_calls sg subs :
  forall up,
    (In Provider.openHandler subs -> ~ In Provider.closeHandler subs ->
     fold_left Provider.setConnected (map (fun l => (l, sg)) subs) up = true)
    /\ (In Provider.closeHandler subs -> ~ In Provider.openHandler subs ->
        fold_left Provider.setConnected (map (fun l => (l, sg)) subs) up = false)
    /\ (~ In Provider.openHandler subs -> ~ In Provider.closeHandler subs ->
        fold_left Provider.setConnected (map (fun l => (l, sg)) subs) up = up).
Proof.
  unfold Provider.openHandler, Provider.closeHandler.
  induction subs as [|l subs IH]; intros up.
  - cbn. tauto.
  - cbn [map fold_left In].
    destruct (IH (Provider.setConnected up (l, sg))) as (IH1 & IH2 & IH3).
    destruct (in_dec Nat.eq_dec 0%nat subs) as [H0 | H0];
      destruct (in_dec Nat.eq_dec 1%nat subs) as [H1 | H1];
      (split; [|split]); intros Ha Hb; try tauto.
    + rewrite IH3 by assumption. destruct Ha as [-> | Ha]; [reflexivity | tauto].
    + rewrite IH3 by assumption. destruct Ha as [-> | Ha]; [reflexivity | tauto].
    + rewrite IH3 by assumption. unfold Provider.setConnected. cbn [fst].
      unfold Provider.openHandler, Provider.closeHandler.
      destruct l as [|[|l]]; [tauto | tauto | reflexivity].
Qed.

Lemma wired_calls s sg up :
  Provider.wired (listeners s) ->
  fold_left Provider.setConnected
            (map (fun l => (l, sg)) (subscribers (name_of sg) s)) up
  = link_after up sg.
Proof.
  intros (Ho & Hc & Ho' & Hc').
  assert (Hopen : In Provider.openHandler (subscribers (name_of sg) s)
                  <-> name_of sg = open).
  { rewrite subscribers_In. split; [apply Ho' | now intros ->]. }
  assert (Hclose : In Provider.closeHandler (subscribers (name_of sg) s)
                   <-> name_of sg = close).
  { rewrite subscribers_In. split; [apply Hc' | now intros ->]. }
  destruct (setConnected_calls sg (subscribers (name_of sg) s) up) as (H1 & H2 & H3).
  destruct sg; cbn [name_of link_after] in *.
  - apply H1; [now apply Hopen | rewrite Hclose; discriminate].
  - apply H2; [now apply Hclose | rewrite Hopen; discriminate].
  - apply H3; [rewrite Hopen | rewrite Hclose]; discriminate.
  - apply H3; [rewrite Hopen | rewrite Hclose]; discriminate.
  - apply H3; [rewrite Hopen | rewrite Hclose]; discriminate.
Qed.

Lemma wired_calls_of s out up :
  Provider.wired (listeners s) ->
  fold_left Provider.setConnected (calls_of s out) up = fold_left link_after out up.
Proof.
  intros Hw. revert up; induction out as [|sg out IH]; intros up; [reflexivity|].
  unfold calls_of. cbn [map concat fold_left]. rewrite fold_left_app.
  rewrite wired_calls by exact Hw. apply IH.
Qed.

Lemma wired_on name l ls :
  (1 < l)%nat -> Provider.wired ls -> Provider.wired (ls ++ [(name, l)]).
Proof.
  unfold Provider.wired, Provider.openHandler, Provider.closeHandler.
  intros Hl (Ho & Hc & Ho' & Hc').
  split; [apply in_or_app; now left|]. split; [apply in_or_app; now left|].
  split; intros n Hin; apply in_app_or in Hin as [Hin | [Heq | []]];
    auto; injection Heq as _ Heq; lia.
Qed.

Lemma mount_wired apiUrl key onViolation c :
  Provider.mount apiUrl (Some key) onViolation = Some c ->
  (forall l, onViolation = Some l -> (2 < l)%nat) ->
  Provider.wired (listeners c) /\ delivered c = [] /\ connected c = false
  /\ emitted c = [].
Proof.
  unfold Provider.mount. destruct key as [|k key]; [discriminate|].
  intros [= <-] Hl.
  assert (Hw : Provider.wired [(open, Provider.openHandler);
                               (close, Provider.closeHandler);
                               (error, Provider.errorHandler)]).
  { unfold Provider.wired, Provider.openHandler, Provider.closeHandler,
      Provider.errorHandler. cbn [In].
    repeat split; try tauto; intros n [[= ->] | [[= ->] | [[= ->] | []]]];
      try reflexivity; discriminate. }
  destruct onViolation as [l|]; cbn.
  - split; [|now repeat split].
    apply (wired_on violation l _) in Hw; [exact Hw|]. specialize (Hl l eq_refl). lia.
  - split; [exact Hw | now repeat split].
Qed.

(** X15 (the flag of the context).  For a client built by the effect of
    the provider, as long as nobody removes the listeners, the [connected]
    state that the ["open"] and ["close"] listeners set in the component is
    the connection flag of the client, after every run of events. *)
Theorem context_flag_mirrors_client
        (apiUrl key : list N) (onViolation : option nat) (c : State)
        (evs : list Event) :
  Provider.mount apiUrl (Some key) onViolation = Some c ->
  (forall l, onViolation = Some l -> (2 < l)%nat) ->
  Forall (keeps_listeners 2) evs ->
  Provider.connectedState (delivered (run evs c)) = isConnected (run evs c).
Proof.
  intros Hm Hl Hevs. destruct (mount_wired _ _ _ _ Hm Hl) as (Hw & Hd & Hc & _).
  assert (H : forall s, Provider.wired (listeners s) ->
                        Provider.connectedState (delivered s) = connected s ->
                        Provider.connectedState (delivered (run evs s))
                        = connected (run evs s)).
  { induction Hevs as [|e evs He _ IH]; intros s Hws Hs; [exact Hs|].
    cbn [run fold_left]. apply IH.
    - rewrite step_listeners. destruct e; try exact Hws; cbn in He.
      + apply wired_on; [lia | exact Hws].
      + contradiction.
    - destruct (step_signals s e) as (out & _ & -> & ->).
      unfold Provider.connectedState in *. rewrite fold_left_app, Hs.
      now apply wired_calls_of. }
  apply H; [exact Hw|]. now rewrite Hd, Hc.
Qed.

Lemma context_flag_mirrors_client_witness :
  Provider.mount (lit "https://test-api.example.com") (Some (lit "test-api-key")) (Some 3%nat)
  = Some (on violation 3 (on error 2 (on close 1 (on open 0 Examples.client0))))
  /\ Forall (keeps_listeners 2)
            [EOn violation 4; EConnect; EHealthSettled (Responded true (lit "OK"))]
  /\ Provider.connectedState
       (delivered
          (run [EOn violation 4; EConnect; EHealthSettled (Responded true (lit "OK"))]
               (on violation 3 (on error 2 (on close 1 (on open 0 Examples.client0))))))
     = true.
Proof.
  assert (H1 : Provider.mount (lit "https://test-api.example.com")
                              (Some (lit "test-api-key")) (Some 3%nat)
               = Some (on violation 3 (on error 2 (on close 1 (on open 0 Examples.client0)))))
    by reflexivity.
  assert (H2 : Forall (keeps_listeners 2)
                      [EOn violation 4; EConnect;
                       EHealthSettled (Responded true (lit "OK"))])
    by (repeat constructor).
  split; [exact H1|]. split; [exact H2|].
  rewrite (context_flag_mirrors_client _ _ _ _ _ H1
             ltac:(intros l [= <-]; repeat constructor) H2).
  now vm_compute.
Defined.

(** X16 (cleanup).  The cleanup of the effect takes the listeners off
    before it disconnects: the client ends disconnected, the ["close"] it
    emits when it was connected reaches no listener, and so the [connected]
    state of the component keeps the value it had. *)
Theorem cleanup_is_silent (c : State) :
  isConnected (Provider.cleanup c) = false
  /\ listeners (Provider.cleanup c) = []
  /\ emitted (Provider.cleanup c)
     = emitted c ++ (if isConnected c then [SClose] else [])
  /\ delivered (Provider.cleanup c) = delivered c
  /\ Provider.connectedState (delivered (Provider.cleanup c))
     = Provider.connectedState (delivered c).
Proof.
  unfold Provider.cleanup, isConnected.
  cbn [connected removeAllListeners set_listeners].
  destruct (connected c) eqn:Hc; cbn; rewrite ?Hc, ?app_nil_r; repeat split.
Qed.

(** *** Fan-out *)

Lemma EventName_eqb_eq a b : EventName_eqb a b = true <-> a = b.
Proof. destruct a, b; cbn; split; congruence. Qed.

Lemma calls_to_app l a b : calls_to l (a ++ b) = calls_to l a ++ calls_to l b.
Proof. unfold calls_to. now rewrite List.filter_app, map_app. Qed.

Lemma named_app n a b : named n (a ++ b) = named n a ++ named n b.
Proof. apply List.filter_app. Qed.

(** The calls one emission makes to [l] are as many as [l] is registered
    under the name. *)
Lemma calls_to_emission l sg ls :
  calls_to l (map (fun l' => (l', sg))
                  (map snd (filter (fun p => EventName_eqb (fst p) (name_of sg) = true) ls)))
  = map (fun _ => sg)
        (List.filter (fun p => EventName_eqb (fst p) (name_of sg)) (registrations l ls)).
Proof.
  unfold calls_to, registrations.
  induction ls as [|[n l'] ls IH]; [reflexivity|].
  rewrite filter_cons. cbn [fst snd List.filter].
  case_decide as Hn.
  - cbn [map List.filter fst snd]. destruct (l' =? l)%nat.
    + cbn [map List.filter fst snd]. rewrite Hn. cbn [map]. now rewrite IH.
    + exact IH.
  - destruct (l' =? l)%nat; [|exact IH]. cbn [List.filter fst].
    destruct (EventName_eqb n (name_of sg)); [congruence | exact IH].
Qed.

Lemma calls_to_calls_of l n s out :
  registrations l (listeners s) = [(n, l)] ->
  calls_to l (calls_of s out) = named n out.
Proof.
  intros Hr. induction out as [|sg out IH]; [reflexivity|].
  unfold calls_of in *. cbn [map concat]. rewrite calls_to_app, IH.
  unfold subscribers. rewrite calls_to_emission, Hr.
  cbn [List.filter fst named].
  destruct (EventName_eqb n (name_of sg)) eqn:E.
  - apply EventName_eqb_eq in E. subst n.
    rewrite (proj2 (EventName_eqb_eq _ _) eq_refl). reflexivity.
  - assert (E' : EventName_eqb (name_of sg) n = false).
    { destruct (EventName_eqb (name_of sg) n) eqn:E'; [|reflexivity].
      apply EventName_eqb_eq in E'. subst n.
      now rewrite (proj2 (EventName_eqb_eq _ _) eq_refl) in E. }
    now rewrite E'.
Qed.

(** X17 (fan-out).  A listener registered once, under one event name, is
    called once for every signal of that name that the client emits, in
    the order of emission, and for no other signal, as long as the
    listeners are not removed and it is not registered again. *)
Theorem listener_gets_each_signal_once
        (s : State) (n : EventName) (l : nat) (evs : list Event) :
  registrations l (listeners s) = [(n, l)] ->
  Forall (spares l) evs ->
  exists out,
    emitted (run evs s) = emitted s ++ out
    /\ calls_to l (delivered (run evs s)) = calls_to l (delivered s) ++ named n out.
Proof.
  intros Hr Hevs. revert s Hr. induction Hevs as [|e evs He _ IH]; intros s Hr.
  - exists []. cbn. now rewrite !app_nil_r.
  - cbn [run fold_left]. fold (run evs (step s e)).
    destruct (step_signals s e) as (out1 & He1 & Hd1 & _).
    destruct (IH (step s e)) as (out2 & He2 & Hd2).
    + rewrite step_listeners. destruct e; try exact Hr; cbn in He.
      * unfold registrations in *. rewrite List.filter_app, Hr. cbn [List.filter snd].
        destruct (Nat.eqb_spec listener l); [contradiction | reflexivity].
      * contradiction.
    + exists (out1 ++ out2). split.
      * now rewrite He2, He1, app_assoc.
      * rewrite Hd2, Hd1, calls_to_app, named_app.
        rewrite (calls_to_calls_of l n s out1 Hr). now rewrite app_assoc.
Qed.

Lemma listener_gets_each_signal_once_witness :
  registrations 1 (listeners Examples.watched) = [(violation, 1%nat)]
  /\ Forall (spares 1)
            [ESendVideoFrame Examples.frame1 5000;
             EFetchSettled (Responded true (lit "OK")) 5400;
             EJsonSettled (JsonValue Examples.lookingAway) 5500;
             EDisconnect]
  /\ calls_to 1 (delivered
                   (run [ESendVideoFrame Examples.frame1 5000;
                         EFetchSettled (Responded true (lit "OK")) 5400;
                         EJsonSettled (JsonValue Examples.lookingAway) 5500;
                         EDisconnect]
                        Examples.watched))
     = [SViolation {| type := lit "Looking Away"; timestamp := 5500;
                      confidence := 9 # 10;
                      details := Some (lit "PROCTORING_VIOLATION: Looking Away") |}].
Proof.
  assert (H1 : registrations 1 (listeners Examples.watched) = [(violation, 1%nat)])
    by reflexivity.
  assert (H2 : Forall (spares 1)
                      [ESendVideoFrame Examples.frame1 5000;
                       EFetchSettled (Responded true (lit "OK")) 5400;
                       EJsonSettled (JsonValue Examples.lookingAway) 5500;
                       EDisconnect])
    by (repeat constructor).
  split; [exact H1|]. split; [exact H2|].
  destruct (listener_gets_each_signal_once Examples.watched violation 1 _ H1 H2)
    as (out & He & Hd).
  rewrite Hd. vm_compute in He. subst out. now vm_compute.
Defined.

End ClientFacts.

(* ===================================================================== *)
(** * Properties of the rate limiter                                      *)
(* ===================================================================== *)

Module RateLimitFacts.
Import Js RateLimit.
Local Open Scope Z_scope.

Lemma ceil_div_1000_bounds a k :
  0 <= a <= 1000 * k -> 0 <= ceil_div_1000 a <= k.
Proof.
  intros H. unfold ceil_div_1000.
  assert (- k <= (- a) / 1000) by (apply Z.div_le_lower_bound; lia).
  assert ((- a) / 1000 <= 0) by (apply Z.div_le_upper_bound; lia).
  lia.
Qed.

Lemma status_set_header n v r : status (set_header n v r) = status r.
Proof. reflexivity. Qed.

Lemma status_secured : status secured = 200.
Proof. reflexivity. Qed.

(** [middleware] on a request under ['/api/'], by the cases of the table. *)
Lemma middleware_first req now dur m :
  under_api req = true -> m !! address req = None ->
  allowed (middleware req now dur m).1
  /\ (middleware req now dur m).2 = <[address req := fresh now]> m.
Proof.
  unfold under_api, middleware, account. intros -> ->.
  rewrite lookup_insert_eq. split; reflexivity.
Qed.

Lemma middleware_expired req now dur m e :
  under_api req = true -> m !! address req = Some e -> resetTime e < now ->
  allowed (middleware req now dur m).1
  /\ (middleware req now dur m).2 = <[address req := fresh now]> m.
Proof.
  unfold under_api, middleware, account. intros -> -> Hlt.
  apply Z.ltb_lt in Hlt. rewrite Hlt, lookup_insert_eq. split; reflexivity.
Qed.

Lemma middleware_counted req now dur m e :
  under_api req = true -> m !! address req = Some e ->
  now <= resetTime e -> count e < max ->
  allowed (middleware req now dur m).1
  /\ (middleware req now dur m).2
     = <[address req := {| count := count e + 1; resetTime := resetTime e |}]> m.
Proof.
  unfold under_api, middleware, account. intros -> -> Hle Hc.
  destruct (resetTime e <? now) eqn:E1; [apply Z.ltb_lt in E1; lia|].
  destruct (max <=? count e) eqn:E2; [apply Z.leb_le in E2; lia|].
  rewrite lookup_insert_eq. split; reflexivity.
Qed.

Lemma middleware_refused req now dur m e :
  under_api req = true -> m !! address req = Some e ->
  now <= resetTime e -> max <= count e ->
  middleware req now dur m = (tooMany e now, m).
Proof.
  unfold under_api, middleware, account. intros -> -> Hle Hc.
  destruct (resetTime e <? now) eqn:E1; [apply Z.ltb_lt in E1; lia|].
  destruct (max <=? count e) eqn:E2; [reflexivity | apply Z.leb_gt in E2; lia].
Qed.

Lemma middleware_elsewhere req now dur m :
  under_api req = false -> (middleware req now dur m).2 = m.
Proof. unfold under_api, middleware. now intros ->. Qed.

Lemma serve_cons req t rs m :
  serve ((req, t) :: rs) m
  = ((middleware req t 0 m).1 :: (serve rs (middleware req t 0 m).2).1,
     (serve rs (middleware req t 0 m).2).2).
Proof.
  cbn [serve]. destruct (middleware req t 0 m) as [r m1]. cbn [fst snd].
  destruct (serve rs m1) as [out m2]. reflexivity.
Qed.

(** Requests from one address inside its window are counted one by one
    as long as the quota lasts. *)
Lemma serve_window a lo R rs :
  forall c m,
    m !! a = Some {| count := c; resetTime := R |} ->
    from_address a lo R rs ->
    c + Z.of_nat (length rs) <= max ->
    Forall allowed (serve rs m).1
    /\ length (serve rs m).1 = length rs
    /\ (serve rs m).2
       = <[a := {| count := c + Z.of_nat (length rs); resetTime := R |}]> m.
Proof.
  induction rs as [|[req t] rs IH]; intros c m Hm Hrs Hc.
  - cbn. rewrite Z.add_0_r. rewrite insert_id by exact Hm. now repeat split.
  - apply Forall_cons in Hrs as [(Hapi & Ha & Ht) Hrs]. cbn [fst snd] in *.
    cbn [length] in Hc. rewrite Nat2Z.inj_succ in Hc.
    subst a. rewrite serve_cons.
    destruct (middleware_counted req t 0 m _ Hapi Hm) as [Hal Hm1];
      cbn [count resetTime]; [lia | lia |].
    cbn [count resetTime] in Hm1. rewrite Hm1.
    specialize (IH (c + 1) (<[address req := {| count := c + 1; resetTime := R |}]> m)).
    destruct IH as (H1 & H2 & H3); [apply lookup_insert_eq | exact Hrs | lia |].
    cbn [fst snd]. split; [now constructor|]. split; [cbn; now rewrite H2|].
    rewrite H3, insert_insert_eq. cbn [length]. rewrite Nat2Z.inj_succ.
    replace (c + 1 + Z.of_nat (length rs)) with (c + Z.succ (Z.of_nat (length rs)))
      by lia.
    reflexivity.
Qed.

Lemma within_quota_insert a e m :
  1 <= count e <= max -> within_quota m -> within_quota (<[a := e]> m).
Proof.
  intros He Hm a' e' H. apply lookup_insert_Some in H as [[_ <-] | [_ H]].
  - exact He.
  - exact (Hm _ _ H).
Qed.

Lemma step_within_quota m e : within_quota m -> within_quota (step m e).
Proof.
  intros Hm. destruct e as [req now dur | now]; cbn [step].
  - destruct (under_api req) eqn:Hapi; [|now rewrite middleware_elsewhere].
    destruct (m !! address req) as [e0|] eqn:He0.
    + destruct (Z_lt_dec (resetTime e0) now) as [Hlt | Hle].
      * destruct (middleware_expired req now dur m e0 Hapi He0 Hlt) as [_ ->].
        apply within_quota_insert; [cbn; unfold max; lia | exact Hm].
      * destruct (Z_lt_dec (count e0) max) as [Hc | Hc].
        -- destruct (middleware_counted req now dur m e0 Hapi He0) as [_ ->];
             [lia | exact Hc |].
           apply within_quota_insert; [|exact Hm].
           cbn. specialize (Hm _ _ He0). lia.
        -- rewrite (middleware_refused req now dur m e0 Hapi He0); [exact Hm|lia|lia].
    + destruct (middleware_first req now dur m Hapi He0) as [_ ->].
      apply within_quota_insert; [cbn; unfold max; lia | exact Hm].
  - intros a e0 H. unfold sweep in H.
    apply map_lookup_filter_Some in H as [H _]. exact (Hm _ _ H).
Qed.

Lemma run_within_quota evs : within_quota (run evs).
Proof.
  unfold run.
  assert (H : forall m, within_quota m -> within_quota (fold_left step evs m)).
  { induction evs as [|e evs IH]; intros m Hm; [exact Hm|].
    cbn [fold_left]. apply IH. now apply step_within_quota. }
  apply H. intros a e Hl. rewrite lookup_empty in Hl. discriminate.
Qed.

(** A full window: a hundred requests, the refusal of the next, and the
    new window after the reset time. *)
Lemma full_window
        (m : gmap (list N) Entry) (a : list N) (t0 : Z)
        (req0 : Request) (rs : list (Request * Z))
        (req101 : Request) (t101 : Z) (reqLater : Request) (tLater : Z) :
  m !! a = None ->
  from_address a t0 t0 [(req0, t0)] ->
  from_address a t0 (t0 + windowMs) rs -> length rs = 99%nat ->
  from_address a t0 (t0 + windowMs) [(req101, t101)] ->
  from_address a (t0 + windowMs + 1) tLater [(reqLater, tLater)] ->
  let first100 := serve ((req0, t0) :: rs) m in
  let r101 := middleware req101 t101 0 first100.2 in
  let later := middleware reqLater tLater 0 r101.2 in
  Forall allowed first100.1 /\ length first100.1 = 100%nat
  /\ first100.2 !! a = Some {| count := 100; resetTime := t0 + windowMs |}
  /\ rejected r101.1
  /\ (exists b, body r101.1 = Some b /\ 0 <= retryAfter b <= windowMs / 1000)
  /\ r101.2 = first100.2
  /\ allowed later.1
  /\ later.2 !! a = Some {| count := 1; resetTime := tLater + windowMs |}.
Proof.
  intros Hm H0 Hrs Hlen H101 HL. cbn zeta.
  apply Forall_cons in H0 as [(Hapi0 & Ha0 & _) _].
  apply Forall_cons in H101 as [(Hapi1 & Ha1 & Ht1) _].
  apply Forall_cons in HL as [(Hapi2 & Ha2 & Ht2) _].
  cbn [fst snd] in *.
  rewrite serve_cons.
  rewrite <- Ha0 in Hm.
  destruct (middleware_first req0 t0 0 m Hapi0 Hm) as [Hal0 Hm0].
  rewrite Hm0, Ha0.
  destruct (serve_window a t0 (t0 + windowMs) rs 1 (<[a := fresh t0]> m))
    as (H1 & H2 & H3); [apply lookup_insert_eq | exact Hrs | rewrite Hlen; unfold max; lia |].
  rewrite Hlen in H3. change (1 + Z.of_nat 99) with 100 in H3.
  rewrite insert_insert_eq in H3. cbn [fst snd]. rewrite H3.
  set (full := {| count := 100; resetTime := t0 + windowMs |}).
  set (m100 := <[a := full]> m).
  assert (Hfull : m100 !! a = Some full) by apply lookup_insert_eq.
  rewrite <- Ha1 in Hfull.
  rewrite (middleware_refused req101 t101 0 m100 full Hapi1 Hfull);
    [|cbn; lia | cbn; unfold max; lia].
  cbn [fst snd]. rewrite Ha1 in Hfull. rewrite <- Ha2 in Hfull.
  destruct (middleware_expired reqLater tLater 0 m100 full Hapi2 Hfull)
    as [HalL HmL]; [cbn; lia|].
  rewrite HmL, Ha2.
  split; [constructor; assumption|]. split; [cbn; now rewrite H2, Hlen|].
  split; [apply lookup_insert_eq|]. split; [reflexivity|].
  split.
  { eexists. split; [reflexivity|]. cbn [retryAfter resetTime full].
    change (windowMs / 1000) with 60.
    apply ceil_div_1000_bounds. unfold windowMs in *. lia. }
  split; [reflexivity|]. split; [exact HalL|].
  apply lookup_insert_eq.
Qed.

(** Traffic from other addresses and sweeps before the reset time leave
    the entry of an address alone. *)
Lemma middleware_other req now dur m a :
  a <> address req -> (middleware req now dur m).2 !! a = m !! a.
Proof.
  intros Hne. unfold middleware.
  destruct (startsWith (pathname req) (lit "/api/")); [|reflexivity].
  unfold account. destruct (m !! address req) as [e0|] eqn:He0.
  - destruct (resetTime e0 <? now).
    + rewrite lookup_insert_eq. cbn [snd]. now rewrite lookup_insert_ne.
    + destruct (max <=? count e0); [reflexivity|].
      rewrite lookup_insert_eq. cbn [snd]. now rewrite lookup_insert_ne.
  - rewrite lookup_insert_eq. cbn [snd]. now rewrite lookup_insert_ne.
Qed.

Lemma sweep_keeps now m a e :
  m !! a = Some e -> now <= resetTime e -> sweep now m !! a = Some e.
Proof.
  intros Hm Hle. unfold sweep. apply map_lookup_filter_Some_2; [exact Hm|].
  cbn. lia.
Qed.

(** C2 (rate limiter boundary).  From a table without an entry for the
    address, the first request opens a window and the 99 that follow
    inside it are let through, which brings the count to 100; a further
    request inside the window is refused with 429 and a [retryAfter] of at
    most the 60 seconds of the window, and leaves the table as it is; a
    request after the reset time is let through and starts a new entry
    with count 1.  Requests from other addresses, and sweeps before the
    reset time, do not touch the entry.  No entry of a table the process
    reaches has a count above the maximum. *)
Theorem rate_limit_boundary
        (m : gmap (list N) Entry) (a : list N) (t0 : Z)
        (req0 : Request) (rs : list (Request * Z))
        (req101 : Request) (t101 : Z) (reqLater : Request) (tLater : Z) :
  m !! a = None ->
  from_address a t0 t0 [(req0, t0)] ->
  from_address a t0 (t0 + windowMs) rs -> length rs = 99%nat ->
  from_address a t0 (t0 + windowMs) [(req101, t101)] ->
  from_address a (t0 + windowMs + 1) tLater [(reqLater, tLater)] ->
  let first100 := serve ((req0, t0) :: rs) m in
  let r101 := middleware req101 t101 0 first100.2 in
  let later := middleware reqLater tLater 0 r101.2 in
  Forall allowed first100.1 /\ length first100.1 = 100%nat
  /\ first100.2 !! a = Some {| count := 100; resetTime := t0 + windowMs |}
  /\ rejected r101.1
  /\ (exists b, body r101.1 = Some b /\ 0 <= retryAfter b <= windowMs / 1000)
  /\ r101.2 = first100.2
  /\ allowed later.1
  /\ later.2 !! a = Some {| count := 1; resetTime := tLater + windowMs |}
  /\ (forall req now dur m',
         address req <> a -> (middleware req now dur m').2 !! a = m' !! a)
  /\ (forall now m' e,
         m' !! a = Some e -> now <= resetTime e -> sweep now m' !! a = Some e)
  /\ (forall evs, within_quota (run evs)).
Proof.
  intros Hm H0 Hrs Hlen H101 HL. cbn zeta.
  pose proof (full_window m a t0 req0 rs req101 t101 reqLater tLater
                          Hm H0 Hrs Hlen H101 HL) as H.
  cbn zeta in H. repeat (split; [apply H|]).
  split; [|split].
  - intros req now dur m' Hne. apply middleware_other. congruence.
  - intros now m' e. apply sweep_keeps.
  - apply run_within_quota.
Qed.

(** *** Headers *)

Lemma headers_tooMany e now :
  headers (tooMany e now)
  = {[ lit "Retry-After" := toString (ceil_div_1000 (resetTime e - now));
       lit "Content-Type" := lit "application/json" ]}
  /\ headers (tooMany e now) !! lit "X-RateLimit-Limit" = None
  /\ headers (tooMany e now) !! lit "X-RateLimit-Remaining" = None
  /\ headers (tooMany e now) !! lit "X-RateLimit-Reset" = None.
Proof.
  repeat split.
Qed.

(** The shape of what [middleware] answers under ['/api/']. *)
Lemma middleware_api req now dur m :
  under_api req = true ->
  (exists e, m !! address req = Some e /\ now <= resetTime e /\ max <= count e
             /\ middleware req now dur m = (tooMany e now, m))
  \/ (exists e, (middleware req now dur m).2 !! address req = Some e
                /\ (middleware req now dur m).1
                   = serverTiming
                       (set_header (lit "X-RateLimit-Reset")
                          (toString (ceil_div_1000 (resetTime e)))
                          (set_header (lit "X-RateLimit-Remaining")
                             (toString (max - count e))
                             (set_header (lit "X-RateLimit-Limit")
                                (toString max) secured)))
                       dur).
Proof.
  intros Hapi. unfold middleware. unfold under_api in Hapi. rewrite Hapi.
  unfold account. destruct (m !! address req) as [e0|] eqn:He0.
  - destruct (resetTime e0 <? now) eqn:E1.
    + right. rewrite lookup_insert_eq. eexists. split; [apply lookup_insert_eq|].
      reflexivity.
    + destruct (max <=? count e0) eqn:E2.
      * left. exists e0. apply Z.ltb_ge in E1. apply Z.leb_le in E2. now repeat split.
      * right. rewrite lookup_insert_eq. eexists.
        split; [apply lookup_insert_eq | reflexivity].
  - right. rewrite lookup_insert_eq. eexists.
    split; [apply lookup_insert_eq | reflexivity].
Qed.

(** C6, as the code has it.  A request under ['/api/'] that is let
    through is answered with the three headers [X-RateLimit-Limit],
    [X-RateLimit-Remaining] and [X-RateLimit-Reset], computed from the
    entry of its address; a request that is refused is answered with the
    429 response, whose only headers are [Content-Type] and
    [Retry-After]. *)
Theorem rate_limit_headers
        (req : Request) (now dur : Z) (m : gmap (list N) Entry) :
  under_api req = true ->
  let r := (middleware req now dur m).1 in
  (allowed r
   /\ exists e, (middleware req now dur m).2 !! address req = Some e
      /\ headers r !! lit "X-RateLimit-Limit" = Some (toString max)
      /\ headers r !! lit "X-RateLimit-Remaining" = Some (toString (max - count e))
      /\ headers r !! lit "X-RateLimit-Reset"
         = Some (toString (ceil_div_1000 (resetTime e))))
  \/ (rejected r
      /\ exists e, m !! address req = Some e
         /\ headers r
            = {[ lit "Retry-After" := toString (ceil_div_1000 (resetTime e - now));
                 lit "Content-Type" := lit "application/json" ]}
         /\ headers r !! lit "X-RateLimit-Limit" = None
         /\ headers r !! lit "X-RateLimit-Remaining" = None
         /\ headers r !! lit "X-RateLimit-Reset" = None).
Proof.
  intros Hapi. cbn zeta.
  destruct (middleware_api req now dur m Hapi)
    as [(e & He & _ & _ & ->) | (e & He & ->)].
  - right. split; [reflexivity|]. exists e. split; [exact He|].
    apply headers_tooMany.
  - left. split; [reflexivity|]. exists e. split; [exact He|].
    repeat split.
Qed.

(** *** Requests without an address *)


(** C10 (fallback address).  A request without an address is handled
    exactly as one from 127.0.0.1 and touches no other entry; so requests
    without an address, whoever sends them, are counted in that one
    entry: after a hundred of them inside a window the count is 100 and
    the next one is refused. *)
Theorem addressless_share_one_entry
        (m : gmap (list N) Entry) (t0 : Z)
        (req0 : Request) (rs : list (Request * Z)) (req101 : Request) (t101 : Z) :
  m !! lit "127.0.0.1" = None ->
  Forall (fun rt => under_api rt.1 = true /\ ip rt.1 = None
                    /\ t0 <= rt.2 <= t0 + windowMs)
         ((req0, t0) :: rs ++ [(req101, t101)]) ->
  length rs = 99%nat ->
  (forall req now dur m',
      ip req = None ->
      address req = lit "127.0.0.1"
      /\ middleware req now dur m'
         = middleware {| pathname := pathname req; ip := Some (lit "127.0.0.1") |}
                      now dur m'
      /\ (forall a, a <> lit "127.0.0.1" ->
                    (middleware req now dur m').2 !! a = m' !! a))
  /\ Forall allowed (serve ((req0, t0) :: rs) m).1
  /\ (serve ((req0, t0) :: rs) m).2 !! lit "127.0.0.1"
     = Some {| count := 100; resetTime := t0 + windowMs |}
  /\ rejected (middleware req101 t101 0 (serve ((req0, t0) :: rs) m).2).1.
Proof.
  intros Hm Hall Hlen.
  assert (Haddr : forall req, ip req = None -> address req = lit "127.0.0.1").
  { intros req H. unfold address. now rewrite H. }
  split.
  { intros req now dur m' Hip. split; [now apply Haddr|]. split.
    - unfold middleware, address. cbn [pathname ip]. now rewrite Hip.
    - intros a Ha. apply middleware_other. now rewrite Haddr. }
  apply Forall_cons in Hall as [(Hapi0 & Hip0 & Ht0) Hall].
  apply Forall_app in Hall as [Hrs H101].
  apply Forall_cons in H101 as [(Hapi1 & Hip1 & Ht1) _].
  cbn [fst snd] in *.
  assert (Hfrom : from_address (lit "127.0.0.1") t0 (t0 + windowMs) rs).
  { unfold from_address. eapply Forall_impl; [exact Hrs|].
    intros [req t] (H1 & H2 & H3). cbn [fst snd] in *. auto. }
  pose proof (full_window m (lit "127.0.0.1") t0 req0 rs req101 t101
                          req101 (t0 + windowMs + 1) Hm) as H.
  cbn zeta in H. destruct H as (H1 & _ & H3 & H4 & _).
  - constructor; [|constructor]. cbn [fst snd]. auto with zarith.
  - exact Hfrom.
  - exact Hlen.
  - constructor; [|constructor]. cbn [fst snd]. auto.
  - constructor; [|constructor]. cbn [fst snd]. repeat split; auto; lia.
  - now repeat split.
Qed.

(** *** The statements at sample inputs *)

Lemma sample_window (req : Request) (t : Z) (n : nat) :
  under_api req = true -> 0 <= t <= 0 + windowMs ->
  from_address (address req) 0 (0 + windowMs) (repeat (req, t) n).
Proof.
  intros Hapi Ht. apply Forall_forall. intros rt Hin.
  apply list_elem_of_In, repeat_spec in Hin. subst rt. now repeat split.
Qed.

Lemma rate_limit_boundary_witness :
  from_address (lit "203.0.113.7") 0 (0 + windowMs) Examples.ninetyNine
  /\ length Examples.ninetyNine = 99%nat
  /\ Forall allowed (serve ((Examples.apiRequest, 0) :: Examples.ninetyNine) ∅).1
  /\ rejected
       (middleware Examples.apiRequest 59000 0
          (serve ((Examples.apiRequest, 0) :: Examples.ninetyNine) ∅).2).1
  /\ allowed
       (middleware Examples.apiRequest 60001 0
          (middleware Examples.apiRequest 59000 0
             (serve ((Examples.apiRequest, 0) :: Examples.ninetyNine) ∅).2).2).1.
Proof.
  assert (Hrs : from_address (lit "203.0.113.7") 0 (0 + windowMs)
                             Examples.ninetyNine).
  { apply (sample_window Examples.apiRequest 30000 99); [reflexivity|].
    unfold windowMs. lia. }
  assert (Hone : forall lo t hi, lo <= t <= hi ->
                   from_address (lit "203.0.113.7") lo hi [(Examples.apiRequest, t)]).
  { intros lo t hi H. constructor; [|constructor]. now repeat split. }
  pose proof (rate_limit_boundary
                ∅ (lit "203.0.113.7") 0 Examples.apiRequest
                Examples.ninetyNine
                Examples.apiRequest 59000 Examples.apiRequest 60001
                (lookup_empty _) (Hone 0 0 0 ltac:(lia)) Hrs (repeat_length _ _)
                (Hone 0 59000 (0 + windowMs) ltac:(unfold windowMs; lia))
                (Hone (0 + windowMs + 1) 60001 60001 ltac:(unfold windowMs; lia)))
    as H.
  cbn zeta in H. destruct H as (H1 & _ & _ & H4 & _ & _ & H7 & _).
  split; [exact Hrs|]. split; [apply repeat_length|].
  split; [exact H1|]. split; [exact H4 | exact H7].
Defined.

Lemma rate_limit_headers_witness :
  under_api Examples.apiRequest = true
  /\ allowed (middleware Examples.apiRequest 0 0 ∅).1
  /\ headers (middleware Examples.apiRequest 0 0 ∅).1 !! lit "X-RateLimit-Limit"
     = Some (lit "100")
  /\ headers (middleware Examples.apiRequest 0 0 ∅).1 !! lit "X-RateLimit-Remaining"
     = Some (lit "99")
  /\ headers (middleware Examples.apiRequest 0 0 ∅).1 !! lit "X-RateLimit-Reset"
     = Some (lit "60").
Proof.
  split; [reflexivity|].
  destruct (rate_limit_headers Examples.apiRequest 0 0 ∅ eq_refl)
    as [(Hal & e & He & Hh) | (Hrej & _)].
  - split; [exact Hal|]. vm_compute in He. injection He as <-. exact Hh.
  - discriminate Hrej.
Defined.

(** C6 as stated fails: the 429 that answers the request after the
    hundredth has none of the three headers. *)
Lemma rejection_headers_counterexample :
  under_api Examples.apiRequest = true
  /\ Examples.full_table !! lit "203.0.113.7"
     = Some {| count := 100; resetTime := 60000 |}
  /\ status Examples.refusal = 429
  /\ headers Examples.refusal !! lit "X-RateLimit-Limit" = None
  /\ headers Examples.refusal !! lit "X-RateLimit-Remaining" = None
  /\ headers Examples.refusal !! lit "X-RateLimit-Reset" = None
  /\ headers Examples.refusal !! lit "Retry-After" = Some (lit "59").
Proof.
  vm_compute. repeat split.
Qed.

Lemma addressless_share_one_entry_witness :
  (∅ : gmap (list N) Entry) !! lit "127.0.0.1" = None
  /\ length Examples.ninetyNineAnonymous = 99%nat
  /\ address Examples.anonymous1 = address Examples.anonymous2
  /\ (serve ((Examples.anonymous1, 0) :: Examples.ninetyNineAnonymous) ∅).2
       !! lit "127.0.0.1"
     = Some {| count := 100; resetTime := 0 + windowMs |}
  /\ rejected
       (middleware Examples.anonymous1 20 0
          (serve ((Examples.anonymous1, 0) :: Examples.ninetyNineAnonymous) ∅).2).1.
Proof.
  assert (Hall : Forall (fun rt => under_api rt.1 = true /\ ip rt.1 = None
                                   /\ 0 <= rt.2 <= 0 + windowMs)
                        ((Examples.anonymous1, 0)
                           :: Examples.ninetyNineAnonymous
                           ++ [(Examples.anonymous1, 20)])).
  { constructor; [cbn [fst snd]; repeat split; unfold windowMs; lia|].
    apply Forall_app. split.
    - apply Forall_forall. intros rt Hin.
      apply list_elem_of_In, repeat_spec in Hin. subst rt.
      cbn [fst snd]. repeat split; unfold windowMs; lia.
    - constructor; [|constructor].
      cbn [fst snd]. repeat split; unfold windowMs; lia. }
  pose proof (addressless_share_one_entry
                ∅ 0 Examples.anonymous1 Examples.ninetyNineAnonymous
                Examples.anonymous1 20 (lookup_empty _) Hall (repeat_length _ _))
    as (_ & _ & H3 & H4).
  split; [apply lookup_empty|]. split; [apply repeat_length|].
  split; [reflexivity|]. split; [exact H3 | exact H4].
Defined.

(** *** Further properties: sweeps, ranges, pass-through responses *)

(** [middleware] under ['/api/'], in full. *)
Lemma middleware_cases req now dur m :
  under_api req = true ->
  middleware req now dur m =
  match m !! address req with
  | None => (pass_through (fresh now) dur, <[address req := fresh now]> m)
  | Some e =>
      if resetTime e <? now
      then (pass_through (fresh now) dur, <[address req := fresh now]> m)
      else if max <=? count e
      then (tooMany e now, m)
      else (pass_through {| count := count e + 1; resetTime := resetTime e |} dur,
            <[address req := {| count := count e + 1; resetTime := resetTime e |}]> m)
  end.
Proof.
  unfold under_api, middleware, account. intros ->.
  destruct (m !! address req) as [e|].
  - destruct (resetTime e <? now); [now rewrite lookup_insert_eq|].
    destruct (max <=? count e); [reflexivity | now rewrite lookup_insert_eq].
  - now rewrite lookup_insert_eq.
Qed.

Lemma sweep_lookup now m a :
  sweep now m !! a =
  match m !! a with
  | Some e => if resetTime e <? now then None else Some e
  | None => None
  end.
Proof.
  unfold sweep. destruct (m !! a) as [e|] eqn:Hm.
  - destruct (resetTime e <? now) eqn:E.
    + apply Z.ltb_lt in E. apply map_lookup_filter_None. right.
      intros e' He'. rewrite Hm in He'. injection He' as <-. cbn. lia.
    + apply Z.ltb_ge in E. apply map_lookup_filter_Some. split; [exact Hm|].
      cbn. lia.
  - apply map_lookup_filter_None. now left.
Qed.

Lemma sweep_insert now m a e :
  now <= resetTime e -> sweep now (<[a := e]> m) = <[a := e]> (sweep now m).
Proof.
  intros H. unfold sweep. apply map_filter_insert_True. cbn. lia.
Qed.

(** X1 (sweep).  A sweep at [now] deletes exactly the entries whose window
    ended before [now], and a request that arrives at or after the sweep
    cannot tell whether the sweep took place: it gets the same response, and
    the two tables differ only by the sweep. *)
Theorem sweep_is_invisible
        (req : Request) (now now' dur : Z) (m : gmap (list N) Entry) :
  now <= now' ->
  (forall a, sweep now m !! a =
             match m !! a with
             | Some e => if resetTime e <? now then None else Some e
             | None => None
             end)
  /\ middleware req now' dur (sweep now m)
     = ((middleware req now' dur m).1, sweep now (middleware req now' dur m).2).
Proof.
  intros Hle. split; [intros a; apply sweep_lookup|].
  destruct (under_api req) eqn:Hapi.
  2:{ unfold under_api in Hapi. unfold middleware. now rewrite Hapi. }
  rewrite !middleware_cases by exact Hapi. rewrite sweep_lookup.
  assert (Hfresh : sweep now (<[address req := fresh now']> m)
                   = <[address req := fresh now']> (sweep now m)).
  { apply sweep_insert. cbn. unfold windowMs. lia. }
  destruct (m !! address req) as [e|] eqn:Hm; cbn [fst snd].
  - destruct (resetTime e <? now) eqn:E1.
    + apply Z.ltb_lt in E1.
      assert (E2 : (resetTime e <? now') = true) by (apply Z.ltb_lt; lia).
      rewrite E2. cbn [fst snd]. now rewrite Hfresh.
    + destruct (resetTime e <? now') eqn:E2; cbn [fst snd]; [now rewrite Hfresh|].
      destruct (max <=? count e); cbn [fst snd]; [reflexivity|].
      apply Z.ltb_ge in E2. rewrite sweep_insert; [reflexivity | cbn; lia].
  - now rewrite Hfresh.
Qed.

Lemma sweep_is_invisible_witness :
  61000 <= 70000
  /\ Examples.full_table !! lit "203.0.113.7" = Some {| count := 100; resetTime := 60000 |}
  /\ sweep 61000 Examples.full_table !! lit "203.0.113.7" = None
  /\ middleware Examples.apiRequest 70000 0 (sweep 61000 Examples.full_table)
     = ((middleware Examples.apiRequest 70000 0 Examples.full_table).1,
        sweep 61000 (middleware Examples.apiRequest 70000 0 Examples.full_table).2).
Proof.
  pose proof (sweep_is_invisible Examples.apiRequest 61000 70000 0 Examples.full_table
                                 ltac:(lia)) as [H1 H2].
  split; [lia|]. split; [now vm_compute|]. split; [|exact H2].
  rewrite H1. now vm_compute.
Defined.

Lemma windows_before_insert t a e m :
  resetTime e <= t + windowMs -> windows_before t m ->
  windows_before t (<[a := e]> m).
Proof.
  intros He Hm a' e' H. apply lookup_insert_Some in H as [[_ <-] | [_ H]].
  - exact He.
  - exact (Hm _ _ H).
Qed.

Lemma windows_before_later t t' m :
  t <= t' -> windows_before t m -> windows_before t' m.
Proof. intros Hle Hm a e H. specialize (Hm _ _ H). lia. Qed.

Lemma step_windows t m e :
  windows_before t m -> t <= event_time e ->
  windows_before (event_time e) (step m e).
Proof.
  intros Hm Hle. apply (windows_before_later _ _ _ Hle) in Hm.
  destruct e as [req now dur | now]; cbn [step event_time] in *.
  - destruct (under_api req) eqn:Hapi; [|now rewrite middleware_elsewhere].
    rewrite middleware_cases by exact Hapi.
    destruct (m !! address req) as [e0|] eqn:He0.
    + destruct (resetTime e0 <? now);
        [apply (windows_before_insert now); [cbn; lia | exact Hm]|].
      destruct (max <=? count e0); [exact Hm|].
      apply (windows_before_insert now); [|exact Hm]. cbn. exact (Hm _ _ He0).
    + apply (windows_before_insert now); [cbn; lia | exact Hm].
  - intros a e H. rewrite sweep_lookup in H.
    destruct (m !! a) as [e0|] eqn:He0; [|discriminate].
    destruct (resetTime e0 <? now); [discriminate|].
    injection H as <-. exact (Hm _ _ He0).
Qed.

Lemma run_windows t evs :
  clock_from t evs -> windows_before (last_time t evs) (run evs).
Proof.
  unfold run.
  assert (H : forall m t, windows_before t m -> clock_from t evs ->
                          windows_before (last_time t evs) (fold_left step evs m)).
  { induction evs as [|e evs IH]; intros m t' Hm Hc; [exact Hm|].
    destruct Hc as [Hle Hc]. cbn [fold_left last_time].
    apply IH; [|exact Hc]. now apply (step_windows t'). }
  intros Hc. apply H; [|exact Hc].
  intros a e Hl. rewrite lookup_empty in Hl. discriminate.
Qed.

(** X2 (ranges).  On a table reached while the clock never went back, a
    request under ['/api/'] that comes no earlier than the last event is
    either let through with an [X-RateLimit-Remaining] between 0 and 99, or
    refused with a [retryAfter] between 0 and 60 that is also the value of
    the [Retry-After] header. *)
Theorem rate_limit_ranges
        (t0 : Z) (evs : list Event) (req : Request) (now dur : Z) :
  clock_from t0 evs -> last_time t0 evs <= now -> under_api req = true ->
  let r := (middleware req now dur (run evs)).1 in
  (allowed r
   /\ exists k, 0 <= k <= 99
      /\ headers r !! lit "X-RateLimit-Remaining" = Some (toString k))
  \/ (rejected r
      /\ exists b, body r = Some b /\ 0 <= retryAfter b <= 60
         /\ headers r !! lit "Retry-After" = Some (toString (retryAfter b))).
Proof.
  intros Hc Hlast Hapi. cbn zeta.
  pose proof (run_within_quota evs) as Hq.
  pose proof (run_windows t0 evs Hc) as Hw.
  rewrite middleware_cases by exact Hapi.
  destruct (run evs !! address req) as [e|] eqn:He.
  - destruct (resetTime e <? now) eqn:E1.
    + left. split; [reflexivity|]. exists 99. split; [lia | reflexivity].
    + apply Z.ltb_ge in E1. destruct (max <=? count e) eqn:E2.
      * right. split; [reflexivity|]. eexists. split; [reflexivity|].
        cbn [retryAfter]. split; [|reflexivity].
        apply ceil_div_1000_bounds. specialize (Hw _ _ He).
        unfold windowMs in Hw. lia.
      * left. split; [reflexivity|]. apply Z.leb_gt in E2.
        exists (max - (count e + 1)). specialize (Hq _ _ He).
        unfold max in *. split; [lia | reflexivity].
  - left. split; [reflexivity|]. exists 99. split; [lia | reflexivity].
Qed.

Lemma rate_limit_ranges_witness :
  clock_from 0 (repeat (Arrives Examples.apiRequest 0 0) 100)
  /\ last_time 0 (repeat (Arrives Examples.apiRequest 0 0) 100) <= 1000
  /\ under_api Examples.apiRequest = true
  /\ rejected Examples.refusal
  /\ exists b, body Examples.refusal = Some b /\ 0 <= retryAfter b <= 60
     /\ headers Examples.refusal !! lit "Retry-After" = Some (toString (retryAfter b)).
Proof.
  assert (H1 : clock_from 0 (repeat (Arrives Examples.apiRequest 0 0) 100))
    by (vm_compute; repeat split; discriminate).
  assert (H2 : last_time 0 (repeat (Arrives Examples.apiRequest 0 0) 100) <= 1000)
    by (vm_compute; discriminate).
  split; [exact H1|]. split; [exact H2|]. split; [reflexivity|].
  destruct (rate_limit_ranges 0 (repeat (Arrives Examples.apiRequest 0 0) 100)
                              Examples.apiRequest 1000 0 H1 H2 eq_refl)
    as [[Hal _] | [Hrej Hb]].
  - vm_compute in Hal. discriminate Hal.
  - split; [exact Hrej | exact Hb].
Defined.

(** X3 (pass-through responses).  Whatever the path, a response that is not
    the 429 carries the seven security headers and [Server-Timing], and the
    429 carries none of them.  A request outside ['/api/'] is always let
    through, leaves the table as it is and gets no rate-limit header. *)
Theorem security_headers
        (req : Request) (now dur : Z) (m : gmap (list N) Entry) :
  let r := (middleware req now dur m).1 in
  ((allowed r
    /\ Forall (fun h => is_Some (headers r !! h))
              (lit "Server-Timing" :: securityHeaders))
   \/ (rejected r
       /\ Forall (fun h => headers r !! h = None)
                 (lit "Server-Timing" :: securityHeaders)))
  /\ (under_api req = false ->
      allowed r /\ (middleware req now dur m).2 = m
      /\ Forall (fun h => headers r !! h = None) rateLimitHeaders).
Proof.
  cbn zeta. split.
  - destruct (under_api req) eqn:Hapi.
    + rewrite middleware_cases by exact Hapi.
      destruct (m !! address req) as [e|];
        [destruct (resetTime e <? now); [|destruct (max <=? count e)]|];
        cbn [fst];
        solve [ left; split; [reflexivity|]; repeat (constructor; [now eexists|]);
                constructor
              | right; split; [reflexivity|]; repeat (constructor; [reflexivity|]);
                constructor ].
    + unfold under_api in Hapi. unfold middleware. rewrite Hapi. cbn [fst].
      left. split; [reflexivity|]. repeat (constructor; [now eexists|]). constructor.
  - intros Hapi. unfold under_api in Hapi. unfold middleware. rewrite Hapi.
    cbn [fst snd]. split; [reflexivity|]. split; [reflexivity|].
    repeat (constructor; [reflexivity|]). constructor.
Qed.

Lemma security_headers_witness :
  under_api {| pathname := lit "/interview"; ip := None |} = false
  /\ allowed (middleware {| pathname := lit "/interview"; ip := None |} 5 0
                         Examples.full_table).1
  /\ (middleware {| pathname := lit "/interview"; ip := None |} 5 0
                 Examples.full_table).2 = Examples.full_table
  /\ Forall (fun h => headers Examples.refusal !! h = None)
            (lit "Server-Timing" :: securityHeaders).
Proof.
  destruct (security_headers {| pathname := lit "/interview"; ip := None |} 5 0
                             Examples.full_table) as [_ H].
  destruct (H eq_refl) as (H1 & H2 & _).
  split; [reflexivity|]. split; [exact H1|]. split; [exact H2|].
  destruct (security_headers Examples.apiRequest 1000 0 Examples.full_table)
    as [[[Hal _] | [_ Hno]] _].
  - vm_compute in Hal. discriminate Hal.
  - exact Hno.
Defined.

End RateLimitFacts.

(* ===================================================================== *)
(** * Properties of the feedback panel                                    *)
(* ===================================================================== *)

Module FeedbackFacts.
Import Js Parser Feedback.

Lemma of_type_snoc t vs v :
  of_type t (vs ++ [v])
  = of_type t vs ++ (if bool_decide (type v = t) then [v] else []).
Proof. unfold of_type. rewrite List.filter_app. reflexivity. Qed.

Lemma entry_snoc group v : entry (group ++ [v]) = Some (group ++ [v]).
Proof. now destruct group. Qed.

(** The table after [seen] and what one more violation does to it. *)
Lemma add_violation_grouped grouped seen v :
  (forall t, grouped !! t = entry (of_type t seen)) ->
  type v ∉ inherited ->
  exists grouped', add_violation grouped v = Some grouped'
                   /\ forall t, grouped' !! t = entry (of_type t (seen ++ [v])).
Proof.
  intros Hg Hv. unfold add_violation. rewrite Hg.
  rewrite bool_decide_eq_false_2 by exact Hv.
  exists (<[type v := of_type (type v) seen ++ [v]]> grouped). split.
  - now destruct (of_type (type v) seen).
  - intros t. rewrite of_type_snoc. destruct (decide (type v = t)) as [<- | Hne].
    + rewrite lookup_insert_eq, bool_decide_eq_true_2 by reflexivity.
      now rewrite entry_snoc.
    + rewrite lookup_insert_ne, bool_decide_eq_false_2, app_nil_r by assumption.
      apply Hg.
Qed.

Lemma group_from_grouped vs :
  forall grouped seen,
    (forall t, grouped !! t = entry (of_type t seen)) ->
    Forall (fun v => type v ∉ inherited) vs ->
    exists grouped', group_from grouped vs = Some grouped'
                     /\ forall t, grouped' !! t = entry (of_type t (seen ++ vs)).
Proof.
  induction vs as [|v vs IH]; intros grouped seen Hg Hvs.
  - exists grouped. rewrite app_nil_r. now split.
  - apply Forall_cons in Hvs as [Hv Hvs]. cbn [group_from].
    destruct (add_violation_grouped grouped seen v Hg Hv) as (g1 & -> & Hg1).
    destruct (IH g1 (seen ++ [v]) Hg1 Hvs) as (g2 & -> & Hg2).
    exists g2. split; [reflexivity|]. intros t. rewrite Hg2.
    now rewrite <- app_assoc.
Qed.

Lemma group_from_throws vs :
  forall grouped seen,
    (forall t, grouped !! t = entry (of_type t seen)) ->
    Forall (fun v => type v ∉ inherited) seen ->
    Exists (fun v => type v ∈ inherited) vs ->
    group_from grouped vs = None.
Proof.
  induction vs as [|v vs IH]; intros grouped seen Hg Hseen Hex.
  - inversion Hex.
  - cbn [group_from]. destruct (decide (type v ∈ inherited)) as [Hin | Hout].
    + unfold add_violation. rewrite Hg.
      assert (Hnone : of_type (type v) seen = []).
      { unfold of_type. clear Hg.
        induction seen as [|w seen IHs]; [reflexivity|].
        apply Forall_cons in Hseen as [Hw Hseen]. cbn [List.filter].
        rewrite bool_decide_eq_false_2 by congruence. now apply IHs. }
      rewrite Hnone. cbn [entry]. now rewrite bool_decide_eq_true_2.
    + apply Exists_cons in Hex as [Hex | Hex]; [contradiction|].
      destruct (add_violation_grouped grouped seen v Hg Hout) as (g1 & -> & Hg1).
      apply (IH g1 (seen ++ [v])); [exact Hg1 | | exact Hex].
      apply Forall_app. split; [exact Hseen | now constructor].
Qed.

(** X18 (grouping).  When no violation has a type that is a property name
    inherited from [Object.prototype], grouping gives an object in which
    every type that occurs has the violations of that type, in their
    order, and no other key is present.  When some violation has such a
    type, [push] is called on an inherited value and grouping throws. *)
Theorem groupViolations_by_type (vs : list ViolationEvent) :
  (Forall (fun v => type v ∉ inherited) vs ->
   exists grouped, groupViolations vs = Some grouped
                   /\ forall t, grouped !! t = entry (of_type t vs))
  /\ (Exists (fun v => type v ∈ inherited) vs -> groupViolations vs = None).
Proof.
  unfold groupViolations. split.
  - intros Hvs. apply (group_from_grouped vs ∅ []); [|exact Hvs].
    intros t. apply lookup_empty.
  - intros Hex. apply (group_from_throws vs ∅ []); [| constructor | exact Hex].
    intros t. apply lookup_empty.
Qed.

Lemma groupViolations_by_type_witness :
  Forall (fun v => type v ∉ inherited) [Examples.theViolation; Examples.theViolation]
  /\ (exists grouped,
         groupViolations [Examples.theViolation; Examples.theViolation] = Some grouped
         /\ grouped !! lit "Looking Away"
            = Some [Examples.theViolation; Examples.theViolation])
  /\ groupViolations [{| type := lit "constructor"; timestamp := 0;
                         confidence := 9 # 10; details := None |}] = None.
Proof.
  assert (H : Forall (fun v => type v ∉ inherited)
                     [Examples.theViolation; Examples.theViolation]).
  { repeat constructor; intros Hin; vm_compute in Hin;
      repeat (apply elem_of_cons in Hin as [Hin | Hin]; [discriminate Hin|]);
      inversion Hin. }
  split; [exact H|].
  destruct (groupViolations_by_type [Examples.theViolation; Examples.theViolation])
    as [H1 _].
  destruct (groupViolations_by_type
              [{| type := lit "constructor"; timestamp := 0;
                  confidence := 9 # 10; details := None |}]) as [_ H2].
  split.
  - destruct (H1 H) as (grouped & Hg & Hl). exists grouped.
    split; [exact Hg|]. rewrite Hl. reflexivity.
  - apply H2. constructor. cbn [type]. now left.
Defined.

Lemma getViolationName_cases t :
  getViolationName t = t \/ In (getViolationName t) displayNames.
Proof.
  unfold getViolationName, displayNames.
  repeat match goal with
         | |- context [if ?b then _ else _] => destruct b
         end; cbn [In]; auto 10.
Qed.

(** X19 (display names).  The name shown for a type is one of the five
    display names or the type itself, and naming is idempotent: the name of
    a name is that name. *)
Theorem getViolationName_idempotent (t : list N) :
  (getViolationName t = t \/ In (getViolationName t) displayNames)
  /\ getViolationName (getViolationName t) = getViolationName t.
Proof.
  split; [apply getViolationName_cases|].
  destruct (getViolationName_cases t) as [H | Hin]; [now rewrite !H|].
  unfold displayNames in Hin. cbn [In] in Hin.
  destruct Hin as [<- | [<- | [<- | [<- | [<- | []]]]]]; now vm_compute.
Qed.

End FeedbackFacts.

(* ===================================================================== *)
(** ** The route behind [/api/gemini]                                     *)
(* ===================================================================== *)

Module RouteFacts.
Import Js Route.

Lemma trim_nil s : trim s = [] <-> Lines.blank s = true.
Proof.
  split.
  - intros H. destruct (Lines.blank s) eqn:E; [reflexivity|].
    destruct (ParserFacts.trimStart_head s E) as (x & y & Hxy & Hx).
    unfold trim, trimEnd in H. rewrite Hxy in H. cbn [rev] in H.
    destruct (ParserFacts.trimStart_snoc (rev y) x Hx) as [l' Hl].
    rewrite Hl, rev_app_distr in H. discriminate.
  - intros H. unfold trim. now rewrite (ParserFacts.trimStart_blank s H).
Qed.

Lemma validateApiKey_missing env :
  configured env = false ->
  validateApiKey env = inr (lit "GEMINI_API_KEY is not configured").
Proof.
  destruct env as [k|]; [|reflexivity].
  cbn [configured validateApiKey]. intros H.
  apply negb_false_iff, trim_nil in H. now rewrite H.
Qed.

Lemma validateApiKey_present env :
  configured env = true ->
  exists k, env = Some k /\ Lines.blank k = false
            /\ validateApiKey env = inl (trim k).
Proof.
  destruct env as [k|]; [|discriminate].
  cbn [configured validateApiKey]. intros H. apply negb_true_iff in H.
  exists k. split; [reflexivity|]. split; [exact H|].
  destruct (trim k) eqn:E; [|reflexivity].
  apply trim_nil in E. congruence.
Qed.

Lemma caught_not_ok t : ok (status_of (fst (caught t))) = false.
Proof. reflexivity. Qed.

Lemma acceptable_not_ok status :
  ok status = false -> acceptable status = true -> (300 <= status <= 599)%Z.
Proof. unfold ok, acceptable. lia. Qed.

(** X20 (missing key).  With [GEMINI_API_KEY] unset, empty or blank,
    neither handler asks the model anything.  [POST] answers 500 with the
    error ["API Error"], not ["Configuration Error"]: the message of
    [validateApiKey] does not contain ["API key"].  [GET] answers 503 with
    ["Health Check Failed"].  Each logs its one error. *)
Theorem missing_key_replies method env body up elapsed refusal hup :
  configured env = false ->
  method <> lit "OPTIONS" ->
  let m := lit "GEMINI_API_KEY is not configured" in
  let e := {| error := lit "API Error"; message := Client.JStr m;
              details := DError m |} in
  let h := {| error := lit "Health Check Failed"; message := Client.JStr m;
              details := DNone |} in
  POST method env body up elapsed refusal
  = {| reply := Failure 500 e; forwarded := None; logged := [e] |}
  /\ GET env hup = {| health := Failure 503 h; asked := None; complaints := [h] |}.
Proof.
  intros Henv Hm m e h. split.
  - unfold POST. rewrite bool_decide_eq_false_2 by exact Hm.
    rewrite (validateApiKey_missing env Henv). reflexivity.
  - unfold GET. rewrite (validateApiKey_missing env Henv). reflexivity.
Qed.

Lemma missing_key_replies_witness :
  configured (Some (lit "  ")) = false
  /\ lit "POST" <> lit "OPTIONS"
  /\ reply (POST (lit "POST") (Some (lit "  ")) (inr None)
                 (UpRejected NotAnError) 5 [])
     = Failure 500 {| error := lit "API Error";
                      message := Client.JStr (lit "GEMINI_API_KEY is not configured");
                      details := DError (lit "GEMINI_API_KEY is not configured") |}.
Proof.
  assert (H1 : configured (Some (lit "  ")) = false) by (vm_compute; reflexivity).
  assert (H2 : lit "POST" <> lit "OPTIONS") by (vm_compute; discriminate).
  split; [exact H1|]. split; [exact H2|].
  destruct (missing_key_replies (lit "POST") (Some (lit "  ")) (inr None)
              (UpRejected NotAnError) 5 [] (HealthAnswered 200) H1 H2) as [H _].
  now rewrite H.
Defined.

(** X21 (what is forwarded).  [POST] asks the model only for a request that
    is not [OPTIONS], with a key configured and a body that could be read.
    What it sends then is the caller's [contents] with the fixed generation
    and safety settings, authorised by the trimmed key. *)
Theorem forwarded_request method env body up elapsed refusal :
  match forwarded (POST method env body up elapsed refusal) with
  | Some fw =>
      method <> lit "OPTIONS"
      /\ (exists k, env = Some k /\ Lines.blank k = false
                    /\ authorization fw = lit "Bearer " ++ trim k)
      /\ body = inr (contents fw)
      /\ temperature fw = 1 # 10 /\ topP fw = 1%Z /\ topK fw = 32%Z
      /\ maxOutputTokens fw = 256%Z
      /\ safetyCategory fw = lit "HARM_CATEGORY_DANGEROUS_CONTENT"
      /\ safetyThreshold fw = lit "BLOCK_LOW_AND_ABOVE"
  | None =>
      method = lit "OPTIONS" \/ configured env = false \/ exists t, body = inl t
  end.
Proof.
  unfold POST. case_bool_decide as Hm; [now left|].
  destruct (configured env) eqn:Henv.
  - destruct (validateApiKey_present env Henv) as (k & -> & Hk & ->).
    destruct body as [t|c].
    + cbn. right. right. now exists t.
    + assert (Hgoal : forall o, forwarded o = Some
        {| contents := c; temperature := 1 # 10; topP := 1; topK := 32;
           maxOutputTokens := 256;
           safetyCategory := lit "HARM_CATEGORY_DANGEROUS_CONTENT";
           safetyThreshold := lit "BLOCK_LOW_AND_ABOVE";
           authorization := lit "Bearer " ++ trim k |} ->
        match forwarded o with
        | Some fw =>
            method <> lit "OPTIONS"
            /\ (exists k0, Some k = Some k0 /\ Lines.blank k0 = false
                           /\ authorization fw = lit "Bearer " ++ trim k0)
            /\ @inr Thrown _ c = inr (contents fw)
            /\ temperature fw = 1 # 10 /\ topP fw = 1%Z /\ topK fw = 32%Z
            /\ maxOutputTokens fw = 256%Z
            /\ safetyCategory fw = lit "HARM_CATEGORY_DANGEROUS_CONTENT"
            /\ safetyThreshold fw = lit "BLOCK_LOW_AND_ABOVE"
        | None => method = lit "OPTIONS" \/ true = false
                  \/ exists t, @inr Thrown _ c = inl t
        end).
      { intros o ->. split; [exact Hm|]. split; [now exists k|].
        repeat split. }
      apply Hgoal.
      destruct up as [t | status statusText text parsed data]; [reflexivity|].
      destruct (ok status); [destruct data; reflexivity|].
      destruct text as [t|errorText]; [reflexivity|].
      unfold errorResponse. destruct (acceptable status); reflexivity.
  - rewrite (validateApiKey_missing env Henv). cbn. right. now left.
Qed.

(** X22 (success and failure).  Apart from [OPTIONS], [POST] answers with a
    success status exactly when the model answered with one and its JSON
    could be read; the reply is then that JSON, and nothing is logged.
    Every other reply is a failure whose status is not a success status,
    500 or the model's own, and whose error is the last one logged. *)
Theorem reply_ok_iff_data method env body up elapsed refusal :
  method <> lit "OPTIONS" ->
  let o := POST method env body up elapsed refusal in
  (ok (status_of (reply o)) = true <->
   exists status statusText text parsed d,
     up = UpAnswered status statusText text parsed (inr d)
     /\ ok status = true /\ configured env = true /\ (exists c, body = inr c)
     /\ reply o = Data d elapsed /\ logged o = [])
  /\ (ok (status_of (reply o)) = false ->
      exists st e,
        reply o = Failure st e /\ last (logged o) = Some e
        /\ (st = 500%Z
            \/ exists statusText text parsed data,
                 up = UpAnswered st statusText text parsed data
                 /\ error e = lit "Gemini API error"
                 /\ (300 <= st <= 599)%Z)).
Proof.
  intros Hm o. subst o. unfold POST.
  rewrite bool_decide_eq_false_2 by exact Hm.
  assert (Hcatch : forall fw before t,
    let o := {| reply := fst (caught t); forwarded := fw;
                logged := before ++ snd (caught t) |} in
    (ok (status_of (reply o)) = true <-> False)
    /\ exists e, reply o = Failure 500 e /\ last (logged o) = Some e).
  { intros fw before t. cbn [reply logged]. split; [now rewrite caught_not_ok|].
    unfold caught. cbn [fst snd]. eexists. split; [reflexivity|].
    now rewrite last_snoc. }
  assert (Hfail : forall fw before t,
    let o := {| reply := fst (caught t); forwarded := fw;
                logged := before ++ snd (caught t) |} in
    (ok (status_of (reply o)) = true <->
     exists status statusText text parsed d,
       up = UpAnswered status statusText text parsed (inr d)
       /\ ok status = true /\ configured env = true /\ (exists c, body = inr c)
       /\ reply o = Data d elapsed /\ logged o = [])
    /\ (ok (status_of (reply o)) = false ->
        exists st e,
          reply o = Failure st e /\ last (logged o) = Some e
          /\ (st = 500%Z
              \/ exists statusText text parsed data,
                   up = UpAnswered st statusText text parsed data
                   /\ error e = lit "Gemini API error"
                   /\ (300 <= st <= 599)%Z))).
  { intros fw before t o. destruct (Hcatch fw before t) as [H1 (e & H2 & H3)].
    fold o in H1, H2, H3. split.
    - split.
      + intros H. now apply H1 in H.
      + intros (status & statusText & text & parsed & d & _ & _ & _ & _ & Hr & _).
        rewrite H2 in Hr. discriminate.
    - intros _. exists 500%Z, e. split; [exact H2|]. split; [exact H3|]. now left. }
  destruct (configured env) eqn:Henv.
  2:{ rewrite (validateApiKey_missing env Henv). apply Hfail. }
  destruct (validateApiKey_present env Henv) as (k & -> & Hk & ->).
  destruct body as [t|c]; [apply Hfail|].
  destruct up as [t | status statusText text parsed data]; [apply Hfail|].
  destruct (ok status) eqn:Hok.
  - destruct data as [t|d].
    + destruct (Hcatch (Some {| contents := c; temperature := 1 # 10; topP := 1;
                              topK := 32; maxOutputTokens := 256;
                              safetyCategory := lit "HARM_CATEGORY_DANGEROUS_CONTENT";
                              safetyThreshold := lit "BLOCK_LOW_AND_ABOVE";
                              authorization := lit "Bearer " ++ trim k |}) [] t)
        as [H1 (e & H2 & H3)].
      split.
      * split.
        -- intros H. now apply H1 in H.
        -- intros (? & ? & ? & ? & ? & Hup & _). discriminate.
      * intros _. exists 500%Z, e. split; [exact H2|]. split; [exact H3|]. now left.
    + cbn [reply logged status_of]. split.
      * split; [|reflexivity]. intros _.
        exists status, statusText, text, parsed, d.
        repeat split; try assumption. now exists c.
      * discriminate.
  - destruct text as [t|errorText].
    + destruct (Hcatch (Some {| contents := c; temperature := 1 # 10; topP := 1;
                              topK := 32; maxOutputTokens := 256;
                              safetyCategory := lit "HARM_CATEGORY_DANGEROUS_CONTENT";
                              safetyThreshold := lit "BLOCK_LOW_AND_ABOVE";
                              authorization := lit "Bearer " ++ trim k |}) [] t)
        as [H1 (e & H2 & H3)].
      split.
      * split.
        -- intros H. now apply H1 in H.
        -- intros (? & ? & ? & ? & ? & Hup & Hok' & _).
           injection Hup as <- _ _ _ _. congruence.
      * intros _. exists 500%Z, e. split; [exact H2|]. split; [exact H3|]. now left.
    + unfold errorResponse. destruct (acceptable status) eqn:Hacc.
      * cbn [reply logged status_of]. rewrite Hok. split.
        -- split; [discriminate|].
           intros (? & ? & ? & ? & ? & _ & _ & _ & _ & Hr & _). discriminate.
        -- intros _. eexists status, _. split; [reflexivity|].
           split; [reflexivity|]. right.
           exists statusText, (inr errorText), parsed, data.
           split; [reflexivity|]. split; [reflexivity|].
           now apply acceptable_not_ok.
      * match goal with
        | |- context [ {| reply := fst (caught ?t); forwarded := ?fw;
                          logged := ?b ++ snd (caught ?t) |} ] =>
            destruct (Hcatch fw b t) as [H1 (e & H2 & H3)]
        end.
        split.
        -- split.
           ++ intros H. now apply H1 in H.
           ++ intros (? & ? & ? & ? & ? & Hup & Hok' & _).
              injection Hup as <- _ _ _ _. congruence.
        -- intros _. exists 500%Z, e. split; [exact H2|]. split; [exact H3|].
           now left.
Qed.

Lemma reply_ok_iff_data_witness :
  lit "POST" <> lit "OPTIONS"
  /\ (ok (status_of (reply (POST (lit "POST") (Some (lit "k")) (inr None)
                              (UpAnswered 404 (lit "Not Found") (inr (lit "gone"))
                                          None (inl NotAnError)) 5 []))) = false
      -> exists st e,
           reply (POST (lit "POST") (Some (lit "k")) (inr None)
                       (UpAnswered 404 (lit "Not Found") (inr (lit "gone"))
                                   None (inl NotAnError)) 5 []) = Failure st e).
Proof.
  assert (H : lit "POST" <> lit "OPTIONS") by (vm_compute; discriminate).
  split; [exact H|]. intros Hok.
  destruct (reply_ok_iff_data (lit "POST") (Some (lit "k")) (inr None)
              (UpAnswered 404 (lit "Not Found") (inr (lit "gone")) None
                          (inl NotAnError)) 5 [] H) as [_ H2].
  destruct (H2 Hok) as (st & e & Hr & _). now exists st, e.
Defined.

Lemma GET_ok env up :
  ok (status_of (health (GET env up))) = true <->
  configured env = true /\ exists status, up = HealthAnswered status /\ ok status = true.
Proof.
  unfold GET. destruct (configured env) eqn:Henv.
  - destruct (validateApiKey_present env Henv) as (k & -> & Hk & ->).
    destruct up as [[m|] | status].
    + cbn. split; [discriminate|]. intros [_ (? & ? & _)]. discriminate.
    + cbn. split; [discriminate|]. intros [_ (? & ? & _)]. discriminate.
    + destruct (ok status) eqn:Hok.
      * cbn. split; [|reflexivity]. intros _. split; [reflexivity|]. now exists status.
      * cbn. split; [discriminate|]. intros [_ (? & Hup & Hok')].
        injection Hup as <-. congruence.
  - rewrite (validateApiKey_missing env Henv). cbn.
    split; [discriminate|]. intros [? _]. discriminate.
Qed.

(** X23 (connecting end to end).  The health check of [connect] goes
    through [middleware] to [GET].  The client ends connected, with one
    ["open"] signal, exactly when the request was under the rate limit, the
    key is configured and the model answered with a success status.  In
    every other case the flag stays as it was and the client emits one
    ["error"] with the same message, whatever the cause. *)
Theorem connect_end_to_end s a now dur table env up statusText :
  let req := {| RateLimit.pathname := lit "/api/gemini"; RateLimit.ip := a |} in
  let rt := health_round_trip req now dur table env up in
  let s' := Client.connect_resume (Client.Responded rt.1 statusText) (Client.connect s) in
  (rt.1 = true <->
   RateLimit.status (RateLimit.middleware req now dur table).1 <> 429%Z
   /\ configured env = true
   /\ exists status, up = HealthAnswered status /\ ok status = true)
  /\ rt.2 = (RateLimit.middleware req now dur table).2
  /\ (rt.1 = true ->
      Client.connected s' = true
      /\ Client.emitted s' = Client.emitted s ++ [Client.SOpen])
  /\ (rt.1 = false ->
      Client.connected s' = Client.connected s
      /\ Client.emitted s'
         = Client.emitted s
           ++ [Client.SError (lit "Failed to connect to Gemini API")]).
Proof.
  intros req rt s'. subst rt s'. unfold health_round_trip.
  destruct (RateLimit.middleware req now dur table) as [r table'] eqn:Hmw.
  cbn [fst snd].
  assert (Hresume : forall b,
    let s' := Client.connect_resume (Client.Responded b statusText) (Client.connect s) in
    (b = true -> Client.connected s' = true
                 /\ Client.emitted s' = Client.emitted s ++ [Client.SOpen])
    /\ (b = false -> Client.connected s' = Client.connected s
                     /\ Client.emitted s'
                        = Client.emitted s
                          ++ [Client.SError (lit "Failed to connect to Gemini API")])).
  { intros b. destruct s. destruct b; cbn; (split; [intros _|discriminate])
                                      || (split; [discriminate|intros _]);
      split; reflexivity. }
  destruct (RateLimit.status r =? 429)%Z eqn:E; cbn [fst snd].
  - apply Z.eqb_eq in E. rewrite E. split.
    + split; [discriminate|]. intros [H _]. now elim H.
    + split; [reflexivity|]. apply (Hresume (ok 429)).
  - apply Z.eqb_neq in E. split.
    + rewrite GET_ok. tauto.
    + split; [reflexivity|]. apply Hresume.
Qed.

End RouteFacts.
